(** * Avalanche proofs: identity derivation and the two verifiers

    A shallow embedding of [src/avalanche/proof.cpp] (Bitcoin ABC):
    [StakeCommitment], [Stake::computeStakeId], [Stake::getHash],
    [SignedStake::verify], [Proof::FromHex], [Proof::ToHex],
    [Proof::computeProofId], [Proof::computeScore], [Proof::amountToScore]
    and the two overloads of [Proof::verify].

    Integers are [Z] with the wrap-around of their C++ width written out,
    byte strings are [list byte], the set of outpoints seen by the structural
    verifier is a [gset] and the UTXO set a [gmap]. *)

From Stdlib Require Import ZArith Lia Bool.
From Stdlib.Strings Require Import Byte Ascii String.
From stdpp Require Import base decidable countable list gmap sets strings.
From stdpp Require Import sorting.

Local Open Scope Z_scope.

(* ===================================================================== *)
(** ** Bytes and fixed-width integers *)
(* ===================================================================== *)

Definition bytes := list byte.

#[global] Instance byte_eq_decision : EqDecision byte := Byte.byte_eq_dec.

Definition byte_of_Z (z : Z) : byte :=
  match Byte.of_N (Z.to_N (z mod 256)) with
  | Some b => b
  | None => x00
  end.

Definition Z_of_byte (b : byte) : Z := Z.of_N (Byte.to_N b).

(** Little-endian encoding on [n] bytes: the low [8 * n] bits of [v], so a
    negative [v] is written in two's complement. *)
Fixpoint ser_le (n : nat) (v : Z) : bytes :=
  match n with
  | O => []
  | S n' => byte_of_Z v :: ser_le n' (v / 256)
  end.

Fixpoint de_le (bs : bytes) : Z :=
  match bs with
  | [] => 0
  | b :: rest => Z_of_byte b + 256 * de_le rest
  end.

Definition INT64_MIN : Z := - 2 ^ 63.
Definition INT64_MAX : Z := 2 ^ 63 - 1.

Definition in_i64 (z : Z) : Prop := INT64_MIN <= z <= INT64_MAX.
Definition in_i64b (z : Z) : bool := (INT64_MIN <=? z) && (z <=? INT64_MAX).

(** Two's complement wrap-around of a 64-bit signed result. *)
Definition wrap_i64 (z : Z) : Z := (z + 2 ^ 63) mod 2 ^ 64 - 2 ^ 63.

(** Conversion to [uint32_t]. *)
Definition to_u32 (z : Z) : Z := z mod 2 ^ 32.

(** Conversion to [uint256]. *)
Definition to_u256 (z : Z) : Z := z mod 2 ^ 256.

(* ===================================================================== *)
(** ** Data model *)
(* ===================================================================== *)

(** A 256-bit hash, as the unsigned integer it denotes. *)
Definition uint256 := Z.
Definition uint256_ZERO : uint256 := 0.

Definition CPubKey := bytes.
Definition SchnorrSig := bytes.
Definition CScript := bytes.

(** Modelled from the spec: [Amount] (amount.h is not among the sources), a
    signed 64-bit count of the smallest unit, "scalar arithmetic with
    saturating add for summation"; [COIN = 100_000_000]. The product
    [100 * amount] is a 64-bit signed product, written with its wrap. *)
Definition Amount := Z.
Definition COIN : Amount := 100000000.
Definition Amount_zero : Amount := 0.

Definition Amount_add (a b : Amount) : Amount :=
  Z.max INT64_MIN (Z.min INT64_MAX (a + b)).

Definition Amount_scale (k : Z) (a : Amount) : Amount := wrap_i64 (k * a).

(** [Amount / Amount] is C++ integer division: it truncates toward zero. *)
Definition Amount_div (a b : Amount) : Z := Z.quot a b.

(** No running total of [l], started from [acc], leaves the 64-bit range. *)
Fixpoint sums_in_range (acc : Z) (l : list Z) : bool :=
  match l with
  | [] => true
  | a :: l' => in_i64b (acc + a) && sums_in_range (acc + a) l'
  end.

(** Modelled from the spec: [COutPoint] (primitives/transaction.h is not among
    the sources), the pair of a 32-byte transaction id and a [u32] index,
    with total equality and hashing. *)
Record COutPoint := mkOutPoint { txid : uint256; vout : Z }.

#[global] Instance COutPoint_eq_dec : EqDecision COutPoint.
Proof. solve_decision. Defined.

#[global] Instance COutPoint_countable : Countable COutPoint.
Proof.
  refine (inj_countable' (fun o => (txid o, vout o))
                         (fun t => mkOutPoint (fst t) (snd t)) _).
  intros []; reflexivity.
Defined.

(** Modelled from the spec: [Stake] (avalanche/proof.h is not among the
    sources), in its logical form: the outpoint, the amount, the block height,
    the coinbase flag and the public key. The height and the flag are packed
    into one [u32] at the codec boundary only. *)
Record Stake := mkStake {
  utxo : COutPoint;
  amount : Amount;
  height : Z;
  coinbase : bool;
  pubkey : CPubKey
}.

Definition getUTXO (s : Stake) : COutPoint := utxo s.
Definition getAmount (s : Stake) : Amount := amount s.
Definition getHeight (s : Stake) : Z := height s.
Definition isCoinbase (s : Stake) : bool := coinbase s.
Definition getPubkey (s : Stake) : CPubKey := pubkey s.

Record SignedStake := mkSignedStake { stake : Stake; sig : SchnorrSig }.

Definition getStake (ss : SignedStake) : Stake := stake ss.

Record Proof := mkProof {
  sequence : Z;
  expirationTime : Z;
  master : CPubKey;
  payoutScriptPubKey : CScript;
  stakes : list SignedStake;
  signature : SchnorrSig
}.

(** The reasons of avalanche/validation.h, as the spec lists them in its
    section 7, with [NONE] for a state no check has touched. *)
Inductive ProofValidationResult :=
| NONE
| NO_STAKE
| TOO_MANY_UTXOS
| DUST_THRESHOLD
| WRONG_STAKE_ORDERING
| DUPLICATE_STAKE
| INVALID_STAKE_SIGNATURE
| INVALID_PROOF_SIGNATURE
| INVALID_PAYOUT_SCRIPT
| EXPIRED
| MISSING_UTXO
| IMMATURE_UTXO
| COINBASE_MISMATCH
| HEIGHT_MISMATCH
| AMOUNT_MISMATCH
| NON_STANDARD_DESTINATION
| DESTINATION_NOT_SUPPORTED
| DESTINATION_MISMATCH.

#[global] Instance ProofValidationResult_eq_dec : EqDecision ProofValidationResult.
Proof. solve_decision. Defined.

(** What a verifier leaves in its [ProofValidationState]: [Valid] when it
    returns [true], and the reason with its reject string when it returns
    [state.Invalid (...)]. The debug message built by [strprintf] is not
    modelled. *)
Inductive ProofValidationState :=
| Valid
| Invalid (result : ProofValidationResult) (reject_reason : string).

Definition GetResult (st : ProofValidationState) : ProofValidationResult :=
  match st with
  | Valid => NONE
  | Invalid r _ => r
  end.

Definition IsValid (st : ProofValidationState) : bool :=
  match st with
  | Valid => true
  | Invalid _ _ => false
  end.

(** Modelled from the spec: the destinations a script classifies into
    (script/standard.h is not among the sources); only the [PKHash] variant
    matters to the verifier. *)
Inductive CTxDestination :=
| CNoDestination
| PKHash (h : Z)
| ScriptHash (h : Z).

(** Modelled from the spec: the [Coin] of the chain view, with its height,
    coinbase flag, amount and script (coins.h is not among the sources). *)
Record Coin := mkCoin {
  nValue : Amount;
  scriptPubKey : CScript;
  nHeight : Z;
  fCoinBase : bool
}.

Definition GetHeight (c : Coin) : Z := nHeight c.
Definition IsCoinBase (c : Coin) : bool := fCoinBase c.

Record CBlockIndex := mkBlockIndex { GetMedianTimePast : Z }.

(** Modelled from the spec: the chain view of its section 6, the part of
    [ChainstateManager] the verifier reads. *)
Record ChainstateManager := mkChainman {
  ActiveTip : option CBlockIndex;
  ActiveHeight : Z;
  CoinsTip : gmap COutPoint Coin
}.

Definition GetCoin (chainman : ChainstateManager) (o : COutPoint) : option Coin :=
  CoinsTip chainman !! o.

(** The two switches read from [gArgs]; [None] is an unset switch. *)
Record ArgsManager := mkArgs {
  legacyavaproof : option bool;
  avaproofstakeutxoconfirmations : option Z
}.

Definition GetBoolArg (v : option bool) (dflt : bool) : bool := default dflt v.
Definition GetArg (v : option Z) (dflt : Z) : Z := default dflt v.

(** The collaborators the file consumes through narrow interfaces, and the
    constants of avalanche/proof.h, none of which is among the sources. *)
Class Collaborators := {
  Hash256 : bytes -> Z;
  Hash160 : bytes -> Z;
  VerifySchnorr : CPubKey -> uint256 -> SchnorrSig -> bool;
  IsStandard : CScript -> bool;
  ExtractDestination : CScript -> option CTxDestination;
  AVALANCHE_MAX_PROOF_STAKES : Z;
  AVALANCHE_DEFAULT_LEGACY_PROOF : bool;
  AVALANCHE_DEFAULT_STAKE_UTXO_CONFIRMATIONS : Z
}.

(* ===================================================================== *)
(** ** Canonical encoding *)
(* ===================================================================== *)

(** Modelled from the spec: the codec of its section 4.1 (serialize.h and the
    serialization methods of avalanche/proof.h are not among the sources). *)
Definition WriteCompactSize (n : Z) : bytes :=
  if n <? 253 then ser_le 1 n
  else if n <=? 0xFFFF then byte_of_Z 253 :: ser_le 2 n
  else if n <=? 0xFFFFFFFF then byte_of_Z 254 :: ser_le 4 n
  else byte_of_Z 255 :: ser_le 8 n.

Definition ser_u32 (v : Z) : bytes := ser_le 4 v.
Definition ser_u64 (v : Z) : bytes := ser_le 8 v.
Definition ser_i64 (v : Z) : bytes := ser_le 8 v.
Definition ser_uint256 (v : uint256) : bytes := ser_le 32 v.

(** Byte strings, scripts and public keys: [compact_size(len) ‖ bytes]. *)
Definition ser_bytes (b : bytes) : bytes :=
  WriteCompactSize (Z.of_nat (length b)) ++ b.

Definition ser_script (s : CScript) : bytes := ser_bytes s.
Definition ser_pubkey (k : CPubKey) : bytes := ser_bytes k.

Definition ser_outpoint (o : COutPoint) : bytes :=
  ser_uint256 (txid o) ++ ser_u32 (vout o).

(** [packed_height = (height << 1) | coinbase_flag], a [u32]. *)
Definition packed_height (s : Stake) : Z :=
  to_u32 (Z.lor (Z.shiftl (height s) 1) (Z.b2z (coinbase s))).

Definition ser_stake (s : Stake) : bytes :=
  ser_outpoint (utxo s) ++ ser_i64 (amount s) ++ ser_u32 (packed_height s)
  ++ ser_pubkey (pubkey s).

Definition ser_signed_stake (ss : SignedStake) : bytes :=
  ser_stake (stake ss) ++ sig ss.

Definition ser_vector {A} (ser : A -> bytes) (l : list A) : bytes :=
  WriteCompactSize (Z.of_nat (length l)) ++ concat (map ser l).

(* ===================================================================== *)
(** ** Identity derivation and the verifiers *)
(* ===================================================================== *)

Section Avalanche.

Context {collab : Collaborators}.
Variable gArgs : ArgsManager.

(** [CHashWriter]: the bytes written so far; [<<] appends the encoding of its
    operand and [GetHash] hashes what was written. *)
Definition CHashWriter := bytes.
Definition CHashWriter_init : CHashWriter := [].
Definition hw_write (ss : CHashWriter) (b : bytes) : CHashWriter := ss ++ b.
Definition GetHash (ss : CHashWriter) : uint256 := to_u256 (Hash256 ss).

Local Notation "ss << b" := (hw_write ss b) (at level 50, left associativity).

Definition useLegacy (argsman : ArgsManager) : bool :=
  GetBoolArg (legacyavaproof argsman) AVALANCHE_DEFAULT_LEGACY_PROOF.

(** [StakeCommitment::StakeCommitment]: the 32 bytes of [m_data], as the
    integer they denote. *)
Definition StakeCommitment (proofid : uint256) (expirationTime : Z)
    (master : CPubKey) : uint256 :=
  if useLegacy gArgs then proofid
  else
    let ss := CHashWriter_init in
    let ss := ss << ser_i64 expirationTime in
    let ss := ss << ser_pubkey master in
    GetHash ss.

(** [Stake::computeStakeId]; [getId] reads the identifier computed at
    construction. *)
Definition computeStakeId (s : Stake) : uint256 :=
  let ss := CHashWriter_init in
  let ss := ss << ser_stake s in
  GetHash ss.

Definition getId (s : Stake) : uint256 := computeStakeId s.

(** [Stake::getHash]. *)
Definition Stake_getHash (s : Stake) (commitment : uint256) : uint256 :=
  let ss := CHashWriter_init in
  let ss := ss << ser_uint256 commitment in
  let ss := ss << ser_stake s in
  GetHash ss.

(** [SignedStake::verify]. *)
Definition SignedStake_verify (ss : SignedStake) (commitment : uint256) : bool :=
  VerifySchnorr (getPubkey (stake ss)) (Stake_getHash (stake ss) commitment)
                (sig ss).

(** Modelled from the spec: [LimitedProofId::computeProofId] (avalanche/proofid
    is not among the sources), [H(limited_proof_id ‖ master_pubkey)]. *)
Definition LimitedProofId_computeProofId (limitedProofId : uint256)
    (proofMaster : CPubKey) : uint256 :=
  let ss := CHashWriter_init in
  let ss := ss << ser_uint256 limitedProofId in
  let ss := ss << ser_pubkey proofMaster in
  GetHash ss.

(** [Proof::computeProofId]: the pair [(limitedProofId, proofid)] it stores. *)
Definition computeProofId (p : Proof) : uint256 * uint256 :=
  let ss := CHashWriter_init in
  let ss := ss << ser_u64 (sequence p) in
  let ss := ss << ser_i64 (expirationTime p) in
  let ss := if negb (useLegacy gArgs)
            then ss << ser_script (payoutScriptPubKey p) else ss in
  let ss := ss << WriteCompactSize (Z.of_nat (length (stakes p))) in
  let ss := fold_left (fun ss s => ss << ser_stake (getStake s)) (stakes p) ss in
  let limitedProofId := GetHash ss in
  (limitedProofId, LimitedProofId_computeProofId limitedProofId (master p)).

Definition getLimitedId (p : Proof) : uint256 := fst (computeProofId p).
Definition getProofId (p : Proof) : uint256 := snd (computeProofId p).

(** Modelled from the spec: [Proof::getStakeCommitment] (avalanche/proof.h),
    the commitment built from the proof's identity, expiration and master. *)
Definition getStakeCommitment (p : Proof) : uint256 :=
  StakeCommitment (getProofId p) (expirationTime p) (master p).

(** [Proof::amountToScore], with the conversion to [uint32_t] of its result. *)
Definition amountToScore (a : Amount) : Z :=
  to_u32 (Amount_div (Amount_scale 100 a) COIN).

(** [Proof::computeScore]. *)
Definition computeScore (p : Proof) : Z :=
  let total :=
    fold_left (fun total s => Amount_add total (getAmount (getStake s)))
              (stakes p) Amount_zero in
  amountToScore total.

Definition getScore (p : Proof) : Z := computeScore p.

(** The loop of the structural [Proof::verify], with its two locals
    [prevId] and [utxos] threaded through the iterations. *)
Fixpoint verify_stakes (stakeUtxoDustThreshold : Amount) (commitment : uint256)
    (prevId : uint256) (utxos : gset COutPoint) (l : list SignedStake)
    : ProofValidationState :=
  match l with
  | [] => Valid
  | ss :: l' =>
    let s := getStake ss in
    if getAmount s <? stakeUtxoDustThreshold then
      Invalid DUST_THRESHOLD "amount-below-dust-threshold"
    else if getId s <? prevId then
      Invalid WRONG_STAKE_ORDERING "wrong-stake-ordering"
    else
      let prevId := getId s in
      if decide (getUTXO s ∈ utxos) then
        Invalid DUPLICATE_STAKE "duplicated-stake"
      else
        let utxos := {[getUTXO s]} ∪ utxos in
        if negb (SignedStake_verify ss commitment) then
          Invalid INVALID_STAKE_SIGNATURE "invalid-stake-signature"
        else verify_stakes stakeUtxoDustThreshold commitment prevId utxos l'
  end.

(** The block of the structural [Proof::verify] guarded by
    [if (!useLegacy(gArgs))]: [None] when control leaves it without a
    [return]. *)
Definition verify_current_format (p : Proof) : option ProofValidationState :=
  if negb (useLegacy gArgs) then
    if negb (IsStandard (payoutScriptPubKey p)) then
      Some (Invalid INVALID_PAYOUT_SCRIPT "payout-script-non-standard")
    else if negb (VerifySchnorr (master p) (getLimitedId p) (signature p)) then
      Some (Invalid INVALID_PROOF_SIGNATURE "invalid-proof-signature")
    else None
  else None.

(** [Proof::verify (stakeUtxoDustThreshold, state)]. The constant
    [AVALANCHE_MAX_PROOF_STAKES] is compared with [stakes.size()]. *)
Definition verify (stakeUtxoDustThreshold : Amount) (p : Proof)
    : ProofValidationState :=
  if bool_decide (stakes p = []) then Invalid NO_STAKE "no-stake"
  else if Z.of_nat (length (stakes p)) >? AVALANCHE_MAX_PROOF_STAKES then
    Invalid TOO_MANY_UTXOS "too-many-utxos"
  else
    match verify_current_format p with
    | Some st => st
    | None =>
      verify_stakes stakeUtxoDustThreshold (getStakeCommitment p)
                    uint256_ZERO ∅ (stakes p)
    end.

(** The body of the loop of the chain-context [Proof::verify]: [None] when
    the stake passes every check and the loop goes on. *)
Definition verify_stake_chain (chainman : ChainstateManager)
    (activeHeight stakeUtxoMinConfirmations : Z) (ss : SignedStake)
    : option ProofValidationState :=
  let s := getStake ss in
  let utxo := getUTXO s in
  match GetCoin chainman utxo with
  | None => Some (Invalid MISSING_UTXO "utxo-missing-or-spent")
  | Some coin =>
    if wrap_i64 (wrap_i64 (getHeight s + stakeUtxoMinConfirmations) - 1)
       >? activeHeight then
      Some (Invalid IMMATURE_UTXO "immature-utxo")
    else if negb (eqb (isCoinbase s) (IsCoinBase coin)) then
      Some (Invalid COINBASE_MISMATCH "coinbase-mismatch")
    else if negb (getHeight s =? GetHeight coin) then
      Some (Invalid HEIGHT_MISMATCH "height-mismatch")
    else if negb (getAmount s =? nValue coin) then
      Some (Invalid AMOUNT_MISMATCH "amount-mismatch")
    else
      match ExtractDestination (scriptPubKey coin) with
      | None => Some (Invalid NON_STANDARD_DESTINATION "non-standard-destination")
      | Some dest =>
        match dest with
        | PKHash pkhash =>
          if negb (pkhash =? Hash160 (getPubkey s)) then
            Some (Invalid DESTINATION_MISMATCH "destination-mismatch")
          else None
        | _ => Some (Invalid DESTINATION_NOT_SUPPORTED
                             "destination-type-not-supported")
        end
      end
  end.

Fixpoint verify_stakes_chain (chainman : ChainstateManager)
    (activeHeight stakeUtxoMinConfirmations : Z) (l : list SignedStake)
    : ProofValidationState :=
  match l with
  | [] => Valid
  | ss :: l' =>
    match verify_stake_chain chainman activeHeight stakeUtxoMinConfirmations ss with
    | Some st => st
    | None =>
      verify_stakes_chain chainman activeHeight stakeUtxoMinConfirmations l'
    end
  end.

(** The local [tipMedianTimePast]: the median time past of the active tip,
    [0] without a tip. *)
Definition tipMedianTimePast (chainman : ChainstateManager) : Z :=
  match ActiveTip chainman with
  | Some activeTip => GetMedianTimePast activeTip
  | None => 0
  end.

(** The local [stakeUtxoMinConfirmations], an [int64_t] read from [gArgs]. *)
Definition stakeUtxoMinConfirmations : Z :=
  GetArg (avaproofstakeutxoconfirmations gArgs)
         AVALANCHE_DEFAULT_STAKE_UTXO_CONFIRMATIONS.

(** [Proof::verify (stakeUtxoDustThreshold, chainman, state)]. *)
Definition verify_chain (stakeUtxoDustThreshold : Amount)
    (chainman : ChainstateManager) (p : Proof) : ProofValidationState :=
  match verify stakeUtxoDustThreshold p with
  | Invalid r m => Invalid r m
  | Valid =>
    if (expirationTime p >? 0)
       && (tipMedianTimePast chainman >=? expirationTime p) then
      Invalid EXPIRED "expired-proof"
    else
      let activeHeight := ActiveHeight chainman in
      verify_stakes_chain chainman activeHeight stakeUtxoMinConfirmations
                          (stakes p)
  end.

(** *** The spec's reading of the same operations *)

(** The bytes the spec hashes into the limited proof identifier: sequence,
    expiration, the payout script in current mode only, the stake count,
    then every stake without its signature. *)
Definition limited_id_preimage (legacy : bool) (p : Proof) : bytes :=
  ser_u64 (sequence p) ++ ser_i64 (expirationTime p)
  ++ (if legacy then [] else ser_script (payoutScriptPubKey p))
  ++ WriteCompactSize (Z.of_nat (length (stakes p)))
  ++ concat (map (fun s => ser_stake (stake s)) (stakes p)).

(** The sum of the stake amounts, as a mathematical integer. *)
Definition total_amount (p : Proof) : Z :=
  foldr (fun s acc => amount (stake s) + acc) 0 (stakes p).

(** A check of the structural verifier, as the spec lists them: whether it
    fails, and the state it reports when it does. *)
Definition check : Type := bool * ProofValidationState.

(** Fail-fast: the state of the first failing check, [Valid] without one. *)
Fixpoint first_failure (cs : list check) : ProofValidationState :=
  match cs with
  | [] => Valid
  | (failed, st) :: cs' => if failed then st else first_failure cs'
  end.

(** [prev_stakeid] when the stakes of [pre] have been accepted: the
    identifier of the last of them, [0x00…00] before the first stake. *)
Definition prev_stakeid (pre : list SignedStake) : uint256 :=
  default uint256_ZERO (last (map (fun s => getId (stake s)) pre)).

(** The outpoints of the stakes of [pre], the spec's [seen_utxos]. *)
Definition seen_utxos (pre : list SignedStake) : list COutPoint :=
  map (fun s => utxo (stake s)) pre.

(** Steps 5a to 5d of the spec's algorithm for the stake [ss] that follows
    the accepted stakes [pre]. *)
Definition stake_checks (dust : Amount) (commitment : uint256)
    (pre : list SignedStake) (ss : SignedStake) : list check :=
  let s := stake ss in
  let msg := GetHash (ser_uint256 commitment ++ ser_stake s) in
  [ (amount s <? dust,
     Invalid DUST_THRESHOLD "amount-below-dust-threshold");
    (getId s <? prev_stakeid pre,
     Invalid WRONG_STAKE_ORDERING "wrong-stake-ordering");
    (bool_decide (utxo s ∈ seen_utxos pre),
     Invalid DUPLICATE_STAKE "duplicated-stake");
    (negb (VerifySchnorr (pubkey s) msg (sig ss)),
     Invalid INVALID_STAKE_SIGNATURE "invalid-stake-signature") ].

Fixpoint all_stake_checks (dust : Amount) (commitment : uint256)
    (pre l : list SignedStake) : list check :=
  match l with
  | [] => []
  | ss :: l' =>
    stake_checks dust commitment pre ss
    ++ all_stake_checks dust commitment (pre ++ [ss]) l'
  end.

(** Steps 1 to 3 of the spec's algorithm. *)
Definition preliminary_checks (p : Proof) : list check :=
  [ (bool_decide (stakes p = []), Invalid NO_STAKE "no-stake");
    (Z.of_nat (length (stakes p)) >? AVALANCHE_MAX_PROOF_STAKES,
     Invalid TOO_MANY_UTXOS "too-many-utxos") ]
  ++ (if useLegacy gArgs then []
      else
        [ (negb (IsStandard (payoutScriptPubKey p)),
           Invalid INVALID_PAYOUT_SCRIPT "payout-script-non-standard");
          (negb (VerifySchnorr (master p) (getLimitedId p) (signature p)),
           Invalid INVALID_PROOF_SIGNATURE "invalid-proof-signature") ]).

(** The whole list of the spec's section 4.3, in its order. *)
Definition structural_checks (dust : Amount) (p : Proof) : list check :=
  preliminary_checks p
  ++ all_stake_checks dust (getStakeCommitment p) [] (stakes p).

End Avalanche.

(* ===================================================================== *)
(** ** Decoding and the hexadecimal form *)
(* ===================================================================== *)

(** What reading from a [CDataStream] gives: a value, or the exception
    thrown, with its message. *)
Inductive result (A : Type) :=
| Ok (a : A)
| Throw (what : string).

Arguments Ok {A} a.
Arguments Throw {A} what.

(** A reader consumes a prefix of the stream and leaves the rest. *)
Definition Reader (A : Type) : Type := bytes -> result (A * bytes).

Definition ret {A} (a : A) : Reader A := fun s => Ok (a, s).

Definition bind {A B} (m : Reader A) (k : A -> Reader B) : Reader B :=
  fun s =>
    match m s with
    | Ok (a, s') => k a s'
    | Throw what => Throw what
    end.

Definition throw {A} (what : string) : Reader A := fun _ => Throw what.

Notation "x <- m ;; k" := (bind m (fun x => k))
  (at level 100, m at next level, right associativity).

(** [r] reads [x] off the encoding [enc], whatever follows it. *)
Definition reads {A} (r : Reader A) (enc : bytes) (x : A) : Prop :=
  forall rest, r (enc ++ rest) = Ok (x, rest).

(** [r] throws on [enc] cut short: on every prefix of [enc] other than [enc]
    itself. *)
Definition cut_short {A} (r : Reader A) (enc : bytes) : Prop :=
  forall pre suf, enc = pre ++ suf -> suf <> [] -> exists what, r pre = Throw what.

Definition read_bytes (n : nat) : Reader bytes :=
  fun s =>
    if decide (n <= length s)%nat then Ok (take n s, drop n s)
    else Throw "end of data".

Definition read_le (n : nat) : Reader Z :=
  b <- read_bytes n ;; ret (de_le b).

Definition read_i64 : Reader Z :=
  v <- read_le 8 ;; ret (wrap_i64 v).

(** [n] values in a row. *)
Fixpoint read_n {A} (n : nat) (r : Reader A) : Reader (list A) :=
  match n with
  | O => ret []
  | S n' => x <- r ;; l <- read_n n' r ;; ret (x :: l)
  end.

(** The two hexadecimal digits of a byte, lower case, high nibble first. *)
Definition hex_char (v : Z) : ascii :=
  if v <? 10 then ascii_of_N (Z.to_N (48 + v)) else ascii_of_N (Z.to_N (87 + v)).

(** The value of a hexadecimal digit of either case. *)
Definition hex_digit (c : ascii) : option Z :=
  let n := Z.of_N (N_of_ascii c) in
  if (48 <=? n) && (n <=? 57) then Some (n - 48)
  else if (97 <=? n) && (n <=? 102) then Some (n - 87)
  else if (65 <=? n) && (n <=? 70) then Some (n - 55)
  else None.

Definition is_lower_hex (c : ascii) : bool :=
  let n := Z.of_N (N_of_ascii c) in
  ((48 <=? n) && (n <=? 57)) || ((97 <=? n) && (n <=? 102)).

Fixpoint string_forall (f : ascii -> bool) (s : string) : bool :=
  match s with
  | EmptyString => true
  | String c s' => f c && string_forall f s'
  end.

(** Modelled from the spec: [HexStr], [IsHex] and [ParseHex]
    (util/strencodings is not among the sources). The hex form is lower case,
    of even length, without white space or prefix. *)
Fixpoint HexStr (bs : bytes) : string :=
  match bs with
  | [] => EmptyString
  | b :: bs' =>
    String (hex_char (Z_of_byte b / 16))
           (String (hex_char (Z_of_byte b mod 16)) (HexStr bs'))
  end.

Definition IsHex (s : string) : bool :=
  string_forall (fun c => bool_decide (is_Some (hex_digit c))) s
  && Nat.even (String.length s).

Fixpoint ParseHex (s : string) : bytes :=
  match s with
  | String hi (String lo s') =>
    match hex_digit hi, hex_digit lo with
    | Some h, Some l => byte_of_Z (16 * h + l) :: ParseHex s'
    | _, _ => []
    end
  | _ => []
  end.

(** The two errors [FromHex] reports through [errorOut]. *)
Inductive ParseError :=
| NotHex
| MalformedEncoding (msg : string).

Definition errorOut (e : ParseError) : string :=
  match e with
  | NotHex => "Proof must be an hexadecimal string."
  | MalformedEncoding msg => "Proof has invalid format: " +:+ msg
  end.

Section Codec.

Context {collab : Collaborators}.
Variable gArgs : ArgsManager.

(** The largest size a compact size may announce. *)
Variable MAX_SIZE : Z.

(** Modelled from the spec: the decoder of its section 4.1, the inverse of
    the encoder; it fails on truncated input and on a compact size that is
    oversized or not in its shortest form. The stake count is read as a
    compact size, so an oversized count fails before any stake is read. *)
Definition ReadCompactSize : Reader Z :=
  tag <- read_le 1 ;;
  v <- (if tag <? 253 then ret tag
        else if tag =? 253 then
          x <- read_le 2 ;;
          if x <? 253 then throw "non-canonical ReadCompactSize()" else ret x
        else if tag =? 254 then
          x <- read_le 4 ;;
          if x <? 0x10000 then throw "non-canonical ReadCompactSize()"
          else ret x
        else
          x <- read_le 8 ;;
          if x <? 0x100000000 then throw "non-canonical ReadCompactSize()"
          else ret x) ;;
  if v >? MAX_SIZE then throw "ReadCompactSize(): size too large" else ret v.

Definition read_var_bytes : Reader bytes :=
  n <- ReadCompactSize ;; read_bytes (Z.to_nat n).

Definition read_pubkey : Reader CPubKey := read_var_bytes.
Definition read_script : Reader CScript := read_var_bytes.

Definition read_outpoint : Reader COutPoint :=
  t <- read_le 32 ;; n <- read_le 4 ;; ret (mkOutPoint t n).

(** The height and the coinbase flag are unpacked here. *)
Definition read_stake : Reader Stake :=
  o <- read_outpoint ;;
  a <- read_i64 ;;
  h <- read_le 4 ;;
  k <- read_pubkey ;;
  ret (mkStake o a (Z.shiftr h 1) (Z.odd h) k).

Definition read_signed_stake : Reader SignedStake :=
  s <- read_stake ;; g <- read_bytes 64 ;; ret (mkSignedStake s g).

Definition read_vector {A} (r : Reader A) : Reader (list A) :=
  n <- ReadCompactSize ;; read_n (Z.to_nat n) r.

(** The payout script and the proof signature a legacy proof holds, the
    legacy wire format having neither. *)
Definition legacy_payout : CScript := [].
Definition legacy_signature : SchnorrSig := repeat x00 64.

(** The wire layout of a proof, under the format [gArgs] selects. *)
Definition ser_proof (p : Proof) : bytes :=
  ser_u64 (sequence p) ++ ser_i64 (expirationTime p) ++ ser_pubkey (master p)
  ++ ser_vector ser_signed_stake (stakes p)
  ++ (if useLegacy gArgs then []
      else ser_script (payoutScriptPubKey p) ++ signature p).

Definition read_proof : Reader Proof :=
  sq <- read_le 8 ;;
  ex <- read_i64 ;;
  m <- read_pubkey ;;
  l <- read_vector read_signed_stake ;;
  if useLegacy gArgs then
    ret (mkProof sq ex m legacy_payout l legacy_signature)
  else
    po <- read_script ;;
    g <- read_bytes 64 ;;
    ret (mkProof sq ex m po l g).

(** [Proof::FromHex]: the proof read, or the error left in [errorOut]. What
    the stream holds after the proof is not looked at. *)
Definition FromHex (hexProof : string) : Proof + ParseError :=
  if negb (IsHex hexProof) then inr NotHex
  else
    let ss := ParseHex hexProof in
    match read_proof ss with
    | Ok (proof, _) => inl proof
    | Throw what => inr (MalformedEncoding what)
    end.

(** [Proof::ToHex]. *)
Definition ToHex (p : Proof) : string :=
  let ss := ser_proof p in
  HexStr ss.

(** The proofs the data model of the spec admits, within the widths of the
    wire format. *)
Definition wf_var_bytes (b : bytes) : Prop := Z.of_nat (length b) <= MAX_SIZE.

Definition wf_stake (s : Stake) : Prop :=
  0 <= txid (utxo s) < 2 ^ 256
  /\ 0 <= vout (utxo s) < 2 ^ 32
  /\ in_i64 (amount s)
  /\ 0 <= height s < 2 ^ 31
  /\ wf_var_bytes (pubkey s).

Definition wf_signed_stake (ss : SignedStake) : Prop :=
  wf_stake (stake ss) /\ length (sig ss) = 64%nat.

Definition wf_proof (p : Proof) : Prop :=
  0 <= sequence p < 2 ^ 64
  /\ in_i64 (expirationTime p)
  /\ wf_var_bytes (master p)
  /\ Z.of_nat (length (stakes p)) <= MAX_SIZE
  /\ Forall wf_signed_stake (stakes p)
  /\ (if useLegacy gArgs
      then payoutScriptPubKey p = legacy_payout
           /\ signature p = legacy_signature
      else wf_var_bytes (payoutScriptPubKey p)
           /\ length (signature p) = 64%nat).

End Codec.

(* ===================================================================== *)
(** ** The rest of [proof.cpp] and what acceptance means *)
(* ===================================================================== *)

(** [Proof::getStakedAmount]: [std::accumulate] over the stakes, from
    [Amount::zero()], with [current + amount]. *)
Definition getStakedAmount (p : Proof) : Amount :=
  fold_left (fun current ss => Amount_add current (getAmount (getStake ss)))
            (stakes p) Amount_zero.

(** The reasons each verifier can give. *)
Definition is_structural_reason (r : ProofValidationResult) : bool :=
  match r with
  | NO_STAKE | TOO_MANY_UTXOS | DUST_THRESHOLD | WRONG_STAKE_ORDERING
  | DUPLICATE_STAKE | INVALID_STAKE_SIGNATURE | INVALID_PROOF_SIGNATURE
  | INVALID_PAYOUT_SCRIPT => true
  | _ => false
  end.

Definition is_chain_reason (r : ProofValidationResult) : bool :=
  match r with
  | EXPIRED | MISSING_UTXO | IMMATURE_UTXO | COINBASE_MISMATCH
  | HEIGHT_MISMATCH | AMOUNT_MISMATCH | NON_STANDARD_DESTINATION
  | DESTINATION_NOT_SUPPORTED | DESTINATION_MISMATCH => true
  | _ => false
  end.

(** The sum [height + confirmations - 1] of the maturity test stays within
    64 bits, at each of its two steps. *)
Definition maturity_sum_fits (confs : Z) (s : Stake) : Prop :=
  in_i64 (height s + confs) /\ in_i64 (height s + confs - 1).

Section Acceptance.

Context {collab : Collaborators}.
Variable gArgs : ArgsManager.

(** The proof is expired under the chain view. *)
Definition expired (chainman : ChainstateManager) (p : Proof) : Prop :=
  expirationTime p > 0 /\ tipMedianTimePast chainman >= expirationTime p.

(** A stake and the coin of the UTXO set at its outpoint agree: the coin
    exists, the declared height has the confirmations, coinbase flag, height
    and amount are the coin's, and the coin pays to the hash of the stake's
    public key. *)
Definition stake_matches_coin (chainman : ChainstateManager) (ss : SignedStake)
    : Prop :=
  exists coin,
    GetCoin chainman (utxo (stake ss)) = Some coin
    /\ height (stake ss) + stakeUtxoMinConfirmations gArgs - 1
       <= ActiveHeight chainman
    /\ coinbase (stake ss) = fCoinBase coin
    /\ height (stake ss) = nHeight coin
    /\ amount (stake ss) = nValue coin
    /\ ExtractDestination (scriptPubKey coin)
       = Some (PKHash (Hash160 (pubkey (stake ss)))).

End Acceptance.

(* ===================================================================== *)
(** ** [bench/chained_tx.cpp]: chains and trees of transactions *)
(* ===================================================================== *)

Module ChainedTx.

(** The 64-bit difference of two amounts, written with its wrap (amount.h is
    not among the sources). *)
Definition Amount_sub (a b : Amount) : Amount := wrap_i64 (a - b).

Definition SATOSHI : Amount := 1.

(** The transaction types of primitives/transaction.h, which is not among
    the sources, with the fields the file touches. *)
Record CTxIn := mkTxIn {
  prevout : COutPoint;
  scriptSig : CScript;
  nSequence : Z
}.

Record CTxOut := mkTxOut { nValue : Amount; scriptPubKey : CScript }.

Record CTransaction := mkTx {
  nVersion : Z;
  vin : list CTxIn;
  vout : list CTxOut;
  nLockTime : Z
}.

(** What the file takes from elsewhere: the transaction identifier, the three
    script constants it builds from opcodes, the defaults of the transaction
    constructors, the coinbase maturity, and [MineBlock], which mines a block
    on the node and returns an input spending its coinbase. *)
Class Environment := {
  GetId : CTransaction -> uint256;
  SCRIPT_PUB_KEY : CScript;
  SCRIPT_SIG : CScript;
  SEQUENCE_FINAL : Z;
  CURRENT_VERSION : Z;
  COINBASE_MATURITY : nat;
  Node : Type;
  MineBlock : Node -> CTxIn * Node
}.

(** How a call ends: it returns, an [assert] fails, it runs into undefined
    behaviour ([front()] of an empty queue, [vout[0]] of a transaction without
    outputs), or the fuel given to a [while] loop runs out. *)
Inductive outcome (A : Type) :=
| Returned (a : A)
| AssertionFailed
| Undefined
| OutOfFuel.

Arguments Returned {A} a.
Arguments AssertionFailed {A}.
Arguments Undefined {A}.
Arguments OutOfFuel {A}.

Section Bench.

Context {env : Environment}.

(** [n] calls of [MineBlock] in a row, with the inputs they return. *)
Fixpoint mine_blocks (n : nat) (node : Node) : list CTxIn * Node :=
  match n with
  | O => ([], node)
  | S n' =>
    let '(txin, node) := MineBlock node in
    let '(utxos, node) := mine_blocks n' node in
    (txin :: utxos, node)
  end.

(** [createUTXOs]: mine [n] blocks and keep their inputs, then mine
    [COINBASE_MATURITY + 1] more. *)
Definition createUTXOs (n : nat) (node : Node) : list CTxIn * Node :=
  let '(utxos, node) := mine_blocks n node in
  let '(_, node) := mine_blocks (COINBASE_MATURITY + 1) node in
  (utxos, node).

(** The constructor [CTxIn(prevout, scriptSig)]. *)
Definition CTxIn_new (o : COutPoint) (sig : CScript) : CTxIn :=
  mkTxIn o sig SEQUENCE_FINAL.

(** A default-constructed [CMutableTransaction] with the inputs and outputs
    put in. *)
Definition MakeTransactionRef (ins : list CTxIn) (outs : list CTxOut)
    : CTransaction :=
  mkTx CURRENT_VERSION ins outs 0.

(** [toTx]: the input, with its script replaced, and one output of
    [25 * COIN - 1337 * SATOSHI]. *)
Definition toTx (txin : CTxIn) : CTransaction :=
  let vin := [txin] in
  let vin := map (fun i => mkTxIn (prevout i) SCRIPT_SIG (nSequence i)) vin in
  let vout :=
    [mkTxOut (Amount_sub (Amount_scale 25 COIN) (Amount_scale 1337 SATOSHI))
             SCRIPT_PUB_KEY] in
  MakeTransactionRef vin vout.

(** The body of the loop of [oneInOneOutChain]: the transaction that spends
    output 0 of [back], worth [inAmount]. *)
Definition spend_one (back : CTransaction) (inAmount : Amount) : CTransaction :=
  let parent := mkOutPoint (GetId back) 0 in
  MakeTransactionRef
    [CTxIn_new parent SCRIPT_SIG]
    [mkTxOut (Amount_sub inAmount (Amount_scale 1337 SATOSHI)) SCRIPT_PUB_KEY].

(** The [while (chain.size() < chainLength)] loop. *)
Fixpoint chain_loop (fuel chainLength : nat) (chain : list CTransaction)
    : outcome (list CTransaction) :=
  if (length chain <? chainLength)%nat then
    match fuel with
    | O => OutOfFuel
    | S fuel' =>
      match last chain with
      | None => Undefined
      | Some back =>
        match head (vout back) with
        | None => Undefined
        | Some out0 =>
          chain_loop fuel' chainLength
                     (chain ++ [spend_one back (nValue out0)])
        end
      end
    end
  else Returned chain.

(** [oneInOneOutChain]. *)
Definition oneInOneOutChain (fuel : nat) (utxo : CTxIn) (chainLength : nat)
    : outcome (list CTransaction) :=
  let firstTx := toTx utxo in
  match chain_loop fuel chainLength [firstTx] with
  | Returned chain =>
    if (length chain =? chainLength)%nat then Returned chain
    else AssertionFailed
  | o => o
  end.

(** The transaction of [twoInOneOutTree] that spends output 0 of [txin1] and
    of [txin2], worth [v1] and [v2]. *)
Definition spend_two (txin1 txin2 : CTransaction) (v1 v2 : Amount)
    : CTransaction :=
  let inAmount := Amount_add v1 v2 in
  MakeTransactionRef
    [CTxIn_new (mkOutPoint (GetId txin1) 0) SCRIPT_SIG;
     CTxIn_new (mkOutPoint (GetId txin2) 0) SCRIPT_SIG]
    [mkTxOut (Amount_sub inAmount (Amount_scale 1337 SATOSHI)) SCRIPT_PUB_KEY].

(** The [while (true)] loop of [twoInOneOutTree], on its queue and its
    vector. *)
Fixpoint tree_loop (fuel : nat) (queue chain : list CTransaction)
    : outcome (list CTransaction) :=
  match fuel with
  | O => OutOfFuel
  | S fuel' =>
    match queue with
    | [] => Undefined
    | txin1 :: queue =>
      match queue with
      | [] => Undefined
      | txin2 :: queue =>
        match head (vout txin1), head (vout txin2) with
        | Some o1, Some o2 =>
          let txref := spend_two txin1 txin2 (nValue o1) (nValue o2) in
          let chain := chain ++ [txref] in
          match queue with
          | [] => Returned chain
          | _ => tree_loop fuel' (queue ++ [txref]) chain
          end
        | _, _ => Undefined
        end
      end
    end
  end.

(** The number of transactions [twoInOneOutTree] announces: the sum of
    [std::pow(2, i)] for [i] from 0 to [treeDepth]. The powers and their sums
    are taken exactly, as the doubles are below 2^53. *)
Fixpoint tree_txs (treeDepth : nat) : nat :=
  match treeDepth with
  | O => 2 ^ 0
  | S d => tree_txs d + 2 ^ S d
  end.

(** [twoInOneOutTree]. *)
Definition twoInOneOutTree (fuel : nat) (node : Node) (treeDepth : nat)
    : outcome (list CTransaction) * Node :=
  let txs := tree_txs treeDepth in
  let leafs := (2 ^ treeDepth)%nat in
  let '(utxos, node) := createUTXOs leafs node in
  let queue := map toTx utxos in
  let chain := map toTx utxos in
  match tree_loop fuel queue chain with
  | Returned chain =>
    (if (length chain =? txs)%nat then Returned chain else AssertionFailed,
     node)
  | o => (o, node)
  end.

(** The value of output 0 of a transaction, 0 without outputs. *)
Definition value0 (tx : CTransaction) : Amount :=
  default 0 (nValue <$> head (vout tx)).

(** The transaction the chain holds at position [k]. *)
Fixpoint nth_chained (utxo : CTxIn) (k : nat) : CTransaction :=
  match k with
  | O => toTx utxo
  | S k' => spend_one (nth_chained utxo k') (value0 (nth_chained utxo k'))
  end.

End Bench.

End ChainedTx.

(* ===================================================================== *)
(** ** A concrete instance of the collaborators, for worked examples *)
(* ===================================================================== *)

Module Sample.

(** A polynomial hash standing in for the double SHA-256. *)
Definition hash (bs : bytes) : Z :=
  fold_left (fun acc b => (acc * 257 + Z_of_byte b + 1) mod 1000000007) bs 0.

Definition hash160 (bs : bytes) : Z := hash bs mod 2 ^ 160.

(** A signature is accepted when it is the 64 bytes [sign key msg]. *)
Definition sign (key : CPubKey) (msg : uint256) : SchnorrSig :=
  ser_le 32 msg ++ ser_le 32 (hash key).

Definition verify_sig (key : CPubKey) (msg : uint256) (s : SchnorrSig) : bool :=
  bool_decide (s = sign key msg).

(** Pay-to-public-key-hash: [76 a9 14 <20 bytes> 88 ac]. *)
Definition p2pkh (h : Z) : CScript :=
  [x76; xa9; x14] ++ ser_le 20 h ++ [x88; xac].

(** Pay-to-script-hash: [a9 14 <20 bytes> 87]. *)
Definition p2sh (h : Z) : CScript :=
  [xa9; x14] ++ ser_le 20 h ++ [x87].

Definition extract_destination (s : CScript) : option CTxDestination :=
  if bool_decide (take 3 s = [x76; xa9; x14] /\ drop 23 s = [x88; xac]) then
    Some (PKHash (de_le (take 20 (drop 3 s))))
  else if bool_decide (take 2 s = [xa9; x14] /\ drop 22 s = [x87]) then
    Some (ScriptHash (de_le (take 20 (drop 2 s))))
  else None.

Definition is_standard (s : CScript) : bool :=
  bool_decide (is_Some (extract_destination s)).

Definition collaborators : Collaborators := {|
  Hash256 := hash;
  Hash160 := hash160;
  VerifySchnorr := verify_sig;
  IsStandard := is_standard;
  ExtractDestination := extract_destination;
  AVALANCHE_MAX_PROOF_STAKES := 1000;
  AVALANCHE_DEFAULT_LEGACY_PROOF := true;
  AVALANCHE_DEFAULT_STAKE_UTXO_CONFIRMATIONS := 2016
|}.

Definition legacy_args : ArgsManager := mkArgs (Some true) None.
Definition current_args : ArgsManager := mkArgs (Some false) (Some 100).

Definition key (n : Z) : CPubKey := byte_of_Z 2 :: ser_le 32 n.

Definition master_key : CPubKey := key 7.

(** The same collaborators with a hash that sends every input to 5, so that
    any two stakes have the same identifier. *)
Definition colliding : Collaborators := {|
  Hash256 := fun _ => 5;
  Hash160 := hash160;
  VerifySchnorr := verify_sig;
  IsStandard := is_standard;
  ExtractDestination := extract_destination;
  AVALANCHE_MAX_PROOF_STAKES := 1000;
  AVALANCHE_DEFAULT_LEGACY_PROOF := true;
  AVALANCHE_DEFAULT_STAKE_UTXO_CONFIRMATIONS := 2016
|}.

(** What a proof builder does: sign every stake over the commitment, then
    the proof over its limited identifier. *)
Definition build_with (collab : Collaborators) (gArgs : ArgsManager)
    (seq exp : Z) (m : CPubKey) (payout : CScript) (l : list Stake) : Proof :=
  let unsigned :=
    mkProof seq exp m payout (map (fun s => mkSignedStake s []) l) [] in
  let commitment := getStakeCommitment gArgs unsigned in
  let signed :=
    map (fun s => mkSignedStake s (sign (pubkey s) (Stake_getHash s commitment)))
        l in
  mkProof seq exp m payout signed (sign m (getLimitedId gArgs unsigned)).

Definition build : ArgsManager -> Z -> Z -> CPubKey -> CScript -> list Stake
                   -> Proof :=
  build_with collaborators.

Definition payout : CScript := p2pkh (hash160 master_key).

Definition stake1 : Stake :=
  mkStake (mkOutPoint 11 0) (10 * COIN) 100 false (key 1).
Definition stake2 : Stake :=
  mkStake (mkOutPoint 12 1) (20 * COIN) 200 true (key 2).

(** The outpoint of [stake1] again, with another amount. *)
Definition stake1_again : Stake :=
  mkStake (mkOutPoint 11 0) (30 * COIN) 100 false (key 1).

(** A stake that declares height 100 for a coin mined at height 200. *)
Definition stake3 : Stake :=
  mkStake (mkOutPoint 13 0) (10 * COIN) 100 true (key 3).

(** A coinbase stake at height 200. *)
Definition stake4 : Stake :=
  mkStake (mkOutPoint 14 0) (10 * COIN) 200 true (key 4).

(** A stake of half a coin. *)
Definition stake5 : Stake :=
  mkStake (mkOutPoint 15 0) (COIN / 2) 100 false (key 5).

Definition current_proof (exp : Z) (l : list Stake) : Proof :=
  build current_args 42 exp master_key payout l.

Definition proof1 : Proof := current_proof 0 [stake1].
Definition proof12 : Proof := current_proof 0 [stake1; stake2].
Definition proof21 : Proof := current_proof 0 [stake2; stake1].
Definition proof_dup : Proof := current_proof 0 [stake1; stake1_again].
Definition proof3 : Proof := current_proof 0 [stake3].
Definition proof4 : Proof := current_proof 0 [stake4].
Definition proof5 : Proof := current_proof 0 [stake5].
Definition proof_empty : Proof := current_proof 0 [].

(** [stake1] then [stake2], built and signed under the colliding hash. *)
Definition proof_colliding : Proof :=
  build_with colliding current_args 42 0 master_key payout [stake1; stake2].
Definition proof_expiring : Proof := current_proof 1000000 [stake1].

(** A legacy proof: no payout script, no proof signature. *)
Definition legacy_proof : Proof :=
  let p := build legacy_args 42 0 master_key legacy_payout [stake1] in
  mkProof (sequence p) (expirationTime p) (master p) legacy_payout (stakes p)
          legacy_signature.

(** The same proof with a payout script and a signature put in. *)
Definition legacy_proof_decorated : Proof :=
  mkProof (sequence legacy_proof) (expirationTime legacy_proof)
          (master legacy_proof) (p2sh 5) (stakes legacy_proof)
          (sign master_key 9).

Definition coin_of (s : Stake) (h : Z) : Coin :=
  mkCoin (amount s) (p2pkh (hash160 (pubkey s))) h (coinbase s).

(** Tip at height 250, median time past 1_000_000; the coin of [stake3] was
    mined at height 200, that of [stake4] too. *)
Definition chain : ChainstateManager :=
  mkChainman (Some (mkBlockIndex 1000000)) 250
             (<[utxo stake1 := coin_of stake1 100]>
                (<[utxo stake3 := coin_of stake3 200]>
                   {[utxo stake4 := coin_of stake4 200]})).

Definition max_size : Z := 0x02000000.

(** The first signed stake of a proof. *)
Definition first_stake (p : Proof) : SignedStake :=
  default (mkSignedStake stake1 []) (head (stakes p)).

(** [proof1] with every signature taken away. *)
Definition proof1_unsigned : Proof :=
  mkProof (sequence proof1) (expirationTime proof1) [] (payoutScriptPubKey proof1)
          (map (fun ss => mkSignedStake (stake ss) []) (stakes proof1)) [].

(** [chain] with one more coin, at an outpoint no sample proof stakes. *)
Definition chain_with_more_coins : ChainstateManager :=
  mkChainman (ActiveTip chain) (ActiveHeight chain)
             (<[mkOutPoint 99 0 := coin_of stake4 1]> (CoinsTip chain)).

(** [chain] fifty blocks later, with the same UTXO set. *)
Definition chain_later : ChainstateManager :=
  mkChainman (ActiveTip chain) 300 (CoinsTip chain).

(** [chain] with an empty UTXO set. *)
Definition chain_without_coins : ChainstateManager :=
  mkChainman (ActiveTip chain) (ActiveHeight chain) ∅.

(** A node that counts its blocks; the coinbase of block [n] is the outpoint
    [(n, 0)]. *)
Definition bench_env : ChainedTx.Environment := {|
  ChainedTx.GetId := fun tx =>
    foldr (fun i acc => txid (ChainedTx.prevout i) * 31 + acc + 1)
          (ChainedTx.value0 tx) (ChainedTx.vin tx);
  ChainedTx.SCRIPT_PUB_KEY := p2sh 7;
  ChainedTx.SCRIPT_SIG := [x51];
  ChainedTx.SEQUENCE_FINAL := 0xffffffff;
  ChainedTx.CURRENT_VERSION := 2;
  ChainedTx.COINBASE_MATURITY := 100;
  ChainedTx.Node := nat;
  ChainedTx.MineBlock := fun n =>
    (ChainedTx.mkTxIn (mkOutPoint (Z.of_nat n) 0) [] 0, S n)
|}.

Definition bench_utxo : ChainedTx.CTxIn :=
  ChainedTx.mkTxIn (mkOutPoint 5 0) [] 0.



(** A stake that declares height 100 and no coinbase, for a coinbase coin
    mined at height 200. *)
Definition stake_plain : Stake :=
  mkStake (mkOutPoint 17 0) (10 * COIN) 100 false (key 8).

Definition proof_plain : Proof := current_proof 0 [stake_plain].

Definition coinbase_coin : Coin :=
  mkCoin (amount stake_plain) (p2pkh (hash160 (pubkey stake_plain))) 200 true.

(** [chain] with the coinbase coin at the outpoint of [stake_plain]. *)
Definition chain_with_coinbase_coin : ChainstateManager :=
  mkChainman (ActiveTip chain) (ActiveHeight chain)
             (<[utxo stake_plain := coinbase_coin]> (CoinsTip chain)).

(** The encoding of [proof1] followed by two bytes. *)
Definition proof1_then_two_bytes : bytes :=
  ser_proof (collab := collaborators) current_args proof1 ++ [x00; xff].

End Sample.


(* ===================================================================== *)
(** ** Arithmetic and list facts used below *)
(* ===================================================================== *)

Lemma wrap_i64_id (z : Z) : in_i64 z -> wrap_i64 z = z.
Proof.
  unfold in_i64, wrap_i64, INT64_MIN, INT64_MAX. intros Hz.
  rewrite Z.mod_small; lia.
Qed.

Lemma in_i64b_spec (z : Z) : in_i64b z = true <-> in_i64 z.
Proof.
  unfold in_i64b, in_i64. rewrite andb_true_iff, !Z.leb_le. reflexivity.
Qed.

Lemma Amount_add_exact (a b : Amount) : in_i64 (a + b) -> Amount_add a b = a + b.
Proof. unfold Amount_add, in_i64. lia. Qed.

Lemma hw_write_fold {A} (f : A -> bytes) (l : list A) (ss : bytes) :
  fold_left (fun acc x => hw_write acc (f x)) l ss = ss ++ concat (map f l).
Proof.
  revert ss. induction l as [|x l IH]; intros ss; simpl.
  - now rewrite app_nil_r.
  - rewrite IH. unfold hw_write. now rewrite <- app_assoc.
Qed.

Lemma saturating_total (l : list SignedStake) (acc : Amount) :
  sums_in_range acc (map (fun s => amount (stake s)) l) = true ->
  fold_left (fun total s => Amount_add total (getAmount (getStake s))) l acc
  = acc + foldr (fun s t => amount (stake s) + t) 0 l.
Proof.
  revert acc. induction l as [|s l IH]; intros acc Hr; simpl in *.
  - lia.
  - apply andb_true_iff in Hr as [Hs Hr]. apply in_i64b_spec in Hs.
    unfold getAmount, getStake in *. rewrite Amount_add_exact by exact Hs.
    rewrite IH by exact Hr. lia.
Qed.

(* ===================================================================== *)
(** ** Identity derivation *)
(* ===================================================================== *)

Section Identity.

Context {collab : Collaborators}.
Variable gArgs : ArgsManager.

(** C2. The limited proof identifier is the hash of the sequence, the
    expiration time, the payout script (current mode only), the compact size
    of the stake count and every stake's encoding in list order, signatures
    left out; the proof identifier is the hash of the limited identifier
    followed by the master public key. *)
Theorem computeProofId_hashes_spec_preimage (p : Proof) :
  getLimitedId gArgs p = GetHash (limited_id_preimage (useLegacy gArgs) p)
  /\ getProofId gArgs p
     = GetHash (ser_uint256 (getLimitedId gArgs p) ++ ser_pubkey (master p)).
Proof.
  split.
  - unfold getLimitedId, computeProofId, limited_id_preimage. cbn [fst].
    f_equal. rewrite hw_write_fold. unfold hw_write, CHashWriter_init, getStake.
    destruct (useLegacy gArgs); cbn [negb app]; now rewrite <- ?app_assoc.
  - reflexivity.
Qed.

(** C7. In current mode the stake commitment of a proof is the hash of its
    expiration time followed by its master key, so two proofs with the same
    expiration time and master have the same commitment whatever their
    stakes, sequence and payout script; the constructor does not read the
    proof identifier it is given. *)
Theorem current_commitment_depends_on_expiration_and_master (p1 p2 : Proof) :
  useLegacy gArgs = false ->
  expirationTime p1 = expirationTime p2 ->
  master p1 = master p2 ->
  getStakeCommitment gArgs p1 = getStakeCommitment gArgs p2
  /\ getStakeCommitment gArgs p1
     = GetHash (ser_i64 (expirationTime p1) ++ ser_pubkey (master p1))
  /\ (forall proofid1 proofid2 : uint256,
        StakeCommitment gArgs proofid1 (expirationTime p1) (master p1)
        = StakeCommitment gArgs proofid2 (expirationTime p2) (master p2)).
Proof.
  intros Hcur Hexp Hm. unfold getStakeCommitment, StakeCommitment.
  rewrite Hcur, Hexp, Hm. repeat split; reflexivity.
Qed.


End Identity.

(* ===================================================================== *)
(** ** The structural verifier *)
(* ===================================================================== *)

Section Structural.

Context {collab : Collaborators}.
Variable gArgs : ArgsManager.

Lemma GetHash_nonneg (ss : CHashWriter) : 0 <= GetHash ss.
Proof. unfold GetHash, to_u256. apply Z.mod_pos_bound. lia. Qed.

Lemma getId_nonneg (s : Stake) : 0 <= getId s.
Proof. apply GetHash_nonneg. Qed.

Lemma first_failure_app (cs1 cs2 : list check) :
  first_failure (cs1 ++ cs2)
  = match first_failure cs1 with
    | Valid => if forallb (fun c => negb (fst c)) cs1
               then first_failure cs2 else Valid
    | st => st
    end.
Proof.
  induction cs1 as [|[failed st] cs1 IH]; simpl; [reflexivity|].
  destruct failed; simpl; [now destruct st|exact IH].
Qed.

Lemma first_failure_valid (cs : list check) :
  Forall (fun c => snd c <> Valid) cs ->
  first_failure cs = Valid <-> Forall (fun c => fst c = false) cs.
Proof.
  induction 1 as [|[failed st] cs Hst _ IH]; simpl.
  - split; [constructor|reflexivity].
  - destruct failed; simpl in *.
    + split; [congruence|]. intros Hall. inversion Hall; simpl in *; congruence.
    + rewrite IH. split; [now constructor|]. intros Hall. now inversion Hall.
Qed.

Lemma prev_stakeid_snoc (pre : list SignedStake) (ss : SignedStake) :
  prev_stakeid (pre ++ [ss]) = getId (stake ss).
Proof. unfold prev_stakeid. rewrite map_app. simpl. now rewrite last_snoc. Qed.

Lemma seen_utxos_snoc (pre : list SignedStake) (ss : SignedStake) :
  (list_to_set (seen_utxos (pre ++ [ss])) : gset COutPoint)
  = {[utxo (stake ss)]} ∪ list_to_set (seen_utxos pre).
Proof.
  unfold seen_utxos. rewrite map_app, list_to_set_app_L. simpl.
  rewrite (right_id_L ∅ (∪)). apply (comm_L (∪)).
Qed.

(** The loop, started in the state the accepted stakes [pre] leave behind,
    reports the first failing check of the remaining stakes. *)
Lemma verify_stakes_first_failure (dust : Amount) (c : uint256)
    (l pre : list SignedStake) :
  verify_stakes dust c (prev_stakeid pre) (list_to_set (seen_utxos pre)) l
  = first_failure (all_stake_checks dust c pre l).
Proof.
  revert pre. induction l as [|ss l IH]; intros pre; [reflexivity|].
  cbn [verify_stakes all_stake_checks stake_checks app first_failure].
  unfold getStake, getAmount, getUTXO.
  destruct (amount (stake ss) <? dust); [reflexivity|].
  destruct (getId (stake ss) <? prev_stakeid pre); [reflexivity|].
  rewrite <- IH, prev_stakeid_snoc, seen_utxos_snoc.
  destruct (decide (utxo (stake ss) ∈ (list_to_set (seen_utxos pre) : gset _)))
    as [Hin|Hin].
  - rewrite bool_decide_eq_true_2; [reflexivity|]. now apply elem_of_list_to_set in Hin.
  - rewrite bool_decide_eq_false_2; [|now rewrite elem_of_list_to_set in Hin].
    reflexivity.
Qed.

Lemma verify_is_first_failure (dust : Amount) (p : Proof) :
  verify gArgs dust p = first_failure (structural_checks gArgs dust p).
Proof.
  unfold verify, structural_checks, preliminary_checks, verify_current_format.
  cbn [app first_failure].
  destruct (bool_decide (stakes p = [])); [reflexivity|].
  destruct (Z.of_nat (length (stakes p)) >? AVALANCHE_MAX_PROOF_STAKES);
    [reflexivity|].
  pose proof (verify_stakes_first_failure dust (getStakeCommitment gArgs p)
                (stakes p) []) as Hloop.
  destruct (useLegacy gArgs); cbn [negb app first_failure]; [exact Hloop|].
  destruct (IsStandard (payoutScriptPubKey p)); cbn [negb]; [|reflexivity].
  destruct (VerifySchnorr (master p) (getLimitedId gArgs p) (signature p));
    cbn [negb]; [exact Hloop|reflexivity].
Qed.

Lemma structural_checks_all_invalid (dust : Amount) (p : Proof) :
  Forall (fun c => snd c <> Valid) (structural_checks gArgs dust p).
Proof.
  unfold structural_checks, preliminary_checks. rewrite !Forall_app.
  split; [split|].
  - repeat constructor; discriminate.
  - destruct (useLegacy gArgs); repeat constructor; discriminate.
  - generalize (@nil SignedStake) as pre.
    induction (stakes p) as [|ss l IH]; intros pre; simpl; [constructor|].
    repeat (constructor; [discriminate|]). apply IH.
Qed.

(** C6. The structural verifier is fail-fast in the order of the spec's
    section 4.3: its outcome is that of the first failing check of the list
    no stake, too many stakes, then in current mode payout script and proof
    signature, then for each stake in list order dust threshold, ordering,
    outpoint uniqueness and stake signature; it accepts exactly when no check
    of the list fails. *)
Theorem verify_fail_fast_in_spec_order (dust : Amount) (p : Proof) :
  verify gArgs dust p = first_failure (structural_checks gArgs dust p)
  /\ (verify gArgs dust p = Valid
      <-> Forall (fun c => fst c = false) (structural_checks gArgs dust p)).
Proof.
  split; [apply verify_is_first_failure|].
  rewrite verify_is_first_failure.
  apply first_failure_valid, structural_checks_all_invalid.
Qed.

Lemma default_last_cons {A} (d x : A) (l : list A) :
  default d (last (x :: l)) = default x (last l).
Proof. rewrite last_cons. now destruct (last l). Qed.

(** Running the loop over [l1 ++ l2]: over [l1], then, when [l1] is
    accepted, over [l2] from the state [l1] leaves behind. *)
Lemma verify_stakes_app (dust : Amount) (c : uint256) (l1 l2 : list SignedStake) :
  forall (prevId : uint256) (utxos : gset COutPoint),
  verify_stakes dust c prevId utxos (l1 ++ l2)
  = match verify_stakes dust c prevId utxos l1 with
    | Valid =>
      verify_stakes dust c
        (default prevId (last (map (fun s => getId (stake s)) l1)))
        (list_to_set (seen_utxos l1) ∪ utxos) l2
    | st => st
    end.
Proof.
  induction l1 as [|ss l1 IH]; intros prevId utxos.
  - simpl. now rewrite (left_id_L ∅ (∪)).
  - cbn [app verify_stakes]. unfold getStake, getAmount, getUTXO.
    destruct (amount (stake ss) <? dust); [reflexivity|].
    destruct (getId (stake ss) <? prevId); [reflexivity|].
    destruct (decide (utxo (stake ss) ∈ utxos)); [reflexivity|].
    destruct (SignedStake_verify ss c); cbn [negb]; [|reflexivity].
    rewrite IH. cbn [map seen_utxos list_to_set]. rewrite default_last_cons.
    fold (seen_utxos l1).
    replace (list_to_set (seen_utxos l1) ∪ ({[utxo (stake ss)]} ∪ utxos))
      with ({[utxo (stake ss)]} ∪ list_to_set (seen_utxos l1) ∪ utxos);
      [reflexivity|].
    rewrite (comm_L (∪) {[utxo (stake ss)]}). now rewrite (assoc_L (∪)).
Qed.

(** When the loop reports a wrong ordering, it does so at a stake that meets
    the dust threshold, after a prefix it accepted, and that stake's
    identifier is below the [prevId] the prefix left. *)
Lemma verify_stakes_wrong_ordering_inv (dust : Amount) (c : uint256)
    (l : list SignedStake) :
  forall (prevId : uint256) (utxos : gset COutPoint),
  GetResult (verify_stakes dust c prevId utxos l) = WRONG_STAKE_ORDERING ->
  exists l1 cur l2,
    l = l1 ++ cur :: l2
    /\ verify_stakes dust c prevId utxos l1 = Valid
    /\ dust <= amount (stake cur)
    /\ getId (stake cur)
       < default prevId (last (map (fun s => getId (stake s)) l1)).
Proof.
  induction l as [|ss l IH]; intros prevId utxos; [discriminate|].
  cbn [verify_stakes]. unfold getStake, getAmount, getUTXO.
  destruct (amount (stake ss) <? dust) eqn:Hdust; [discriminate|].
  destruct (getId (stake ss) <? prevId) eqn:Hord.
  - intros _. exists [], ss, l. simpl. repeat split; lia.
  - destruct (decide (utxo (stake ss) ∈ utxos)) as [Hin|Hin]; [discriminate|].
    destruct (SignedStake_verify ss c) eqn:Hsig; cbn [negb]; [|discriminate].
    intros Hres. apply IH in Hres as (l1 & cur & l2 & -> & Hl1 & Hd & Hlt).
    exists (ss :: l1), cur, l2. repeat split; [| exact Hd |].
    + cbn [verify_stakes]. unfold getStake, getAmount, getUTXO.
      rewrite Hdust, Hord, Hsig. cbn [negb].
      destruct (decide (utxo (stake ss) ∈ utxos)); [contradiction|exact Hl1].
    + cbn [map]. now rewrite default_last_cons.
Qed.

(** Past the checks on the stake count and, in current mode, on the payout
    script and the proof signature, the verifier is its loop. *)
Lemma verify_past_preliminaries (dust : Amount) (p : Proof) :
  stakes p <> [] ->
  Z.of_nat (length (stakes p)) <= AVALANCHE_MAX_PROOF_STAKES ->
  verify_current_format gArgs p = None ->
  verify gArgs dust p
  = verify_stakes dust (getStakeCommitment gArgs p) uint256_ZERO ∅ (stakes p).
Proof.
  intros Hne Hmax Hfmt. unfold verify.
  rewrite bool_decide_eq_false_2 by exact Hne.
  replace (Z.of_nat (length (stakes p)) >? AVALANCHE_MAX_PROOF_STAKES)
    with false by (symmetry; rewrite Z.gtb_ltb; apply Z.ltb_ge; lia).
  now rewrite Hfmt.
Qed.

Lemma verify_wrong_ordering_iff (dust : Amount) (p : Proof) :
  GetResult (verify gArgs dust p) = WRONG_STAKE_ORDERING
  <-> exists pre prev cur post,
        stakes p = pre ++ prev :: cur :: post
        /\ Z.of_nat (length (stakes p)) <= AVALANCHE_MAX_PROOF_STAKES
        /\ verify_current_format gArgs p = None
        /\ verify_stakes dust (getStakeCommitment gArgs p) uint256_ZERO ∅
                         (pre ++ [prev]) = Valid
        /\ dust <= amount (stake cur)
        /\ getId (stake cur) < getId (stake prev).
Proof.
  split.
  - unfold verify.
    destruct (bool_decide (stakes p = [])); [discriminate|].
    destruct (Z.of_nat (length (stakes p)) >? AVALANCHE_MAX_PROOF_STAKES)
      eqn:Hmax; [discriminate|].
    rewrite Z.gtb_ltb in Hmax. apply Z.ltb_ge in Hmax.
    destruct (verify_current_format gArgs p) as [st|] eqn:Hfmt.
    + unfold verify_current_format in Hfmt.
      destruct (negb (useLegacy gArgs)); [|discriminate].
      destruct (negb (IsStandard _)); [injection Hfmt as <-; discriminate|].
      destruct (negb (VerifySchnorr _ _ _)); [injection Hfmt as <-|]; discriminate.
    + intros Hres.
      apply verify_stakes_wrong_ordering_inv in Hres
        as (l1 & cur & l2 & Hl & Hl1 & Hd & Hlt).
      destruct l1 as [|x l1] using rev_ind.
      * simpl in Hlt. pose proof (getId_nonneg (stake cur)).
        unfold uint256_ZERO in Hlt. lia.
      * rewrite map_app in Hlt. simpl in Hlt. rewrite last_snoc in Hlt.
        exists l1, x, cur, l2. rewrite <- app_assoc in Hl. now repeat split.
  - intros (pre & prev & cur & post & Hl & Hmax & Hfmt & Hpre & Hd & Hlt).
    rewrite verify_past_preliminaries; [| rewrite Hl; now destruct pre | exact Hmax | exact Hfmt].
    replace (stakes p) with ((pre ++ [prev]) ++ cur :: post)
      by (now rewrite Hl, <- app_assoc).
    rewrite verify_stakes_app, Hpre. cbn [verify_stakes].
    unfold getStake, getAmount.
    replace (amount (stake cur) <? dust) with false
      by (symmetry; apply Z.ltb_ge; lia).
    rewrite map_app. simpl. rewrite last_snoc. simpl.
    replace (getId (stake cur) <? getId (stake prev)) with true
      by (symmetry; apply Z.ltb_lt; lia).
    reflexivity.
Qed.

Lemma verify_duplicate_outpoint (dust : Amount) (p : Proof)
    (pre : list SignedStake) (cur : SignedStake) (post : list SignedStake) :
  stakes p = pre ++ cur :: post ->
  Z.of_nat (length (stakes p)) <= AVALANCHE_MAX_PROOF_STAKES ->
  verify_current_format gArgs p = None ->
  verify_stakes dust (getStakeCommitment gArgs p) uint256_ZERO ∅ pre = Valid ->
  dust <= amount (stake cur) ->
  prev_stakeid pre <= getId (stake cur) ->
  utxo (stake cur) ∈ seen_utxos pre ->
  verify gArgs dust p = Invalid DUPLICATE_STAKE "duplicated-stake".
Proof.
  intros Hl Hmax Hfmt Hpre Hd Hord Hdup.
  rewrite verify_past_preliminaries; [| rewrite Hl; now destruct pre | exact Hmax | exact Hfmt].
  rewrite Hl, verify_stakes_app, Hpre. cbn [verify_stakes].
  unfold getStake, getAmount, getUTXO.
  replace (amount (stake cur) <? dust) with false
    by (symmetry; apply Z.ltb_ge; lia).
  fold (prev_stakeid pre).
  replace (getId (stake cur) <? prev_stakeid pre) with false
    by (symmetry; apply Z.ltb_ge; lia).
  destruct (decide (utxo (stake cur) ∈ list_to_set (seen_utxos pre) ∪ (∅ : gset _)))
    as [Hin|Hin]; [reflexivity|].
  exfalso. apply Hin, elem_of_union_l, elem_of_list_to_set, Hdup.
Qed.

(** C5, as the code has it. The verifier reports a wrong stake ordering
    exactly when some stake's identifier, compared as an unsigned 256-bit
    integer, is strictly below that of the stake just before it and no check
    fails earlier: the stake count, payout script and proof signature checks
    pass, every stake up to the preceding one passes its four checks, and the
    stake itself meets the dust threshold. Identifiers that never decrease,
    equal neighbours included, never give that reason. A stake whose outpoint
    an earlier stake already has is rejected as a duplicate when no check
    fails before the uniqueness check. *)
Theorem wrong_ordering_iff_first_failure_is_inversion (dust : Amount) (p : Proof) :
  (GetResult (verify gArgs dust p) = WRONG_STAKE_ORDERING
   <-> exists pre prev cur post,
         stakes p = pre ++ prev :: cur :: post
         /\ Z.of_nat (length (stakes p)) <= AVALANCHE_MAX_PROOF_STAKES
         /\ verify_current_format gArgs p = None
         /\ verify_stakes dust (getStakeCommitment gArgs p) uint256_ZERO ∅
                          (pre ++ [prev]) = Valid
         /\ dust <= amount (stake cur)
         /\ getId (stake cur) < getId (stake prev))
  /\ ((forall pre prev cur post,
         stakes p = pre ++ prev :: cur :: post ->
         getId (stake prev) <= getId (stake cur)) ->
      GetResult (verify gArgs dust p) <> WRONG_STAKE_ORDERING)
  /\ (forall pre cur post,
        stakes p = pre ++ cur :: post ->
        Z.of_nat (length (stakes p)) <= AVALANCHE_MAX_PROOF_STAKES ->
        verify_current_format gArgs p = None ->
        verify_stakes dust (getStakeCommitment gArgs p) uint256_ZERO ∅ pre
        = Valid ->
        dust <= amount (stake cur) ->
        prev_stakeid pre <= getId (stake cur) ->
        utxo (stake cur) ∈ seen_utxos pre ->
        verify gArgs dust p = Invalid DUPLICATE_STAKE "duplicated-stake").
Proof.
  split; [apply verify_wrong_ordering_iff|split].
  - intros Hsorted Hres. apply verify_wrong_ordering_iff in Hres
      as (pre & prev & cur & post & Hl & _ & _ & _ & _ & Hlt).
    specialize (Hsorted _ _ _ _ Hl). lia.
  - intros pre cur post. apply verify_duplicate_outpoint.
Qed.

(** C10. In legacy mode two proofs that differ only in their payout script
    and proof signature have the same limited identifier and the same proof
    identifier, and the structural verifier gives the same outcome on both. *)
Theorem legacy_ignores_payout_script_and_signature (dust : Amount) (p1 p2 : Proof) :
  useLegacy gArgs = true ->
  sequence p1 = sequence p2 ->
  expirationTime p1 = expirationTime p2 ->
  master p1 = master p2 ->
  stakes p1 = stakes p2 ->
  getLimitedId gArgs p1 = getLimitedId gArgs p2
  /\ getProofId gArgs p1 = getProofId gArgs p2
  /\ verify gArgs dust p1 = verify gArgs dust p2.
Proof.
  intros Hleg Hseq Hexp Hm Hst.
  assert (Hids : computeProofId gArgs p1 = computeProofId gArgs p2).
  { unfold computeProofId. rewrite Hleg, Hseq, Hexp, Hm, Hst. reflexivity. }
  unfold getLimitedId, getProofId. rewrite Hids. repeat split.
  unfold verify, verify_current_format, getStakeCommitment, getProofId.
  rewrite Hleg, Hids, Hexp, Hm, Hst. reflexivity.
Qed.

End Structural.

(* ===================================================================== *)
(** ** The chain-context verifier *)
(* ===================================================================== *)

Section Chain.

Context {collab : Collaborators}.
Variable gArgs : ArgsManager.

Local Abbreviation minConfs := (stakeUtxoMinConfirmations gArgs).

(** The loop over the stakes never gives the reason [EXPIRED]. *)
Lemma verify_stakes_chain_not_expired (chainman : ChainstateManager)
    (activeHeight confs : Z) (l : list SignedStake) :
  GetResult (verify_stakes_chain chainman activeHeight confs l) <> EXPIRED.
Proof.
  induction l as [|ss l IH]; simpl; [discriminate|].
  destruct (verify_stake_chain chainman activeHeight confs ss) as [st|] eqn:Hst;
    [|exact IH].
  unfold verify_stake_chain in Hst.
  repeat match type of Hst with
         | match ?x with _ => _ end = _ => destruct x
         | (if ?b then _ else _) = _ => destruct b
         end;
    try discriminate; injection Hst as <-; discriminate.
Qed.

(** Stakes that pass every chain check are stepped over. *)
Lemma verify_stakes_chain_app (chainman : ChainstateManager)
    (activeHeight confs : Z) (pre l : list SignedStake) :
  Forall (fun x => verify_stake_chain chainman activeHeight confs x = None) pre ->
  verify_stakes_chain chainman activeHeight confs (pre ++ l)
  = verify_stakes_chain chainman activeHeight confs l.
Proof.
  induction 1 as [|x pre Hx _ IH]; simpl; [reflexivity|]. now rewrite Hx.
Qed.

(** A proof that is structurally valid and not expired: the outcome is that
    of the first stake the loop does not step over. *)
Lemma verify_chain_at (dust : Amount) (chainman : ChainstateManager) (p : Proof)
    (pre : list SignedStake) (ss : SignedStake) (post : list SignedStake) :
  verify gArgs dust p = Valid ->
  ~ (expirationTime p > 0 /\ tipMedianTimePast chainman >= expirationTime p) ->
  stakes p = pre ++ ss :: post ->
  Forall (fun x => verify_stake_chain chainman (ActiveHeight chainman)
                                      minConfs x = None) pre ->
  verify_chain gArgs dust chainman p
  = match verify_stake_chain chainman (ActiveHeight chainman) minConfs ss with
    | Some st => st
    | None => verify_stakes_chain chainman (ActiveHeight chainman) minConfs post
    end.
Proof.
  intros Hok Hexp Hl Hpre. unfold verify_chain. rewrite Hok.
  replace ((expirationTime p >? 0)
           && (tipMedianTimePast chainman >=? expirationTime p)) with false.
  - rewrite Hl, verify_stakes_chain_app by exact Hpre. reflexivity.
  - symmetry. apply not_true_is_false. intros Hb. apply Hexp.
    apply andb_true_iff in Hb as [H1 H2]. rewrite Z.gtb_ltb in H1.
    apply Z.ltb_lt in H1. rewrite Z.geb_leb in H2. apply Z.leb_le in H2. lia.
Qed.

(** The maturity test of the loop body, on a stake whose coin is found and
    without 64-bit overflow: it reads the height the stake declares. *)
Lemma maturity_test_reads_declared_height (chainman : ChainstateManager)
    (ss : SignedStake) (coin : Coin) :
  GetCoin chainman (utxo (stake ss)) = Some coin ->
  in_i64 (height (stake ss) + minConfs) ->
  in_i64 (height (stake ss) + minConfs - 1) ->
  (height (stake ss) + minConfs - 1 > ActiveHeight chainman ->
   verify_stake_chain chainman (ActiveHeight chainman) minConfs ss
   = Some (Invalid IMMATURE_UTXO "immature-utxo"))
  /\ (~ height (stake ss) + minConfs - 1 > ActiveHeight chainman ->
      verify_stake_chain chainman (ActiveHeight chainman) minConfs ss
      <> Some (Invalid IMMATURE_UTXO "immature-utxo")
      /\ forall st,
         verify_stake_chain chainman (ActiveHeight chainman) minConfs ss = Some st ->
         GetResult st <> IMMATURE_UTXO).
Proof.
  intros Hcoin H1 H2. unfold verify_stake_chain, getStake, getUTXO, getHeight.
  rewrite Hcoin, (wrap_i64_id _ H1), (wrap_i64_id _ H2). split; intros Hcmp.
  - replace (_ >? _) with true; [reflexivity|].
    symmetry. rewrite Z.gtb_ltb. apply Z.ltb_lt. lia.
  - replace (_ >? _) with false
      by (symmetry; rewrite Z.gtb_ltb; apply Z.ltb_ge; lia).
    assert (Hall : forall st,
      (if negb (eqb (isCoinbase (stake ss)) (IsCoinBase coin))
       then Some (Invalid COINBASE_MISMATCH "coinbase-mismatch")
       else if negb (height (stake ss) =? GetHeight coin)
       then Some (Invalid HEIGHT_MISMATCH "height-mismatch")
       else if negb (getAmount (stake ss) =? nValue coin)
       then Some (Invalid AMOUNT_MISMATCH "amount-mismatch")
       else match ExtractDestination (scriptPubKey coin) with
            | Some CNoDestination =>
              Some (Invalid DESTINATION_NOT_SUPPORTED "destination-type-not-supported")
            | Some (PKHash pkhash) =>
              if negb (pkhash =? Hash160 (getPubkey (stake ss)))
              then Some (Invalid DESTINATION_MISMATCH "destination-mismatch")
              else None
            | Some (ScriptHash _) =>
              Some (Invalid DESTINATION_NOT_SUPPORTED "destination-type-not-supported")
            | None => Some (Invalid NON_STANDARD_DESTINATION "non-standard-destination")
            end) = Some st -> GetResult st <> IMMATURE_UTXO).
    { intros st Hst.
      repeat match type of Hst with
             | match ?x with _ => _ end = _ => destruct x
             | (if ?b then _ else _) = _ => destruct b
             end;
        try discriminate; injection Hst as <-; discriminate. }
    split; [|exact Hall]. intros Hst. apply Hall in Hst. now apply Hst.
Qed.

(** C3. For a structurally valid proof the chain-context verifier gives
    [EXPIRED] exactly when the expiration time is positive and the median
    time past of the active tip, 0 without a tip, has reached it; a tip whose
    median time past equals a positive expiration time gives [EXPIRED];
    without a tip no proof is expired; and an expired proof is reported
    [EXPIRED] whatever the UTXO set holds, the test coming before every coin
    lookup. *)
Theorem expired_iff_median_time_past_reached (dust : Amount)
    (chainman : ChainstateManager) (p : Proof) :
  verify gArgs dust p = Valid ->
  (GetResult (verify_chain gArgs dust chainman p) = EXPIRED
   <-> expirationTime p > 0
       /\ match ActiveTip chainman with
          | Some activeTip => GetMedianTimePast activeTip
          | None => 0
          end >= expirationTime p)
  /\ (forall activeTip : CBlockIndex,
        ActiveTip chainman = Some activeTip ->
        expirationTime p > 0 ->
        GetMedianTimePast activeTip = expirationTime p ->
        verify_chain gArgs dust chainman p = Invalid EXPIRED "expired-proof")
  /\ (ActiveTip chainman = None ->
      GetResult (verify_chain gArgs dust chainman p) <> EXPIRED)
  /\ (expirationTime p > 0 ->
      match ActiveTip chainman with
      | Some activeTip => GetMedianTimePast activeTip
      | None => 0
      end >= expirationTime p ->
      forall coins : gmap COutPoint Coin,
        verify_chain gArgs dust
          (mkChainman (ActiveTip chainman) (ActiveHeight chainman) coins) p
        = Invalid EXPIRED "expired-proof").
Proof.
  intros Hok.
  assert (Hyes : forall c : ChainstateManager,
            expirationTime p > 0 ->
            match ActiveTip c with
            | Some activeTip => GetMedianTimePast activeTip
            | None => 0
            end >= expirationTime p ->
            verify_chain gArgs dust c p = Invalid EXPIRED "expired-proof").
  { intros c H1 H2. unfold verify_chain, tipMedianTimePast. rewrite Hok.
    replace (expirationTime p >? 0) with true
      by (symmetry; rewrite Z.gtb_ltb; apply Z.ltb_lt; lia).
    replace (_ >=? expirationTime p) with true
      by (symmetry; rewrite Z.geb_leb; apply Z.leb_le; lia).
    reflexivity. }
  assert (Hiff : GetResult (verify_chain gArgs dust chainman p) = EXPIRED
                 <-> expirationTime p > 0
                     /\ match ActiveTip chainman with
                        | Some activeTip => GetMedianTimePast activeTip
                        | None => 0
                        end >= expirationTime p).
  { split.
    - intros Hres. unfold verify_chain, tipMedianTimePast in Hres.
      rewrite Hok in Hres.
      destruct (expirationTime p >? 0) eqn:H1;
        destruct (_ >=? expirationTime p) eqn:H2 in Hres;
        cbn [andb] in Hres;
        try (now apply verify_stakes_chain_not_expired in Hres).
      rewrite Z.gtb_ltb in H1. apply Z.ltb_lt in H1.
      rewrite Z.geb_leb in H2. apply Z.leb_le in H2. lia.
    - intros [H1 H2]. now rewrite Hyes. }
  split; [exact Hiff|split; [|split]].
  - intros activeTip Htip H1 H2. apply Hyes; [exact H1|]. rewrite Htip. lia.
  - intros Htip Hres. apply Hiff in Hres as [H1 H2]. rewrite Htip in H2. lia.
  - intros H1 H2 coins. apply Hyes; [exact H1|exact H2].
Qed.

(** Past the maturity test the loop body compares the coinbase flags, then
    the heights. *)
Lemma cross_checks_follow_maturity (chainman : ChainstateManager)
    (ss : SignedStake) (coin : Coin) :
  GetCoin chainman (utxo (stake ss)) = Some coin ->
  in_i64 (height (stake ss) + minConfs) ->
  in_i64 (height (stake ss) + minConfs - 1) ->
  ~ height (stake ss) + minConfs - 1 > ActiveHeight chainman ->
  (coinbase (stake ss) <> fCoinBase coin ->
   verify_stake_chain chainman (ActiveHeight chainman) minConfs ss
   = Some (Invalid COINBASE_MISMATCH "coinbase-mismatch"))
  /\ (coinbase (stake ss) = fCoinBase coin ->
      height (stake ss) <> nHeight coin ->
      verify_stake_chain chainman (ActiveHeight chainman) minConfs ss
      = Some (Invalid HEIGHT_MISMATCH "height-mismatch")).
Proof.
  intros Hcoin H1 H2 Hcmp.
  unfold verify_stake_chain, getStake, getUTXO, getHeight, isCoinbase,
    IsCoinBase, GetHeight.
  rewrite Hcoin, (wrap_i64_id _ H1), (wrap_i64_id _ H2).
  replace (_ >? _) with false
    by (symmetry; rewrite Z.gtb_ltb; apply Z.ltb_ge; lia).
  split.
  - intros Hcb. destruct (coinbase (stake ss)), (fCoinBase coin);
      simpl; congruence.
  - intros Hcb Hh. rewrite Hcb, eqb_reflx. cbn [negb].
    replace (height (stake ss) =? nHeight coin) with false
      by (symmetry; apply Z.eqb_neq; exact Hh).
    reflexivity.
Qed.

(** C1, as the code has it. For a structurally valid, unexpired proof and
    the stake the loop has reached, its coin found and no 64-bit overflow in
    the sum: the maturity check fails, and the verifier reports
    [IMMATURE_UTXO], exactly when the height the stake declares plus the
    minimum confirmations minus 1 exceeds the active height; the check comes
    before the coinbase, height and amount comparisons, whatever the coin
    holds; and when the declared height is the coin's height, the test is the
    one on the coin's height. *)
Theorem immature_iff_declared_height_lacks_confirmations (dust : Amount)
    (chainman : ChainstateManager) (p : Proof)
    (pre : list SignedStake) (ss : SignedStake) (post : list SignedStake)
    (coin : Coin) :
  verify gArgs dust p = Valid ->
  ~ (expirationTime p > 0 /\ tipMedianTimePast chainman >= expirationTime p) ->
  stakes p = pre ++ ss :: post ->
  Forall (fun x => verify_stake_chain chainman (ActiveHeight chainman)
                                      minConfs x = None) pre ->
  GetCoin chainman (utxo (stake ss)) = Some coin ->
  in_i64 (height (stake ss) + minConfs) ->
  in_i64 (height (stake ss) + minConfs - 1) ->
  (verify_stake_chain chainman (ActiveHeight chainman) minConfs ss
   = Some (Invalid IMMATURE_UTXO "immature-utxo")
   <-> height (stake ss) + minConfs - 1 > ActiveHeight chainman)
  /\ (GetResult (verify_chain gArgs dust chainman p) = IMMATURE_UTXO
      <-> height (stake ss) + minConfs - 1 > ActiveHeight chainman
          \/ (verify_stake_chain chainman (ActiveHeight chainman) minConfs ss
              = None
              /\ GetResult (verify_stakes_chain chainman (ActiveHeight chainman)
                                                minConfs post)
                 = IMMATURE_UTXO))
  /\ (height (stake ss) + minConfs - 1 > ActiveHeight chainman ->
      verify_chain gArgs dust chainman p
      = Invalid IMMATURE_UTXO "immature-utxo")
  /\ (height (stake ss) = nHeight coin ->
      (verify_stake_chain chainman (ActiveHeight chainman) minConfs ss
       = Some (Invalid IMMATURE_UTXO "immature-utxo")
       <-> nHeight coin + minConfs - 1 > ActiveHeight chainman)).
Proof.
  intros Hok Hexp Hl Hpre Hcoin H1 H2.
  destruct (maturity_test_reads_declared_height chainman ss coin Hcoin H1 H2)
    as [Hyes Hno].
  pose proof (verify_chain_at dust chainman p pre ss post Hok Hexp Hl Hpre)
    as Hat.
  assert (Hbody :
    verify_stake_chain chainman (ActiveHeight chainman) minConfs ss
    = Some (Invalid IMMATURE_UTXO "immature-utxo")
    <-> height (stake ss) + minConfs - 1 > ActiveHeight chainman).
  { split; [|exact Hyes]. intros Hst.
    destruct (Z_gt_dec (height (stake ss) + minConfs - 1) (ActiveHeight chainman))
      as [Hgt|Hle]; [exact Hgt|].
    now destruct (Hno Hle) as [Hne _]. }
  split; [exact Hbody|split; [|split]].
  - rewrite Hat. split.
    + intros Hres.
      destruct (Z_gt_dec (height (stake ss) + minConfs - 1) (ActiveHeight chainman))
        as [Hgt|Hle]; [now left|]. right.
      destruct (Hno Hle) as [_ Hother].
      destruct (verify_stake_chain chainman (ActiveHeight chainman) minConfs ss)
        as [st|]; [|now split].
      now destruct (Hother st eq_refl).
    + intros [Hgt|[Hnone Hres]].
      * now rewrite (Hyes Hgt).
      * now rewrite Hnone.
  - intros Hgt. now rewrite Hat, (Hyes Hgt).
  - intros Hh. now rewrite <- Hh.
Qed.

(** C9, as the code has it. The maturity comparison reads the height the
    stake declares, not the coin's, and comes before the coinbase flags and
    then the heights are compared. For a structurally valid, unexpired proof
    and the stake the loop has reached, its coin found, its declared height
    other than the coin's and no 64-bit overflow in the sum: the verifier
    reports [IMMATURE_UTXO] when the declared height plus the minimum
    confirmations minus 1 exceeds the active height; otherwise it reports
    [COINBASE_MISMATCH] when the coinbase flag of the stake is not the
    coin's, and [HEIGHT_MISMATCH] when the flags agree. *)
Theorem declared_height_decides_immature_or_height_mismatch (dust : Amount)
    (chainman : ChainstateManager) (p : Proof)
    (pre : list SignedStake) (ss : SignedStake) (post : list SignedStake)
    (coin : Coin) :
  verify gArgs dust p = Valid ->
  ~ (expirationTime p > 0 /\ tipMedianTimePast chainman >= expirationTime p) ->
  stakes p = pre ++ ss :: post ->
  Forall (fun x => verify_stake_chain chainman (ActiveHeight chainman)
                                      minConfs x = None) pre ->
  GetCoin chainman (utxo (stake ss)) = Some coin ->
  in_i64 (height (stake ss) + minConfs) ->
  in_i64 (height (stake ss) + minConfs - 1) ->
  height (stake ss) <> nHeight coin ->
  (height (stake ss) + minConfs - 1 > ActiveHeight chainman ->
   verify_chain gArgs dust chainman p = Invalid IMMATURE_UTXO "immature-utxo")
  /\ (~ height (stake ss) + minConfs - 1 > ActiveHeight chainman ->
      (coinbase (stake ss) = fCoinBase coin ->
       verify_chain gArgs dust chainman p
       = Invalid HEIGHT_MISMATCH "height-mismatch")
      /\ (coinbase (stake ss) <> fCoinBase coin ->
          verify_chain gArgs dust chainman p
          = Invalid COINBASE_MISMATCH "coinbase-mismatch")
      /\ GetResult (verify_chain gArgs dust chainman p) <> IMMATURE_UTXO).
Proof.
  intros Hok Hexp Hl Hpre Hcoin H1 H2 Hh.
  pose proof (verify_chain_at dust chainman p pre ss post Hok Hexp Hl Hpre)
    as Hat.
  split.
  - intros Hgt.
    destruct (maturity_test_reads_declared_height chainman ss coin Hcoin H1 H2)
      as [Hyes _].
    now rewrite Hat, (Hyes Hgt).
  - intros Hle.
    destruct (cross_checks_follow_maturity chainman ss coin Hcoin H1 H2 Hle)
      as [Hcb Hhm].
    assert (Hsame : coinbase (stake ss) = fCoinBase coin ->
                    verify_chain gArgs dust chainman p
                    = Invalid HEIGHT_MISMATCH "height-mismatch").
    { intros Heq. now rewrite Hat, (Hhm Heq Hh). }
    assert (Hdiff : coinbase (stake ss) <> fCoinBase coin ->
                    verify_chain gArgs dust chainman p
                    = Invalid COINBASE_MISMATCH "coinbase-mismatch").
    { intros Hne. now rewrite Hat, (Hcb Hne). }
    split; [exact Hsame|split; [exact Hdiff|]].
    destruct (bool_decide (coinbase (stake ss) = fCoinBase coin)) eqn:Hd.
    + apply bool_decide_eq_true in Hd. now rewrite (Hsame Hd).
    + apply bool_decide_eq_false in Hd. now rewrite (Hdiff Hd).
Qed.

End Chain.

(* ===================================================================== *)
(** ** The codec: decoding inverts encoding *)
(* ===================================================================== *)

Lemma Z_of_byte_range (b : byte) : 0 <= Z_of_byte b < 256.
Proof. unfold Z_of_byte. pose proof (Byte.to_N_bounded b). lia. Qed.

Lemma Z_of_byte_of_Z (z : Z) : Z_of_byte (byte_of_Z z) = z mod 256.
Proof.
  unfold byte_of_Z, Z_of_byte.
  pose proof (Z.mod_pos_bound z 256 ltac:(lia)) as Hr.
  destruct (Byte.of_N (Z.to_N (z mod 256))) as [b|] eqn:Hb.
  - apply Byte.to_of_N in Hb. rewrite Hb. lia.
  - apply Byte.of_N_None_iff in Hb. lia.
Qed.

Lemma byte_of_Z_of_byte (b : byte) : byte_of_Z (Z_of_byte b) = b.
Proof.
  unfold byte_of_Z. rewrite Z.mod_small by apply Z_of_byte_range.
  unfold Z_of_byte. now rewrite N2Z.id, Byte.of_to_N.
Qed.

Lemma byte_of_Z_congr (a b : Z) :
  a mod 256 = b mod 256 -> byte_of_Z a = byte_of_Z b.
Proof. unfold byte_of_Z. now intros ->. Qed.

Lemma length_ser_le (n : nat) (v : Z) : length (ser_le n v) = n.
Proof. revert v. induction n as [|n IH]; intros v; simpl; [|rewrite IH]; reflexivity. Qed.

Lemma de_le_ser_le (n : nat) (v : Z) :
  de_le (ser_le n v) = v mod 2 ^ (8 * Z.of_nat n).
Proof.
  revert v. induction n as [|n IH]; intros v.
  - simpl. now rewrite Z.mod_1_r.
  - cbn [ser_le de_le]. rewrite Z_of_byte_of_Z, IH.
    replace (8 * Z.of_nat (S n)) with (8 + 8 * Z.of_nat n) by lia.
    rewrite Z.pow_add_r by lia. change (2 ^ 8) with 256.
    rewrite Z.rem_mul_r by lia. reflexivity.
Qed.

Lemma reads_ret {A} (x : A) : reads (ret x) [] x.
Proof. intros rest. reflexivity. Qed.

Lemma reads_bind {A B} (r : Reader A) (k : A -> Reader B)
    (e1 e2 : bytes) (x : A) (y : B) :
  reads r e1 x -> reads (k x) e2 y -> reads (bind r k) (e1 ++ e2) y.
Proof.
  intros H1 H2 rest. unfold bind. rewrite <- app_assoc, H1. apply H2.
Qed.

Lemma reads_bind_ret {A B} (r : Reader A) (f : A -> B) (e : bytes) (x : A) :
  reads r e x -> reads (bind r (fun a => ret (f a))) e (f x).
Proof.
  intros H1. rewrite <- (app_nil_r e). eapply reads_bind; [exact H1|apply reads_ret].
Qed.

Lemma reads_bytes (b : bytes) (n : nat) : length b = n -> reads (read_bytes n) b b.
Proof.
  intros <- rest. unfold read_bytes.
  rewrite decide_True by (rewrite length_app; lia).
  now rewrite take_app_length, drop_app_length.
Qed.

Lemma reads_le (n : nat) (v : Z) :
  0 <= v < 2 ^ (8 * Z.of_nat n) -> reads (read_le n) (ser_le n v) v.
Proof.
  intros Hv. unfold read_le.
  replace v with (de_le (ser_le n v)) at 2
    by (rewrite de_le_ser_le; now apply Z.mod_small).
  apply reads_bind_ret, reads_bytes, length_ser_le.
Qed.

Lemma ser_le_mod (n : nat) (v : Z) :
  ser_le n (v mod 2 ^ (8 * Z.of_nat n)) = ser_le n v.
Proof.
  revert v. induction n as [|n IH]; intros v; [reflexivity|].
  cbn [ser_le]. replace (8 * Z.of_nat (S n)) with (8 + 8 * Z.of_nat n) by lia.
  rewrite Z.pow_add_r by lia. change (2 ^ 8) with 256.
  rewrite Z.rem_mul_r by lia.
  set (hi := (v / 256) mod 2 ^ (8 * Z.of_nat n)).
  assert (Hlo : byte_of_Z (v mod 256 + 256 * hi) = byte_of_Z v).
  { apply byte_of_Z_congr.
    rewrite (Z.mul_comm 256 hi), Z.mod_add by lia. apply Z.mod_mod. lia. }
  assert (Hhi : (v mod 256 + 256 * hi) / 256 = hi).
  { rewrite (Z.mul_comm 256 hi), Z.div_add by lia.
    rewrite Z.div_small by (apply Z.mod_pos_bound; lia). reflexivity. }
  rewrite Hlo, Hhi. unfold hi. now rewrite IH.
Qed.

Lemma reads_i64 (v : Z) : in_i64 v -> reads read_i64 (ser_i64 v) v.
Proof.
  intros Hv. unfold read_i64, ser_i64.
  rewrite <- (ser_le_mod 8 v).
  replace v with (wrap_i64 (v mod 2 ^ (8 * Z.of_nat 8))) at 2.
  - apply reads_bind_ret, reads_le. apply Z.mod_pos_bound. lia.
  - unfold in_i64, INT64_MIN, INT64_MAX in Hv. unfold wrap_i64.
    change (8 * Z.of_nat 8) with 64.
    destruct (Z_lt_dec v 0) as [Hneg|Hpos].
    + rewrite <- (Z.mod_add v 1 (2 ^ 64)) by lia.
      rewrite (Z.mod_small (v + 1 * 2 ^ 64)) by lia.
      replace (v + 1 * 2 ^ 64 + 2 ^ 63) with (v + 2 ^ 63 + 1 * 2 ^ 64) by lia.
      rewrite Z.mod_add by lia. rewrite Z.mod_small; lia.
    + rewrite (Z.mod_small v) by lia. rewrite Z.mod_small; lia.
Qed.

Lemma reads_n {A} (r : Reader A) (ser : A -> bytes) (wf : A -> Prop) (l : list A) :
  (forall x, wf x -> reads r (ser x) x) ->
  Forall wf l ->
  reads (read_n (length l) r) (concat (map ser l)) l.
Proof.
  intros Hr. induction 1 as [|x l Hx _ IH]; simpl.
  - apply reads_ret.
  - eapply reads_bind; [exact (Hr x Hx)|].
    now apply reads_bind_ret with (f := fun l => x :: l).
Qed.

Lemma reads_eq {A} (r : Reader A) (e : bytes) (x y : A) :
  reads r e x -> x = y -> reads r e y.
Proof. now intros Hr <-. Qed.

(** *** Encodings cut short *)

Lemma reads_bind_nil {A B} (r : Reader A) (k : A -> Reader B)
    (e : bytes) (x : A) (y : B) :
  reads r e x -> reads (k x) [] y -> reads (bind r k) e y.
Proof.
  intros H1 H2. rewrite <- (app_nil_r e). now apply reads_bind with (x := x).
Qed.

Lemma cut_short_nil {A} (r : Reader A) : cut_short r [].
Proof.
  intros [|b pre] suf Heq Hsuf; [|discriminate Heq].
  simpl in Heq. now subst suf.
Qed.

(** A sequence cut short is cut within its first part, or within what
    follows it. *)
Lemma cut_short_bind {A B} (r : Reader A) (k : A -> Reader B)
    (e1 e2 : bytes) (x : A) :
  reads r e1 x -> cut_short r e1 -> cut_short (k x) e2 ->
  cut_short (bind r k) (e1 ++ e2).
Proof.
  intros Hr Hc1 Hc2 pre suf Heq Hsuf. unfold bind.
  apply app_eq_app in Heq as [l [[He1 Hs]|[Hp He2]]].
  - destruct l as [|b l].
    + rewrite app_nil_r in He1. subst pre. simpl in Hs. subst suf.
      pose proof (Hr []) as Hx. rewrite app_nil_r in Hx. rewrite Hx.
      now apply (Hc2 [] e2).
    + destruct (Hc1 pre (b :: l) He1 ltac:(discriminate)) as [what ->].
      now exists what.
  - subst pre. rewrite Hr. now apply (Hc2 l suf).
Qed.

Lemma cut_short_bind_nil {A B} (r : Reader A) (k : A -> Reader B)
    (e : bytes) (x : A) :
  reads r e x -> cut_short r e -> cut_short (bind r k) e.
Proof.
  intros Hr Hc. rewrite <- (app_nil_r e).
  apply cut_short_bind with (x := x); [exact Hr|exact Hc|apply cut_short_nil].
Qed.

Lemma cut_short_bytes (b : bytes) (n : nat) :
  length b = n -> cut_short (read_bytes n) b.
Proof.
  intros <- pre suf -> Hsuf. exists "end of data"%string. unfold read_bytes.
  apply decide_False. rewrite length_app.
  destruct suf; [contradiction|simpl; lia].
Qed.

Lemma cut_short_le (n : nat) (v : Z) : cut_short (read_le n) (ser_le n v).
Proof.
  unfold read_le.
  apply cut_short_bind_nil with (x := ser_le n v);
    [apply reads_bytes|apply cut_short_bytes]; apply length_ser_le.
Qed.

Lemma cut_short_i64 (v : Z) : cut_short read_i64 (ser_i64 v).
Proof.
  unfold read_i64, ser_i64. rewrite <- (ser_le_mod 8 v).
  apply cut_short_bind_nil with (x := v mod 2 ^ (8 * Z.of_nat 8));
    [apply reads_le, Z.mod_pos_bound; lia|apply cut_short_le].
Qed.

Lemma cut_short_n {A} (r : Reader A) (ser : A -> bytes) (wf : A -> Prop)
    (l : list A) :
  (forall x, wf x -> reads r (ser x) x) ->
  (forall x, wf x -> cut_short r (ser x)) ->
  Forall wf l ->
  cut_short (read_n (length l) r) (concat (map ser l)).
Proof.
  intros Hr Hc. induction 1 as [|x l Hx Hl IH]; simpl.
  - apply cut_short_nil.
  - apply cut_short_bind with (x := x); [exact (Hr x Hx)|exact (Hc x Hx)|].
    apply cut_short_bind_nil with (x := l); [|exact IH].
    now apply reads_n with (wf := wf).
Qed.

Lemma packed_height_unpack (s : Stake) :
  0 <= height s < 2 ^ 31 ->
  0 <= packed_height s < 2 ^ 32
  /\ Z.shiftr (packed_height s) 1 = height s
  /\ Z.odd (packed_height s) = coinbase s.
Proof.
  intros Hh. unfold packed_height, to_u32.
  assert (Hp : Z.lor (Z.shiftl (height s) 1) (Z.b2z (coinbase s))
               = 2 * height s + Z.b2z (coinbase s)).
  { destruct (height s) as [|q|q]; [| |lia]; destruct (coinbase s); reflexivity. }
  rewrite Hp.
  assert (Hb : 0 <= Z.b2z (coinbase s) <= 1) by (destruct (coinbase s); simpl; lia).
  rewrite Z.mod_small by lia. split; [lia|split].
  - rewrite Z.shiftr_div_pow2 by lia. change (2 ^ 1) with 2.
    rewrite Z.add_comm, Z.mul_comm, Z.div_add by lia.
    rewrite Z.div_small by lia. reflexivity.
  - rewrite Z.add_comm, Z.odd_add_mul_2. now destruct (coinbase s).
Qed.

Section CodecFacts.

Context {collab : Collaborators}.
Variable gArgs : ArgsManager.
Variable MAX_SIZE : Z.
Hypothesis MAX_SIZE_fits : MAX_SIZE < 2 ^ 64.

Lemma reads_compact_size (n : Z) :
  0 <= n <= MAX_SIZE ->
  reads (ReadCompactSize MAX_SIZE) (WriteCompactSize n) n.
Proof.
  intros Hn rest. unfold ReadCompactSize, WriteCompactSize, bind, ret, throw.
  assert (Hmax : (n >? MAX_SIZE) = false)
    by (rewrite Z.gtb_ltb; apply Z.ltb_ge; lia).
  destruct (n <? 253) eqn:H1.
  { apply Z.ltb_lt in H1. rewrite (reads_le 1 n) by (change (2 ^ _) with 256; lia).
    replace (n <? 253) with true by (symmetry; apply Z.ltb_lt; lia).
    now rewrite Hmax. }
  apply Z.ltb_ge in H1.
  destruct (n <=? 0xFFFF) eqn:H2.
  { apply Z.leb_le in H2.
    change ((byte_of_Z 253 :: ser_le 2 n) ++ rest)
      with (ser_le 1 253 ++ (ser_le 2 n ++ rest)).
    rewrite (reads_le 1 253) by (change (2 ^ _) with 256; lia).
    change (253 <? 253) with false. change (253 =? 253) with true. cbv beta iota.
    rewrite (reads_le 2 n) by (change (2 ^ _) with 65536; lia).
    replace (n <? 253) with false by (symmetry; apply Z.ltb_ge; lia).
    now rewrite Hmax. }
  apply Z.leb_gt in H2.
  destruct (n <=? 0xFFFFFFFF) eqn:H3.
  { apply Z.leb_le in H3.
    change ((byte_of_Z 254 :: ser_le 4 n) ++ rest)
      with (ser_le 1 254 ++ (ser_le 4 n ++ rest)).
    rewrite (reads_le 1 254) by (change (2 ^ _) with 256; lia).
    change (254 <? 253) with false. change (254 =? 253) with false.
    change (254 =? 254) with true. cbv beta iota.
    rewrite (reads_le 4 n) by (change (2 ^ _) with 4294967296; lia).
    replace (n <? 65536) with false by (symmetry; apply Z.ltb_ge; lia).
    now rewrite Hmax. }
  apply Z.leb_gt in H3.
  change ((byte_of_Z 255 :: ser_le 8 n) ++ rest)
    with (ser_le 1 255 ++ (ser_le 8 n ++ rest)).
  rewrite (reads_le 1 255) by (change (2 ^ _) with 256; lia).
  change (255 <? 253) with false. change (255 =? 253) with false.
  change (255 =? 254) with false. cbv beta iota.
  rewrite (reads_le 8 n) by (change (8 * Z.of_nat 8) with 64; lia).
  replace (n <? 4294967296) with false by (symmetry; apply Z.ltb_ge; lia).
  now rewrite Hmax.
Qed.

Lemma reads_var_bytes (b : bytes) :
  wf_var_bytes MAX_SIZE b -> reads (read_var_bytes MAX_SIZE) (ser_bytes b) b.
Proof.
  intros Hb. unfold read_var_bytes, ser_bytes, wf_var_bytes in *.
  eapply reads_bind; [apply reads_compact_size; lia|].
  apply reads_bytes. now rewrite Nat2Z.id.
Qed.

Lemma reads_outpoint (o : COutPoint) :
  0 <= txid o < 2 ^ 256 -> 0 <= vout o < 2 ^ 32 ->
  reads read_outpoint (ser_outpoint o) o.
Proof.
  intros Ht Hn. unfold read_outpoint, ser_outpoint.
  eapply reads_bind; [now apply reads_le|]. cbv beta.
  eapply reads_eq; [apply reads_bind_ret; now apply reads_le|].
  now destruct o.
Qed.

Lemma reads_stake (s : Stake) :
  wf_stake MAX_SIZE s -> reads (read_stake MAX_SIZE) (ser_stake s) s.
Proof.
  intros (Ht & Hn & Ha & Hh & Hk). unfold read_stake, ser_stake.
  destruct (packed_height_unpack s Hh) as (Hp & Hshift & Hodd).
  eapply reads_bind; [now apply reads_outpoint|]. cbv beta.
  eapply reads_bind; [now apply reads_i64|]. cbv beta.
  eapply reads_bind; [now apply reads_le|]. cbv beta.
  eapply reads_eq; [apply reads_bind_ret; now apply reads_var_bytes|].
  rewrite Hshift, Hodd. now destruct s.
Qed.

Lemma reads_signed_stake (ss : SignedStake) :
  wf_signed_stake MAX_SIZE ss ->
  reads (read_signed_stake MAX_SIZE) (ser_signed_stake ss) ss.
Proof.
  intros [Hs Hg]. unfold read_signed_stake, ser_signed_stake.
  eapply reads_bind; [now apply reads_stake|]. cbv beta.
  eapply reads_eq; [apply reads_bind_ret; now apply reads_bytes|].
  now destruct ss.
Qed.

Lemma reads_vector {A} (r : Reader A) (ser : A -> bytes) (wf : A -> Prop)
    (l : list A) :
  (forall x, wf x -> reads r (ser x) x) ->
  Z.of_nat (length l) <= MAX_SIZE ->
  Forall wf l ->
  reads (read_vector MAX_SIZE r) (ser_vector ser l) l.
Proof.
  intros Hr Hlen Hl. unfold read_vector, ser_vector.
  eapply reads_bind; [apply reads_compact_size; lia|]. cbv beta.
  rewrite Nat2Z.id. now apply reads_n with (wf := wf).
Qed.

(** Decoding inverts encoding on well-formed proofs, in either format. *)
Lemma reads_proof (p : Proof) :
  wf_proof gArgs MAX_SIZE p ->
  reads (read_proof gArgs MAX_SIZE) (ser_proof gArgs p) p.
Proof.
  intros (Hsq & Hex & Hm & Hlen & Hst & Hfmt). unfold read_proof, ser_proof.
  eapply reads_bind; [now apply reads_le|]. cbv beta.
  eapply reads_bind; [now apply reads_i64|]. cbv beta.
  eapply reads_bind; [now apply reads_var_bytes|]. cbv beta.
  eapply reads_bind;
    [apply reads_vector with (wf := wf_signed_stake MAX_SIZE);
     [apply reads_signed_stake|exact Hlen|exact Hst]|].
  cbv beta. destruct (useLegacy gArgs).
  - destruct Hfmt as [Hpo Hg]. eapply reads_eq; [apply reads_ret|].
    rewrite <- Hpo, <- Hg. now destruct p.
  - destruct Hfmt as [Hpo Hg].
    eapply reads_bind; [now apply reads_var_bytes|]. cbv beta.
    eapply reads_eq; [apply reads_bind_ret; now apply reads_bytes|].
    now destruct p.
Qed.

Lemma cut_short_compact_size (n : Z) :
  0 <= n <= MAX_SIZE ->
  cut_short (ReadCompactSize MAX_SIZE) (WriteCompactSize n).
Proof.
  intros Hn. unfold ReadCompactSize, WriteCompactSize.
  destruct (n <? 253) eqn:H1.
  { apply Z.ltb_lt in H1.
    apply cut_short_bind_nil with (x := n);
      [apply reads_le; change (2 ^ _) with 256; lia|apply cut_short_le]. }
  apply Z.ltb_ge in H1.
  destruct (n <=? 0xFFFF) eqn:H2.
  { apply Z.leb_le in H2.
    change (byte_of_Z 253 :: ser_le 2 n) with (ser_le 1 253 ++ ser_le 2 n).
    apply cut_short_bind with (x := 253);
      [apply reads_le; change (2 ^ _) with 256; lia|apply cut_short_le|].
    cbv beta. change (253 <? 253) with false. change (253 =? 253) with true.
    cbv iota.
    apply cut_short_bind_nil with (x := n).
    - apply reads_bind_nil with (x := n);
        [apply reads_le; change (2 ^ _) with 65536; lia|].
      replace (n <? 253) with false by (symmetry; apply Z.ltb_ge; lia).
      apply reads_ret.
    - apply cut_short_bind_nil with (x := n);
        [apply reads_le; change (2 ^ _) with 65536; lia|apply cut_short_le]. }
  apply Z.leb_gt in H2.
  destruct (n <=? 0xFFFFFFFF) eqn:H3.
  { apply Z.leb_le in H3.
    change (byte_of_Z 254 :: ser_le 4 n) with (ser_le 1 254 ++ ser_le 4 n).
    apply cut_short_bind with (x := 254);
      [apply reads_le; change (2 ^ _) with 256; lia|apply cut_short_le|].
    cbv beta. change (254 <? 253) with false. change (254 =? 253) with false.
    change (254 =? 254) with true. cbv iota.
    apply cut_short_bind_nil with (x := n).
    - apply reads_bind_nil with (x := n);
        [apply reads_le; change (2 ^ _) with 4294967296; lia|].
      replace (n <? 65536) with false by (symmetry; apply Z.ltb_ge; lia).
      apply reads_ret.
    - apply cut_short_bind_nil with (x := n);
        [apply reads_le; change (2 ^ _) with 4294967296; lia
        |apply cut_short_le]. }
  apply Z.leb_gt in H3.
  change (byte_of_Z 255 :: ser_le 8 n) with (ser_le 1 255 ++ ser_le 8 n).
  apply cut_short_bind with (x := 255);
    [apply reads_le; change (2 ^ _) with 256; lia|apply cut_short_le|].
  cbv beta. change (255 <? 253) with false. change (255 =? 253) with false.
  change (255 =? 254) with false. cbv iota.
  apply cut_short_bind_nil with (x := n).
  - apply reads_bind_nil with (x := n);
      [apply reads_le; change (8 * Z.of_nat 8) with 64; lia|].
    replace (n <? 4294967296) with false by (symmetry; apply Z.ltb_ge; lia).
    apply reads_ret.
  - apply cut_short_bind_nil with (x := n);
      [apply reads_le; change (8 * Z.of_nat 8) with 64; lia|apply cut_short_le].
Qed.

Lemma cut_short_var_bytes (b : bytes) :
  wf_var_bytes MAX_SIZE b -> cut_short (read_var_bytes MAX_SIZE) (ser_bytes b).
Proof.
  intros Hb. unfold read_var_bytes, ser_bytes, wf_var_bytes in *.
  apply cut_short_bind with (x := Z.of_nat (length b));
    [apply reads_compact_size; lia|apply cut_short_compact_size; lia|].
  apply cut_short_bytes. now rewrite Nat2Z.id.
Qed.

Lemma cut_short_outpoint (o : COutPoint) :
  0 <= txid o < 2 ^ 256 -> 0 <= vout o < 2 ^ 32 ->
  cut_short read_outpoint (ser_outpoint o).
Proof.
  intros Ht Hn. unfold read_outpoint, ser_outpoint.
  apply cut_short_bind with (x := txid o);
    [now apply reads_le|apply cut_short_le|].
  apply cut_short_bind_nil with (x := vout o);
    [now apply reads_le|apply cut_short_le].
Qed.

Lemma cut_short_stake (s : Stake) :
  wf_stake MAX_SIZE s -> cut_short (read_stake MAX_SIZE) (ser_stake s).
Proof.
  intros (Ht & Hn & Ha & Hh & Hk). unfold read_stake, ser_stake.
  destruct (packed_height_unpack s Hh) as (Hp & _).
  apply cut_short_bind with (x := utxo s);
    [now apply reads_outpoint|now apply cut_short_outpoint|].
  apply cut_short_bind with (x := amount s);
    [now apply reads_i64|apply cut_short_i64|].
  apply cut_short_bind with (x := packed_height s);
    [now apply reads_le|apply cut_short_le|].
  apply cut_short_bind_nil with (x := pubkey s);
    [now apply reads_var_bytes|now apply cut_short_var_bytes].
Qed.

Lemma cut_short_signed_stake (ss : SignedStake) :
  wf_signed_stake MAX_SIZE ss ->
  cut_short (read_signed_stake MAX_SIZE) (ser_signed_stake ss).
Proof.
  intros [Hs Hg]. unfold read_signed_stake, ser_signed_stake.
  apply cut_short_bind with (x := stake ss);
    [now apply reads_stake|now apply cut_short_stake|].
  apply cut_short_bind_nil with (x := sig ss);
    [now apply reads_bytes|now apply cut_short_bytes].
Qed.

Lemma cut_short_vector {A} (r : Reader A) (ser : A -> bytes) (wf : A -> Prop)
    (l : list A) :
  (forall x, wf x -> reads r (ser x) x) ->
  (forall x, wf x -> cut_short r (ser x)) ->
  Z.of_nat (length l) <= MAX_SIZE ->
  Forall wf l ->
  cut_short (read_vector MAX_SIZE r) (ser_vector ser l).
Proof.
  intros Hr Hc Hlen Hl. unfold read_vector, ser_vector.
  apply cut_short_bind with (x := Z.of_nat (length l));
    [apply reads_compact_size; lia|apply cut_short_compact_size; lia|].
  rewrite Nat2Z.id. now apply cut_short_n with (wf := wf).
Qed.

(** The decoder throws on the encoding of a well-formed proof cut short. *)
Lemma cut_short_proof (p : Proof) :
  wf_proof gArgs MAX_SIZE p ->
  cut_short (read_proof gArgs MAX_SIZE) (ser_proof gArgs p).
Proof.
  intros (Hsq & Hex & Hm & Hlen & Hst & Hfmt). unfold read_proof, ser_proof.
  apply cut_short_bind with (x := sequence p);
    [now apply reads_le|apply cut_short_le|].
  apply cut_short_bind with (x := expirationTime p);
    [now apply reads_i64|apply cut_short_i64|].
  apply cut_short_bind with (x := master p);
    [now apply reads_var_bytes|now apply cut_short_var_bytes|].
  apply cut_short_bind with (x := stakes p).
  - apply reads_vector with (wf := wf_signed_stake MAX_SIZE);
      [apply reads_signed_stake|exact Hlen|exact Hst].
  - apply cut_short_vector with (wf := wf_signed_stake MAX_SIZE);
      [apply reads_signed_stake|apply cut_short_signed_stake|exact Hlen
      |exact Hst].
  - destruct (useLegacy gArgs); [apply cut_short_nil|].
    destruct Hfmt as [Hpo Hg].
    apply cut_short_bind with (x := payoutScriptPubKey p);
      [now apply reads_var_bytes|now apply cut_short_var_bytes|].
    apply cut_short_bind_nil with (x := signature p);
      [now apply reads_bytes|now apply cut_short_bytes].
Qed.

End CodecFacts.

(* ===================================================================== *)
(** ** The hexadecimal form *)
(* ===================================================================== *)

Lemma nibble_cases (v : Z) :
  0 <= v < 16 ->
  v = 0 \/ v = 1 \/ v = 2 \/ v = 3 \/ v = 4 \/ v = 5 \/ v = 6 \/ v = 7 \/
  v = 8 \/ v = 9 \/ v = 10 \/ v = 11 \/ v = 12 \/ v = 13 \/ v = 14 \/ v = 15.
Proof. lia. Qed.

Lemma hex_digit_hex_char (v : Z) :
  0 <= v < 16 -> hex_digit (hex_char v) = Some v.
Proof.
  intros Hv. apply nibble_cases in Hv.
  repeat (destruct Hv as [->|Hv]; [reflexivity|]). now subst.
Qed.

Lemma is_lower_hex_hex_char (v : Z) :
  0 <= v < 16 -> is_lower_hex (hex_char v) = true.
Proof.
  intros Hv. apply nibble_cases in Hv.
  repeat (destruct Hv as [->|Hv]; [reflexivity|]). now subst.
Qed.

Lemma nibbles_of_byte (b : byte) :
  0 <= Z_of_byte b / 16 < 16 /\ 0 <= Z_of_byte b mod 16 < 16.
Proof.
  pose proof (Z_of_byte_range b) as Hr. split.
  - split; [apply Z.div_pos; lia|apply Z.div_lt_upper_bound; lia].
  - apply Z.mod_pos_bound. lia.
Qed.

Lemma ParseHex_HexStr (bs : bytes) : ParseHex (HexStr bs) = bs.
Proof.
  induction bs as [|b bs IH]; [reflexivity|].
  destruct (nibbles_of_byte b) as [Hhi Hlo]. cbn [HexStr ParseHex].
  rewrite (hex_digit_hex_char _ Hhi), (hex_digit_hex_char _ Hlo), IH.
  rewrite <- Z.div_mod by lia. now rewrite byte_of_Z_of_byte.
Qed.

Lemma length_HexStr (bs : bytes) :
  String.length (HexStr bs) = (2 * length bs)%nat.
Proof. induction bs as [|b bs IH]; simpl; [reflexivity|]. rewrite IH. lia. Qed.

Lemma even_length_HexStr (bs : bytes) :
  Nat.even (String.length (HexStr bs)) = true.
Proof. induction bs as [|b bs IH]; [reflexivity|exact IH]. Qed.

Lemma lower_hex_HexStr (bs : bytes) :
  string_forall is_lower_hex (HexStr bs) = true.
Proof.
  induction bs as [|b bs IH]; [reflexivity|].
  destruct (nibbles_of_byte b) as [Hhi Hlo]. cbn [HexStr string_forall].
  now rewrite (is_lower_hex_hex_char _ Hhi), (is_lower_hex_hex_char _ Hlo), IH.
Qed.

Lemma IsHex_HexStr (bs : bytes) : IsHex (HexStr bs) = true.
Proof.
  unfold IsHex. rewrite even_length_HexStr, andb_true_r.
  induction bs as [|b bs IH]; [reflexivity|].
  destruct (nibbles_of_byte b) as [Hhi Hlo]. cbn [HexStr string_forall].
  rewrite (hex_digit_hex_char _ Hhi), (hex_digit_hex_char _ Hlo), IH.
  reflexivity.
Qed.

Lemma lower_hex_no_0x_prefix (s : string) :
  string_forall is_lower_hex s = true -> String.prefix "0x" s = false.
Proof.
  destruct s as [|a [|b s]]; [reflexivity| |].
  - intros _. cbn [String.prefix]. now destruct (ascii_dec "0" a).
  - intros Hs. cbn [String.prefix]. destruct (ascii_dec "0" a); [|reflexivity].
    destruct (ascii_dec "x" b) as [<-|]; [|reflexivity].
    cbn [string_forall] in Hs. apply andb_true_iff in Hs as [_ Hs].
    apply andb_true_iff in Hs as [Hx _]. discriminate Hx.
Qed.

Section Hex.

Context {collab : Collaborators}.
Variable gArgs : ArgsManager.
Variable MAX_SIZE : Z.

(** C8, as the code has it. For a well-formed proof under the format in
    force, reading back the hex form of the proof succeeds and gives the
    proof itself; the hex form is lower case, of even length and without
    prefix. [FromHex] answers [NotHex] exactly on the strings that are not
    hexadecimal, and [MalformedEncoding] exactly on the hexadecimal strings
    on whose bytes the decoder throws, with the decoder's message. The
    decoder throws on the encoding of the proof cut short at any point; it
    does not throw on the encoding followed by further bytes, which it leaves
    unread. *)
Theorem FromHex_ToHex_round_trip (p : Proof) :
  MAX_SIZE < 2 ^ 64 ->
  wf_proof gArgs MAX_SIZE p ->
  FromHex gArgs MAX_SIZE (ToHex gArgs p) = inl p
  /\ string_forall is_lower_hex (ToHex gArgs p) = true
  /\ Nat.even (String.length (ToHex gArgs p)) = true
  /\ String.prefix "0x" (ToHex gArgs p) = false
  /\ (forall s, FromHex gArgs MAX_SIZE s = inr NotHex <-> IsHex s = false)
  /\ (forall s what,
        FromHex gArgs MAX_SIZE s = inr (MalformedEncoding what)
        <-> IsHex s = true
            /\ read_proof gArgs MAX_SIZE (ParseHex s) = Throw what)
  /\ (forall pre suf : bytes,
        ser_proof gArgs p = pre ++ suf -> pre <> [] -> suf <> [] ->
        exists what,
          FromHex gArgs MAX_SIZE (HexStr pre) = inr (MalformedEncoding what))
  /\ (forall trailing : bytes,
        FromHex gArgs MAX_SIZE (HexStr (ser_proof gArgs p ++ trailing))
        = inl p).
Proof.
  intros Hmax Hwf. unfold ToHex.
  split; [|split; [|split; [|split; [|split; [|split; [|split]]]]]].
  - unfold FromHex. rewrite IsHex_HexStr, ParseHex_HexStr. cbn [negb].
    pose proof (reads_proof gArgs MAX_SIZE Hmax p Hwf []) as Hread.
    rewrite app_nil_r in Hread. now rewrite Hread.
  - apply lower_hex_HexStr.
  - apply even_length_HexStr.
  - apply lower_hex_no_0x_prefix, lower_hex_HexStr.
  - intros s. unfold FromHex. destruct (IsHex s); cbn [negb].
    + destruct (read_proof gArgs MAX_SIZE (ParseHex s)) as [[q rest]|what];
        split; discriminate.
    + split; reflexivity.
  - intros s what. unfold FromHex. destruct (IsHex s); cbn [negb].
    + destruct (read_proof gArgs MAX_SIZE (ParseHex s)) as [[q rest]|what'].
      * split; [discriminate|]. intros [_ Hthrow]. discriminate Hthrow.
      * split.
        -- intros Herr. injection Herr as ->. now split.
        -- intros [_ Hthrow]. injection Hthrow as ->. reflexivity.
    + split; [discriminate|]. intros [Hhex _]. discriminate Hhex.
  - intros pre suf Heq _ Hsuf.
    destruct (cut_short_proof gArgs MAX_SIZE Hmax p Hwf pre suf Heq Hsuf)
      as [what Hthrow].
    exists what. unfold FromHex.
    rewrite IsHex_HexStr, ParseHex_HexStr. cbn [negb]. now rewrite Hthrow.
  - intros trailing. unfold FromHex.
    rewrite IsHex_HexStr, ParseHex_HexStr. cbn [negb].
    now rewrite (reads_proof gArgs MAX_SIZE Hmax p Hwf trailing).
Qed.

End Hex.

(* ===================================================================== *)
(** ** Worked examples: the scenarios of the spec and the theorems applied *)
(* ===================================================================== *)

Import Sample.

Local Abbreviation sample := Sample.collaborators.

(** Empty proof. *)
Example scenario_empty_proof :
  verify (collab := sample) current_args COIN proof_empty
  = Invalid NO_STAKE "no-stake".
Proof. vm_compute. reflexivity. Qed.

(** Single valid stake of 10 coins, dust threshold of 1 coin. *)
Example scenario_single_valid_stake :
  verify (collab := sample) current_args COIN proof1 = Valid
  /\ getScore proof1 = 1000.
Proof. split; vm_compute; reflexivity. Qed.

(** The quotient is truncated toward zero, then converted to 32 bits. *)
Example amountToScore_truncates :
  amountToScore 1999999 = 1
  /\ amountToScore (-1999999) = 4294967295
  /\ amountToScore (-999999) = 0.
Proof. repeat split. Qed.

(** Half a coin against a dust threshold of 1 coin. *)
Example scenario_dust_violation :
  verify (collab := sample) current_args COIN proof5
  = Invalid DUST_THRESHOLD "amount-below-dust-threshold".
Proof. vm_compute. reflexivity. Qed.

(** Two valid signed stakes supplied in descending order of identifier. *)
Example scenario_ordering_violation :
  getId (collab := sample) stake1 < getId (collab := sample) stake2
  /\ verify (collab := sample) current_args COIN proof12 = Valid
  /\ verify (collab := sample) current_args COIN proof21
     = Invalid WRONG_STAKE_ORDERING "wrong-stake-ordering".
Proof. split; [|split]; vm_compute; reflexivity. Qed.

(** Two stakes on distinct outpoints with equal identifiers pass the
    ordering check. *)
Example scenario_equal_stake_ids :
  getId (collab := colliding) stake1 = getId (collab := colliding) stake2
  /\ verify (collab := colliding) current_args COIN proof_colliding = Valid.
Proof. split; vm_compute; reflexivity. Qed.

(** Two signed stakes on the same outpoint, in ascending order. *)
Example scenario_duplicate_utxo :
  getId (collab := sample) stake1 < getId (collab := sample) stake1_again
  /\ verify (collab := sample) current_args COIN proof_dup
     = Invalid DUPLICATE_STAKE "duplicated-stake".
Proof. split; vm_compute; reflexivity. Qed.

(** Expiration time 1_000_000 against a tip whose median time past is
    1_000_000. *)
Example scenario_expiration :
  verify_chain (collab := sample) current_args COIN chain proof_expiring
  = Invalid EXPIRED "expired-proof".
Proof. vm_compute. reflexivity. Qed.

(** Coinbase coin at height 200, tip at height 250, 100 confirmations. *)
Example scenario_immature_coinbase :
  verify_chain (collab := sample) current_args COIN chain proof4
  = Invalid IMMATURE_UTXO "immature-utxo".
Proof. vm_compute. reflexivity. Qed.

(** A stake whose coin has the confirmations passes the chain checks. *)
Example scenario_mature_stake :
  verify_chain (collab := sample) current_args COIN chain proof1 = Valid.
Proof. vm_compute. reflexivity. Qed.

(** A legacy encoding read in current mode. *)
Example scenario_legacy_bytes_in_current_mode :
  FromHex (collab := sample) current_args max_size
          (ToHex (collab := sample) legacy_args legacy_proof)
  = inr (MalformedEncoding "end of data").
Proof. vm_compute. reflexivity. Qed.

Example scenario_not_hex :
  FromHex (collab := sample) current_args max_size "0g" = inr NotHex
  /\ FromHex (collab := sample) current_args max_size "abc" = inr NotHex.
Proof. split; vm_compute; reflexivity. Qed.

(** The commitment of [proof1] and [proof21], which share expiration time and
    master key and differ in their stakes. *)
Lemma current_commitment_witness :
  getStakeCommitment (collab := sample) current_args proof1
  = getStakeCommitment (collab := sample) current_args proof21
  /\ getStakeCommitment (collab := sample) current_args proof1
     = GetHash (collab := sample)
               (ser_i64 (expirationTime proof1) ++ ser_pubkey (master proof1)).
Proof.
  destruct (current_commitment_depends_on_expiration_and_master
              (collab := sample) current_args proof1 proof21)
    as (Hsame & Hhash & _); [vm_compute; reflexivity ..|].
  split; [exact Hsame|exact Hhash].
Defined.


(** A legacy proof, and the same with a payout script and a signature. *)
Lemma legacy_witness :
  getLimitedId (collab := sample) legacy_args legacy_proof
  = getLimitedId (collab := sample) legacy_args legacy_proof_decorated
  /\ getProofId (collab := sample) legacy_args legacy_proof
     = getProofId (collab := sample) legacy_args legacy_proof_decorated
  /\ verify (collab := sample) legacy_args COIN legacy_proof
     = verify (collab := sample) legacy_args COIN legacy_proof_decorated.
Proof.
  apply (legacy_ignores_payout_script_and_signature
           (collab := sample) legacy_args COIN legacy_proof
           legacy_proof_decorated); vm_compute; reflexivity.
Defined.

(** Expiration at the boundary. *)
Lemma expired_witness :
  verify (collab := sample) current_args COIN proof_expiring = Valid
  /\ verify_chain (collab := sample) current_args COIN chain proof_expiring
     = Invalid EXPIRED "expired-proof".
Proof.
  assert (Hok : verify (collab := sample) current_args COIN proof_expiring
                = Valid) by (vm_compute; reflexivity).
  split; [exact Hok|].
  destruct (expired_iff_median_time_past_reached
              (collab := sample) current_args COIN chain proof_expiring Hok)
    as (_ & Hboundary & _).
  apply (Hboundary (mkBlockIndex 1000000)); vm_compute; reflexivity.
Defined.

(** The coinbase stake at height 200 under a tip at height 250. *)
Lemma immature_witness :
  verify_chain (collab := sample) current_args COIN chain proof4
  = Invalid IMMATURE_UTXO "immature-utxo".
Proof.
  assert (Hok : verify (collab := sample) current_args COIN proof4 = Valid)
    by (vm_compute; reflexivity).
  destruct (immature_iff_declared_height_lacks_confirmations
              (collab := sample) current_args COIN chain proof4
              [] (first_stake proof4) [] (coin_of stake4 200)) as (_ & _ & Himm & _).
  - exact Hok.
  - intros [Hexp _]. vm_compute in Hexp. discriminate Hexp.
  - vm_compute. reflexivity.
  - constructor.
  - vm_compute. reflexivity.
  - apply in_i64b_spec. vm_compute. reflexivity.
  - apply in_i64b_spec. vm_compute. reflexivity.
  - apply Himm. vm_compute. reflexivity.
Defined.

(** The stake that declares height 100 for a coin mined at height 200 under
    a tip at height 250: mature by its declared height, it is reported for
    its height mismatch. *)
Lemma declared_height_witness :
  verify_chain (collab := sample) current_args COIN chain proof3
  = Invalid HEIGHT_MISMATCH "height-mismatch".
Proof.
  assert (Hok : verify (collab := sample) current_args COIN proof3 = Valid)
    by (vm_compute; reflexivity).
  destruct (declared_height_decides_immature_or_height_mismatch
              (collab := sample) current_args COIN chain proof3
              [] (first_stake proof3) [] (coin_of stake3 200)) as (_ & Hmature).
  - exact Hok.
  - intros [Hexp _]. vm_compute in Hexp. discriminate Hexp.
  - vm_compute. reflexivity.
  - constructor.
  - vm_compute. reflexivity.
  - apply in_i64b_spec. vm_compute. reflexivity.
  - apply in_i64b_spec. vm_compute. reflexivity.
  - vm_compute. discriminate.
  - apply Hmature.
    + intros Hgt. vm_compute in Hgt. discriminate Hgt.
    + vm_compute. reflexivity.
Defined.

(** The hex form of [proof1] read back. *)
Lemma hex_round_trip_witness :
  FromHex (collab := sample) current_args max_size
          (ToHex (collab := sample) current_args proof1)
  = inl proof1.
Proof.
  destruct (FromHex_ToHex_round_trip (collab := sample) current_args max_size
                                     proof1) as [Hround _].
  - vm_compute. reflexivity.
  - unfold wf_proof, in_i64, wf_var_bytes.
    repeat match goal with
           | |- _ /\ _ => split
           | |- Forall _ _ => constructor
           | |- if _ then _ else _ => vm_compute
           | |- wf_signed_stake _ _ => unfold wf_signed_stake, wf_stake, in_i64,
                                        wf_var_bytes
           | |- _ => vm_compute; (discriminate || reflexivity)
           end.
  - exact Hround.
Defined.

(** C1 as stated fails: the coin of [stake3] was mined at height 200, so with
    100 confirmations and the tip at height 250 the coin's height gives
    200 + 100 - 1 = 299 > 250; the stake declares height 100, the maturity
    check passes and the verifier reports the height mismatch. *)
Lemma immature_coin_not_reported_immature :
  verify (collab := sample) current_args COIN proof3 = Valid
  /\ GetCoin chain (utxo (stake (first_stake proof3))) = Some (coin_of stake3 200)
  /\ nHeight (coin_of stake3 200)
     + stakeUtxoMinConfirmations (collab := sample) current_args - 1
     > ActiveHeight chain
  /\ verify_chain (collab := sample) current_args COIN chain proof3
     = Invalid HEIGHT_MISMATCH "height-mismatch"
  /\ GetResult (verify_chain (collab := sample) current_args COIN chain proof3)
     <> IMMATURE_UTXO.
Proof.
  split; [|split; [|split; [|split]]]; vm_compute; (reflexivity || discriminate).
Qed.

(** C5 as stated fails: in [proof21] the second stake's identifier is below
    the first's, yet with a dust threshold of 100 coins the verifier stops at
    the dust check of the first stake. *)
Lemma inversion_not_reported_wrong_ordering :
  map stake (stakes proof21) = [stake2; stake1]
  /\ getId (collab := sample) stake1 < getId (collab := sample) stake2
  /\ verify (collab := sample) current_args (100 * COIN) proof21
     = Invalid DUST_THRESHOLD "amount-below-dust-threshold"
  /\ GetResult (verify (collab := sample) current_args (100 * COIN) proof21)
     <> WRONG_STAKE_ORDERING.
Proof.
  split; [|split; [|split]]; vm_compute; (reflexivity || discriminate).
Qed.


(** C9 as stated fails: [stake_plain] declares height 100 and no coinbase
    for a coinbase coin mined at height 200. Under a tip at height 250 with
    100 confirmations the declared height is mature (199 <= 250) and differs
    from the coin's, yet the verifier reports neither [IMMATURE_UTXO] nor
    [HEIGHT_MISMATCH]: the coinbase flags are compared before the heights. *)
Lemma mature_declared_height_gives_coinbase_mismatch :
  verify (collab := sample) current_args COIN proof_plain = Valid
  /\ GetCoin chain_with_coinbase_coin (utxo (stake (first_stake proof_plain)))
     = Some coinbase_coin
  /\ height (stake (first_stake proof_plain)) <> nHeight coinbase_coin
  /\ height (stake (first_stake proof_plain))
     + stakeUtxoMinConfirmations (collab := sample) current_args - 1
     <= ActiveHeight chain_with_coinbase_coin
  /\ verify_chain (collab := sample) current_args COIN chain_with_coinbase_coin
                  proof_plain
     = Invalid COINBASE_MISMATCH "coinbase-mismatch"
  /\ GetResult (verify_chain (collab := sample) current_args COIN
                             chain_with_coinbase_coin proof_plain)
     <> HEIGHT_MISMATCH
  /\ GetResult (verify_chain (collab := sample) current_args COIN
                             chain_with_coinbase_coin proof_plain)
     <> IMMATURE_UTXO.
Proof.
  split; [|split; [|split; [|split; [|split; [|split]]]]];
    vm_compute; (reflexivity || discriminate).
Qed.

(** C8 as stated fails: the encoding of [proof1] followed by the bytes 00 ff
    is the encoding of no well-formed proof, yet its hex form is not refused
    as [MalformedEncoding]: [FromHex] reads [proof1] off it and leaves the two
    bytes unread. *)
Lemma bytes_after_a_proof_are_not_refused :
  IsHex (HexStr proof1_then_two_bytes) = true
  /\ ParseHex (HexStr proof1_then_two_bytes) = proof1_then_two_bytes
  /\ (forall p : Proof,
        wf_proof (collab := sample) current_args max_size p ->
        ser_proof (collab := sample) current_args p <> proof1_then_two_bytes)
  /\ FromHex (collab := sample) current_args max_size
             (HexStr proof1_then_two_bytes)
     = inl proof1
  /\ HexStr proof1_then_two_bytes
     <> ToHex (collab := sample) current_args proof1.
Proof.
  assert (Hread : read_proof (collab := sample) current_args max_size
                             proof1_then_two_bytes
                  = Ok (proof1, [x00; xff])) by (vm_compute; reflexivity).
  split; [vm_compute; reflexivity|split; [apply ParseHex_HexStr|split; [|split]]].
  - intros p Hwf Heq.
    assert (Hmax : max_size < 2 ^ 64) by (vm_compute; reflexivity).
    pose proof (reads_proof current_args max_size Hmax p Hwf []) as Hp.
    rewrite app_nil_r, Heq, Hread in Hp. injection Hp as _ Hrest.
    discriminate Hrest.
  - vm_compute. reflexivity.
  - vm_compute. discriminate.
Qed.

(* ===================================================================== *)
(** ** What the structural verifier accepts *)
(* ===================================================================== *)

Section StructuralAcceptance.

Context {collab : Collaborators}.
Variable gArgs : ArgsManager.

Local Abbreviation ids l := (map (fun ss : SignedStake => getId (stake ss)) l).
Local Abbreviation outpoints l :=
  (map (fun ss : SignedStake => utxo (stake ss)) l).

(** The loop accepts a list of stakes exactly when each meets the dust
    threshold, the identifiers never decrease from [prevId] on, the outpoints
    are pairwise distinct and outside [utxos], and each signature verifies. *)
Lemma verify_stakes_valid_iff (dust : Amount) (c : uint256) (l : list SignedStake) :
  forall (prevId : uint256) (utxos : gset COutPoint),
  verify_stakes dust c prevId utxos l = Valid
  <-> Forall (fun ss => dust <= amount (stake ss)) l
      /\ Sorted Z.le (prevId :: ids l)
      /\ NoDup (outpoints l)
      /\ (forall o, o ∈ outpoints l -> o ∉ utxos)
      /\ Forall (fun ss => SignedStake_verify ss c = true) l.
Proof.
  induction l as [|ss l IH]; intros prevId utxos.
  - simpl. split; [|reflexivity]. intros _.
    repeat split; try (now repeat constructor).
    all: try (intros o Ho; now apply elem_of_nil in Ho).
  - cbn [verify_stakes map]. unfold getStake, getAmount, getUTXO.
    destruct (amount (stake ss) <? dust) eqn:Hdust.
    { apply Z.ltb_lt in Hdust. split; [discriminate|].
      intros (Hd & _). inversion Hd; subst. lia. }
    apply Z.ltb_ge in Hdust.
    destruct (getId (stake ss) <? prevId) eqn:Hord.
    { apply Z.ltb_lt in Hord. split; [discriminate|].
      intros (_ & Hs & _). apply Sorted_inv in Hs as [_ Hhd].
      inversion Hhd; subst. lia. }
    apply Z.ltb_ge in Hord.
    destruct (decide (utxo (stake ss) ∈ utxos)) as [Hin|Hin].
    { split; [discriminate|]. intros (_ & _ & _ & Hout & _).
      exfalso. apply (Hout (utxo (stake ss))); [apply elem_of_cons; now left|exact Hin]. }
    destruct (SignedStake_verify ss c) eqn:Hsig; cbn [negb].
    2:{ split; [discriminate|]. intros (_ & _ & _ & _ & Hv).
        inversion Hv; subst. congruence. }
    rewrite IH. split.
    + intros (Hd & Hs & Hnd & Hout & Hv). repeat split.
      * now constructor.
      * constructor; [exact Hs|now constructor].
      * apply NoDup_cons. split; [|exact Hnd].
        intros Hdup. apply (Hout _ Hdup). apply elem_of_union_l.
        now apply elem_of_singleton.
      * intros o Ho Hu. apply elem_of_cons in Ho as [->|Ho]; [contradiction|].
        apply (Hout o Ho). now apply elem_of_union_r.
      * now constructor.
    + intros (Hd & Hs & Hnd & Hout & Hv).
      apply Forall_cons in Hd as [_ Hd]. apply Forall_cons in Hv as [_ Hv].
      apply Sorted_inv in Hs as [Hs _]. apply NoDup_cons in Hnd as [Hfresh Hnd].
      repeat split; try assumption.
      intros o Ho Hu. apply elem_of_union in Hu as [Hu|Hu].
      * apply elem_of_singleton in Hu. now subst.
      * apply (Hout o); [apply elem_of_cons; now right|exact Hu].
Qed.

Lemma verify_current_format_none (p : Proof) :
  verify_current_format gArgs p = None
  <-> useLegacy gArgs = true
      \/ (IsStandard (payoutScriptPubKey p) = true
          /\ VerifySchnorr (master p) (getLimitedId gArgs p) (signature p)
             = true).
Proof.
  unfold verify_current_format.
  destruct (useLegacy gArgs); cbn [negb].
  - split; [now left|reflexivity].
  - destruct (IsStandard (payoutScriptPubKey p)); cbn [negb].
    + destruct (VerifySchnorr _ _ _); cbn [negb].
      * split; [now right|reflexivity].
      * split; [discriminate|]. intros [H|[_ H]]; discriminate H.
    + split; [discriminate|]. intros [H|[H _]]; discriminate H.
Qed.

Lemma sorted_from_zero (l : list SignedStake) :
  Sorted Z.le (uint256_ZERO :: ids l) <-> Sorted Z.le (ids l).
Proof.
  split.
  - intros Hs. now apply Sorted_inv in Hs as [Hs _].
  - intros Hs. constructor; [exact Hs|].
    destruct l as [|ss l]; constructor. apply getId_nonneg.
Qed.

(** What acceptance by the structural verifier gives. *)
Lemma verify_valid_inv (dust : Amount) (p : Proof) :
  verify gArgs dust p = Valid ->
  stakes p <> []
  /\ Z.of_nat (length (stakes p)) <= AVALANCHE_MAX_PROOF_STAKES
  /\ verify_current_format gArgs p = None
  /\ Forall (fun ss => dust <= amount (stake ss)) (stakes p)
  /\ Sorted Z.le (ids (stakes p))
  /\ NoDup (outpoints (stakes p))
  /\ Forall (fun ss => SignedStake_verify ss (getStakeCommitment gArgs p)
                       = true) (stakes p).
Proof.
  intros Hok. unfold verify in Hok.
  destruct (bool_decide (stakes p = [])) eqn:Hempty; [discriminate|].
  apply bool_decide_eq_false in Hempty.
  destruct (Z.of_nat (length (stakes p)) >? AVALANCHE_MAX_PROOF_STAKES)
    eqn:Hmax; [discriminate|].
  rewrite Z.gtb_ltb in Hmax. apply Z.ltb_ge in Hmax.
  destruct (verify_current_format gArgs p) as [st|] eqn:Hfmt.
  { exfalso. unfold verify_current_format in Hfmt.
    repeat match type of Hfmt with
           | (if ?b then _ else _) = _ => destruct b
           end; try discriminate; injection Hfmt as <-; discriminate. }
  apply verify_stakes_valid_iff in Hok as (Hd & Hs & Hnd & _ & Hv).
  apply sorted_from_zero in Hs. now repeat split.
Qed.

(** What is enough for the structural verifier to accept. *)
Lemma verify_valid_intro (dust : Amount) (p : Proof) :
  stakes p <> [] ->
  Z.of_nat (length (stakes p)) <= AVALANCHE_MAX_PROOF_STAKES ->
  verify_current_format gArgs p = None ->
  Forall (fun ss => dust <= amount (stake ss)) (stakes p) ->
  Sorted Z.le (ids (stakes p)) ->
  NoDup (outpoints (stakes p)) ->
  Forall (fun ss => SignedStake_verify ss (getStakeCommitment gArgs p) = true)
         (stakes p) ->
  verify gArgs dust p = Valid.
Proof.
  intros Hne Hmax Hfmt Hd Hs Hnd Hv.
  rewrite verify_past_preliminaries by assumption.
  apply verify_stakes_valid_iff. apply sorted_from_zero in Hs.
  repeat split; try assumption.
  intros o _. apply not_elem_of_empty.
Qed.

(** X1. The structural verifier accepts a proof exactly when it has at
    least one stake and at most the maximum, in current mode a standard
    payout script and a proof signature that verifies, every stake at or
    above the dust threshold, stake identifiers that never decrease along the
    list, pairwise distinct outpoints and a valid signature on every stake. *)
Theorem verify_accepts_iff (dust : Amount) (p : Proof) :
  verify gArgs dust p = Valid
  <-> stakes p <> []
      /\ Z.of_nat (length (stakes p)) <= AVALANCHE_MAX_PROOF_STAKES
      /\ (useLegacy gArgs = true
          \/ (IsStandard (payoutScriptPubKey p) = true
              /\ VerifySchnorr (master p) (getLimitedId gArgs p) (signature p)
                 = true))
      /\ Forall (fun ss => dust <= amount (stake ss)) (stakes p)
      /\ Sorted Z.le (ids (stakes p))
      /\ NoDup (outpoints (stakes p))
      /\ Forall (fun ss => SignedStake_verify ss (getStakeCommitment gArgs p)
                           = true) (stakes p).
Proof.
  rewrite <- verify_current_format_none. split.
  - apply verify_valid_inv.
  - intros (Hne & Hmax & Hfmt & Hd & Hs & Hnd & Hv).
    now apply verify_valid_intro.
Qed.

(** X2. Lowering the dust threshold never turns an accepted proof into a
    rejected one. *)
Theorem verify_dust_threshold_antitone (dust dust' : Amount) (p : Proof) :
  verify gArgs dust p = Valid ->
  dust' <= dust ->
  verify gArgs dust' p = Valid.
Proof.
  intros Hok Hle. apply verify_valid_inv in Hok
    as (Hne & Hmax & Hfmt & Hd & Hs & Hnd & Hv).
  apply verify_valid_intro; try assumption.
  eapply Forall_impl; [exact Hd|]. intros ss Hss. simpl in *. lia.
Qed.

Lemma verify_stakes_reason (dust : Amount) (c : uint256) (l : list SignedStake) :
  forall (prevId : uint256) (utxos : gset COutPoint),
  verify_stakes dust c prevId utxos l = Valid
  \/ GetResult (verify_stakes dust c prevId utxos l) = DUST_THRESHOLD
  \/ GetResult (verify_stakes dust c prevId utxos l) = WRONG_STAKE_ORDERING
  \/ GetResult (verify_stakes dust c prevId utxos l) = DUPLICATE_STAKE
  \/ GetResult (verify_stakes dust c prevId utxos l) = INVALID_STAKE_SIGNATURE.
Proof.
  induction l as [|ss l IH]; intros prevId utxos; [now left|].
  cbn [verify_stakes].
  destruct (_ <? dust); [tauto|]. destruct (_ <? prevId); [tauto|].
  destruct (decide _); [tauto|].
  destruct (negb _); [tauto|]. apply IH.
Qed.

(** X3. The two checks on the number of stakes: the verifier reports
    [NO_STAKE] exactly for a proof without stakes, and [TOO_MANY_UTXOS]
    exactly for a proof with stakes whose number exceeds the maximum. *)
Theorem stake_count_rejections (dust : Amount) (p : Proof) :
  (GetResult (verify gArgs dust p) = NO_STAKE <-> stakes p = [])
  /\ (GetResult (verify gArgs dust p) = TOO_MANY_UTXOS
      <-> stakes p <> []
          /\ Z.of_nat (length (stakes p)) > AVALANCHE_MAX_PROOF_STAKES).
Proof.
  unfold verify.
  destruct (bool_decide (stakes p = [])) eqn:Hempty.
  { apply bool_decide_eq_true in Hempty. simpl. split; [tauto|].
    split; [discriminate|]. tauto. }
  apply bool_decide_eq_false in Hempty.
  destruct (Z.of_nat (length (stakes p)) >? AVALANCHE_MAX_PROOF_STAKES) eqn:Hmax.
  { rewrite Z.gtb_ltb in Hmax. apply Z.ltb_lt in Hmax. simpl.
    split; [split; [discriminate|tauto]|]. split; [|reflexivity]. split; [exact Hempty|lia]. }
  rewrite Z.gtb_ltb in Hmax. apply Z.ltb_ge in Hmax.
  assert (Hloop : forall r, r = NO_STAKE \/ r = TOO_MANY_UTXOS ->
            GetResult (match verify_current_format gArgs p with
                       | Some st => st
                       | None =>
                         verify_stakes dust (getStakeCommitment gArgs p)
                                       uint256_ZERO ∅ (stakes p)
                       end) <> r).
  { intros r Hr. unfold verify_current_format.
    destruct (negb (useLegacy gArgs)).
    - destruct (negb (IsStandard _)); [simpl; destruct Hr; subst; discriminate|].
      destruct (negb (VerifySchnorr _ _ _));
        [simpl; destruct Hr; subst; discriminate|].
      destruct (verify_stakes_reason dust (getStakeCommitment gArgs p)
                  (stakes p) uint256_ZERO ∅) as [->|[->|[->|[->| ->]]]];
        simpl; destruct Hr; subst; discriminate.
    - destruct (verify_stakes_reason dust (getStakeCommitment gArgs p)
                  (stakes p) uint256_ZERO ∅) as [->|[->|[->|[->| ->]]]];
        simpl; destruct Hr; subst; discriminate. }
  split; split.
  - intros Hres. exfalso. now apply (Hloop NO_STAKE (or_introl eq_refl)).
  - intros Hnil. contradiction.
  - intros Hres. exfalso. now apply (Hloop TOO_MANY_UTXOS (or_intror eq_refl)).
  - intros [_ Hgt]. lia.
Qed.

Lemma structural_reason_is_no_chain_reason (r : ProofValidationResult) :
  is_structural_reason r = true -> is_chain_reason r = false.
Proof. destruct r; simpl; congruence. Qed.

(** The structural verifier accepts or gives one of its own reasons. *)
Lemma verify_reason_structural (dust : Amount) (p : Proof) :
  verify gArgs dust p = Valid
  \/ is_structural_reason (GetResult (verify gArgs dust p)) = true.
Proof.
  unfold verify, verify_current_format.
  destruct (bool_decide (stakes p = [])); [now right|].
  destruct (_ >? _); [now right|].
  pose proof (verify_stakes_reason dust (getStakeCommitment gArgs p)
                (stakes p) uint256_ZERO ∅) as Hloop.
  assert (Hcases : verify_stakes dust (getStakeCommitment gArgs p)
                                 uint256_ZERO ∅ (stakes p) = Valid
                   \/ is_structural_reason
                        (GetResult (verify_stakes dust
                                      (getStakeCommitment gArgs p)
                                      uint256_ZERO ∅ (stakes p))) = true).
  { destruct Hloop as [H|[H|[H|[H|H]]]]; [now left|right; now rewrite H ..]. }
  destruct (negb (useLegacy gArgs)); [|exact Hcases].
  destruct (negb (IsStandard _)); [now right|].
  destruct (negb (VerifySchnorr _ _ _)); [now right|exact Hcases].
Qed.

Lemma verify_never_chain_reason (dust : Amount) (p : Proof) :
  is_chain_reason (GetResult (verify gArgs dust p)) = false.
Proof.
  destruct (verify_reason_structural dust p) as [-> |Hr]; [reflexivity|].
  now apply structural_reason_is_no_chain_reason.
Qed.

(** X4. The structural verifier either accepts or gives one of its eight
    reasons, never a reason of the chain-context verifier; in legacy mode it
    gives neither [INVALID_PAYOUT_SCRIPT] nor [INVALID_PROOF_SIGNATURE]. *)
Theorem verify_gives_structural_reasons (dust : Amount) (p : Proof) :
  (verify gArgs dust p = Valid
   \/ is_structural_reason (GetResult (verify gArgs dust p)) = true)
  /\ is_chain_reason (GetResult (verify gArgs dust p)) = false
  /\ (useLegacy gArgs = true ->
      GetResult (verify gArgs dust p) <> INVALID_PAYOUT_SCRIPT
      /\ GetResult (verify gArgs dust p) <> INVALID_PROOF_SIGNATURE).
Proof.
  split; [apply verify_reason_structural|].
  split; [apply verify_never_chain_reason|].
  intros Hleg. unfold verify, verify_current_format. rewrite Hleg. cbn [negb].
  destruct (bool_decide (stakes p = [])); [split; discriminate|].
  destruct (_ >? _); [split; discriminate|].
  destruct (verify_stakes_reason dust (getStakeCommitment gArgs p)
              (stakes p) uint256_ZERO ∅) as [->|[->|[->|[->| ->]]]];
    split; discriminate.
Qed.

End StructuralAcceptance.

(* ===================================================================== *)
(** ** What the chain-context verifier accepts *)
(* ===================================================================== *)

Section ChainAcceptance.

Context {collab : Collaborators}.
Variable gArgs : ArgsManager.

Local Abbreviation minConfs := (stakeUtxoMinConfirmations gArgs).

(** Whatever the loop body returns is a rejection with a chain reason other
    than [EXPIRED]. *)
Lemma verify_stake_chain_some (chainman : ChainstateManager)
    (activeHeight confs : Z) (ss : SignedStake) (st : ProofValidationState) :
  verify_stake_chain chainman activeHeight confs ss = Some st ->
  st <> Valid /\ is_chain_reason (GetResult st) = true
  /\ GetResult st <> EXPIRED.
Proof.
  unfold verify_stake_chain. intros Hst.
  repeat match type of Hst with
         | match ?x with _ => _ end = _ => destruct x
         | (if ?b then _ else _) = _ => destruct b
         end;
    try discriminate; injection Hst as <-;
    (split; [discriminate|split; [reflexivity|discriminate]]).
Qed.

Lemma verify_stakes_chain_valid_iff (chainman : ChainstateManager)
    (activeHeight confs : Z) (l : list SignedStake) :
  verify_stakes_chain chainman activeHeight confs l = Valid
  <-> Forall (fun ss => verify_stake_chain chainman activeHeight confs ss = None)
             l.
Proof.
  induction l as [|ss l IH]; simpl.
  - split; [constructor|reflexivity].
  - destruct (verify_stake_chain chainman activeHeight confs ss) as [st|] eqn:Hst.
    + pose proof (verify_stake_chain_some _ _ _ _ _ Hst) as (Hne & _).
      split; [contradiction|].
      intros Hall. apply Forall_cons in Hall as [Hhd _]. simpl in Hhd. congruence.
    + rewrite IH. split; [now constructor|]. intros Hall. now inversion Hall.
Qed.

Lemma verify_stakes_chain_reason (chainman : ChainstateManager)
    (activeHeight confs : Z) (l : list SignedStake) :
  verify_stakes_chain chainman activeHeight confs l = Valid
  \/ is_chain_reason
       (GetResult (verify_stakes_chain chainman activeHeight confs l)) = true.
Proof.
  induction l as [|ss l IH]; simpl; [now left|].
  destruct (verify_stake_chain chainman activeHeight confs ss) as [st|] eqn:Hst;
    [|exact IH].
  right. now apply verify_stake_chain_some in Hst as (_ & Hr & _).
Qed.

(** The loop body lets a stake through exactly when the stake and its coin
    agree. *)
Lemma verify_stake_chain_none_iff (chainman : ChainstateManager)
    (ss : SignedStake) :
  maturity_sum_fits minConfs (stake ss) ->
  verify_stake_chain chainman (ActiveHeight chainman) minConfs ss = None
  <-> stake_matches_coin gArgs chainman ss.
Proof.
  intros [H1 H2].
  unfold verify_stake_chain, stake_matches_coin, getStake, getUTXO, getHeight,
    getAmount, getPubkey, isCoinbase, IsCoinBase, GetHeight.
  rewrite (wrap_i64_id _ H1), (wrap_i64_id _ H2).
  destruct (GetCoin chainman (utxo (stake ss))) as [coin|] eqn:Hcoin.
  2:{ split; [intros Hnone; discriminate Hnone|].
      intros (coin & Hc & _). discriminate Hc. }
  split.
  - intros Hnone. exists coin. split; [reflexivity|].
    destruct (_ >? _) eqn:Hm; [discriminate|].
    rewrite Z.gtb_ltb in Hm. apply Z.ltb_ge in Hm.
    destruct (eqb (coinbase (stake ss)) (fCoinBase coin)) eqn:Hcb;
      cbn [negb] in Hnone; [|discriminate]. apply eqb_prop in Hcb.
    destruct (height (stake ss) =? nHeight coin) eqn:Hh;
      cbn [negb] in Hnone; [|discriminate]. apply Z.eqb_eq in Hh.
    destruct (amount (stake ss) =? nValue coin) eqn:Ha;
      cbn [negb] in Hnone; [|discriminate]. apply Z.eqb_eq in Ha.
    destruct (ExtractDestination (scriptPubKey coin)) as [[|h|h]|];
      try discriminate.
    destruct (h =? Hash160 (pubkey (stake ss))) eqn:Hk;
      cbn [negb] in Hnone; [|discriminate]. apply Z.eqb_eq in Hk.
    subst h. now repeat split.
  - intros (coin' & Hc & Hmat & Hcb & Hh & Ha & Hd). injection Hc as <-.
    replace (_ >? _) with false
      by (symmetry; rewrite Z.gtb_ltb; apply Z.ltb_ge; lia).
    rewrite Hcb, eqb_reflx, Hh, Z.eqb_refl, Ha, Z.eqb_refl, Hd, Z.eqb_refl.
    reflexivity.
Qed.

Lemma not_expired_test (chainman : ChainstateManager) (p : Proof) :
  (expirationTime p >? 0) && (tipMedianTimePast chainman >=? expirationTime p)
  = false
  <-> ~ expired chainman p.
Proof.
  unfold expired. rewrite andb_false_iff, Z.gtb_ltb, Z.geb_leb, Z.ltb_ge, Z.leb_gt.
  lia.
Qed.

Lemma verify_chain_valid_structural (dust : Amount)
    (chainman : ChainstateManager) (p : Proof) :
  verify_chain gArgs dust chainman p = Valid -> verify gArgs dust p = Valid.
Proof.
  unfold verify_chain. now destruct (verify gArgs dust p).
Qed.

(** X5. The chain-context verifier hands back the structural verifier's
    rejection unchanged whatever the chain holds, accepts only proofs the
    structural verifier accepts, and for those gives, when it rejects, one of
    the nine chain reasons. *)
Theorem verify_chain_extends_verify (dust : Amount)
    (chainman : ChainstateManager) (p : Proof) :
  (verify gArgs dust p <> Valid ->
   verify_chain gArgs dust chainman p = verify gArgs dust p)
  /\ (verify_chain gArgs dust chainman p = Valid -> verify gArgs dust p = Valid)
  /\ (verify gArgs dust p = Valid ->
      verify_chain gArgs dust chainman p = Valid
      \/ is_chain_reason (GetResult (verify_chain gArgs dust chainman p))
         = true).
Proof.
  unfold verify_chain. destruct (verify gArgs dust p) as [|r m].
  - split; [contradiction|split; [reflexivity|]]. intros _.
    destruct (_ && _); [now right|]. apply verify_stakes_chain_reason.
  - split; [reflexivity|split; discriminate].
Qed.

(** X6. Without 64-bit overflow in the maturity sums, the chain-context
    verifier accepts a proof exactly when the structural verifier accepts it,
    it is not expired, and every stake agrees with the coin at its outpoint:
    the coin exists, has the confirmations, the same coinbase flag, height
    and amount, and pays to the hash of the stake's public key. *)
Theorem verify_chain_accepts_iff (dust : Amount)
    (chainman : ChainstateManager) (p : Proof) :
  Forall (fun ss => maturity_sum_fits minConfs (stake ss)) (stakes p) ->
  verify_chain gArgs dust chainman p = Valid
  <-> verify gArgs dust p = Valid
      /\ ~ expired chainman p
      /\ Forall (stake_matches_coin gArgs chainman) (stakes p).
Proof.
  intros Hfit. unfold verify_chain.
  destruct (verify gArgs dust p) as [|r m];
    [|split; [discriminate|intros (H & _); discriminate]].
  destruct (_ && _) eqn:Hexp.
  - split; [discriminate|]. intros (_ & Hne & _).
    apply not_expired_test in Hne. congruence.
  - apply not_expired_test in Hexp. rewrite verify_stakes_chain_valid_iff.
    split.
    + intros Hall. split; [reflexivity|split; [exact Hexp|]].
      rewrite Forall_forall in *. intros ss Hss.
      apply verify_stake_chain_none_iff; auto.
    + intros (_ & _ & Hall). rewrite Forall_forall in *. intros ss Hss.
      apply verify_stake_chain_none_iff; auto.
Qed.

(** The loop body reads the chain only through the coin at the stake's
    outpoint. *)
Lemma verify_stake_chain_frame (c1 c2 : ChainstateManager)
    (activeHeight confs : Z) (ss : SignedStake) :
  GetCoin c1 (utxo (stake ss)) = GetCoin c2 (utxo (stake ss)) ->
  verify_stake_chain c1 activeHeight confs ss
  = verify_stake_chain c2 activeHeight confs ss.
Proof. unfold verify_stake_chain, getStake, getUTXO. now intros ->. Qed.

Lemma verify_stakes_chain_frame (c1 c2 : ChainstateManager)
    (activeHeight confs : Z) (l : list SignedStake) :
  Forall (fun ss => GetCoin c1 (utxo (stake ss)) = GetCoin c2 (utxo (stake ss)))
         l ->
  verify_stakes_chain c1 activeHeight confs l
  = verify_stakes_chain c2 activeHeight confs l.
Proof.
  induction 1 as [|ss l Hss _ IH]; simpl; [reflexivity|].
  now rewrite (verify_stake_chain_frame c1 c2 _ _ ss Hss), IH.
Qed.

(** X7. The outcome depends on the chain only through the median time past
    of the tip, the active height and the coins at the outpoints of the
    proof's stakes: two chain views that agree on these give the same
    outcome, whatever else their UTXO sets hold. *)
Theorem verify_chain_reads_only_staked_coins (dust : Amount)
    (c1 c2 : ChainstateManager) (p : Proof) :
  tipMedianTimePast c1 = tipMedianTimePast c2 ->
  ActiveHeight c1 = ActiveHeight c2 ->
  Forall (fun ss => GetCoin c1 (utxo (stake ss)) = GetCoin c2 (utxo (stake ss)))
         (stakes p) ->
  verify_chain gArgs dust c1 p = verify_chain gArgs dust c2 p.
Proof.
  intros Hmtp Hh Hcoins. unfold verify_chain.
  now rewrite Hmtp, Hh, (verify_stakes_chain_frame c1 c2 _ _ _ Hcoins).
Qed.

(** X8. Confirmations only accumulate: a proof accepted under a chain view
    is still accepted under a view with the same UTXO set and a greater
    active height, as long as it is not expired there. *)
Theorem verify_chain_stable_as_chain_grows (dust : Amount)
    (c1 c2 : ChainstateManager) (p : Proof) :
  Forall (fun ss => maturity_sum_fits minConfs (stake ss)) (stakes p) ->
  verify_chain gArgs dust c1 p = Valid ->
  CoinsTip c2 = CoinsTip c1 ->
  ActiveHeight c1 <= ActiveHeight c2 ->
  ~ expired c2 p ->
  verify_chain gArgs dust c2 p = Valid.
Proof.
  intros Hfit Hok Hcoins Hh Hexp.
  pose proof (verify_chain_valid_structural dust c1 p Hok) as Hs.
  unfold verify_chain in *. rewrite Hs in *.
  apply not_expired_test in Hexp. rewrite Hexp.
  destruct (_ && _); [discriminate|].
  apply verify_stakes_chain_valid_iff in Hok.
  apply verify_stakes_chain_valid_iff.
  rewrite Forall_forall in *. intros ss Hss.
  apply verify_stake_chain_none_iff; [now apply Hfit|].
  destruct (proj1 (verify_stake_chain_none_iff c1 ss (Hfit ss Hss))
                  (Hok ss Hss)) as (coin & Hc & Hm & Hrest).
  exists coin. unfold GetCoin in *. rewrite Hcoins. split; [exact Hc|].
  split; [lia|exact Hrest].
Qed.

(** X9. A proof whose expiration time is zero or negative is never reported
    expired, and without an active tip no proof is. *)
Theorem never_expired_without_deadline_or_tip (dust : Amount)
    (chainman : ChainstateManager) (p : Proof) :
  expirationTime p <= 0 \/ ActiveTip chainman = None ->
  GetResult (verify_chain gArgs dust chainman p) <> EXPIRED.
Proof.
  intros Hcase. unfold verify_chain.
  destruct (verify gArgs dust p) as [|r m] eqn:Hv.
  - replace ((expirationTime p >? 0)
             && (tipMedianTimePast chainman >=? expirationTime p)) with false.
    + apply verify_stakes_chain_not_expired.
    + symmetry. apply not_expired_test. unfold expired, tipMedianTimePast.
      destruct Hcase as [Hle|Htip]; [lia|]. rewrite Htip. lia.
  - pose proof (verify_never_chain_reason gArgs dust p) as Hc.
    rewrite Hv in Hc. simpl in *. intros ->. discriminate.
Qed.

(** X10. Against an empty UTXO set every structurally valid, unexpired
    proof is rejected for a missing UTXO. *)
Theorem empty_utxo_set_rejects_every_proof (dust : Amount)
    (chainman : ChainstateManager) (p : Proof) :
  verify gArgs dust p = Valid ->
  ~ expired chainman p ->
  CoinsTip chainman = ∅ ->
  verify_chain gArgs dust chainman p
  = Invalid MISSING_UTXO "utxo-missing-or-spent".
Proof.
  intros Hok Hexp Hempty. unfold verify_chain. rewrite Hok.
  apply not_expired_test in Hexp. rewrite Hexp.
  apply verify_valid_inv in Hok as (Hne & _).
  destruct (stakes p) as [|ss l]; [contradiction|].
  cbn [verify_stakes_chain]. unfold verify_stake_chain, GetCoin.
  rewrite Hempty, lookup_empty. reflexivity.
Qed.

(** X11. Spending a staked coin invalidates the proof: once the coin of one
    of its stakes has left the UTXO set, an accepted proof is rejected for a
    missing UTXO. *)
Theorem spent_stake_is_reported_missing (dust : Amount)
    (chainman : ChainstateManager) (p : Proof) (ss : SignedStake) :
  verify_chain gArgs dust chainman p = Valid ->
  ss ∈ stakes p ->
  verify_chain gArgs dust
    (mkChainman (ActiveTip chainman) (ActiveHeight chainman)
                (delete (utxo (stake ss)) (CoinsTip chainman))) p
  = Invalid MISSING_UTXO "utxo-missing-or-spent".
Proof.
  intros Hok Hin.
  pose proof (verify_chain_valid_structural dust chainman p Hok) as Hs.
  unfold verify_chain in *. rewrite Hs in *.
  change (tipMedianTimePast (mkChainman (ActiveTip chainman)
            (ActiveHeight chainman)
            (delete (utxo (stake ss)) (CoinsTip chainman))))
    with (tipMedianTimePast chainman).
  destruct (_ && _); [discriminate|]. cbn [ActiveHeight].
  apply verify_stakes_chain_valid_iff in Hok.
  apply verify_valid_inv in Hs as (_ & _ & _ & _ & _ & Hnd & _).
  apply list_elem_of_split in Hin as (pre & post & Hl).
  rewrite Hl in *. rewrite map_app in Hnd. cbn [map] in Hnd.
  apply NoDup_app in Hnd as (_ & Hfresh & _).
  apply Forall_app in Hok as [Hpre _].
  rewrite verify_stakes_chain_app.
  - cbn [verify_stakes_chain]. unfold verify_stake_chain at 1.
    unfold GetCoin, getStake, getUTXO. cbn [CoinsTip].
    now rewrite lookup_delete_eq.
  - rewrite Forall_forall in *. intros x Hx. rewrite <- (Hpre x Hx).
    apply verify_stake_chain_frame. unfold GetCoin. cbn [CoinsTip].
    apply lookup_delete_ne. intros Heq.
    apply (Hfresh (utxo (stake x))).
    + apply list_elem_of_In, (in_map (fun s => utxo (stake s))), list_elem_of_In, Hx.
    + rewrite <- Heq. apply elem_of_cons. now left.
Qed.

End ChainAcceptance.

(* ===================================================================== *)
(** ** Identity, staked amount and score *)
(* ===================================================================== *)

Section IdentityAndScore.

Context {collab : Collaborators}.
Variable gArgs : ArgsManager.

(** X12. The identity of a proof does not read the signatures: two proofs
    with the same sequence, expiration time and payout script and the same
    stakes up to their signatures have the same limited identifier, whatever
    their masters and proof signatures; with the same master they also have
    the same proof identifier and the same stake commitment. *)
Theorem identity_ignores_signatures (p1 p2 : Proof) :
  sequence p1 = sequence p2 ->
  expirationTime p1 = expirationTime p2 ->
  payoutScriptPubKey p1 = payoutScriptPubKey p2 ->
  map stake (stakes p1) = map stake (stakes p2) ->
  getLimitedId gArgs p1 = getLimitedId gArgs p2
  /\ (master p1 = master p2 ->
      getProofId gArgs p1 = getProofId gArgs p2
      /\ getStakeCommitment gArgs p1 = getStakeCommitment gArgs p2).
Proof.
  intros Hseq Hexp Hpo Hst.
  assert (Hlen : length (stakes p1) = length (stakes p2)).
  { rewrite <- (length_map stake (stakes p1)), Hst. apply length_map. }
  assert (Hlim : getLimitedId gArgs p1 = getLimitedId gArgs p2).
  { unfold getLimitedId, computeProofId. cbn [fst]. rewrite !hw_write_fold.
    unfold getStake.
    rewrite <- !(map_map stake ser_stake), Hst, Hseq, Hexp, Hpo, Hlen.
    reflexivity. }
  split; [exact Hlim|]. intros Hm.
  assert (Hid : getProofId gArgs p1 = getProofId gArgs p2).
  { unfold getLimitedId, getProofId, computeProofId in *. cbn [fst snd] in *.
    now rewrite Hlim, Hm. }
  split; [exact Hid|]. unfold getStakeCommitment. now rewrite Hid, Hexp, Hm.
Qed.

End IdentityAndScore.

Lemma nonneg_sums_in_range (l : list Z) (acc : Z) :
  0 <= acc ->
  Forall (fun a => 0 <= a) l ->
  acc + foldr Z.add 0 l <= INT64_MAX ->
  sums_in_range acc l = true.
Proof.
  intros Hacc Hl. revert acc Hacc.
  induction Hl as [|a l Ha Hl IH]; intros acc Hacc Hsum; simpl in *;
    [reflexivity|].
  assert (Hrest : 0 <= foldr Z.add 0 l).
  { clear -Hl. induction Hl; simpl; lia. }
  apply andb_true_iff. split.
  - apply in_i64b_spec. unfold in_i64, INT64_MIN, INT64_MAX in *. lia.
  - apply IH; lia.
Qed.

Lemma total_amount_foldr (l : list SignedStake) :
  foldr (fun s t => amount (stake s) + t) 0 l
  = foldr Z.add 0 (map (fun s => amount (stake s)) l).
Proof. induction l as [|s l IH]; simpl; [|rewrite IH]; reflexivity. Qed.

Lemma total_amount_permutation (l1 l2 : list SignedStake) :
  l1 ≡ₚ l2 ->
  foldr (fun s t => amount (stake s) + t) 0 l1
  = foldr (fun s t => amount (stake s) + t) 0 l2.
Proof. induction 1; simpl; lia. Qed.

(** With stakes that are not negative and a total within 64 bits, the
    staked amount is the sum of the stake amounts. *)
Lemma getStakedAmount_total (p : Proof) :
  Forall (fun s => 0 <= amount (stake s)) (stakes p) ->
  total_amount p <= INT64_MAX ->
  getStakedAmount p = total_amount p.
Proof.
  intros Hpos Hsum. unfold getStakedAmount, total_amount in *.
  rewrite saturating_total; [unfold Amount_zero; lia|].
  apply nonneg_sums_in_range; [unfold Amount_zero; lia| |].
  - apply Forall_fmap. exact Hpos.
  - rewrite <- total_amount_foldr. unfold Amount_zero. lia.
Qed.

(** X13. Below 2^32 hundredths of a coin the score is the amount counted in
    hundredths of a coin, rounded down: amounts under 1_000_000 units score
    0, and a larger amount never scores less. *)
Theorem amountToScore_counts_hundredths (a b : Amount) :
  0 <= a <= b ->
  b < 2 ^ 32 * 1000000 ->
  amountToScore a = a / 1000000
  /\ (a < 1000000 -> amountToScore a = 0)
  /\ amountToScore a <= amountToScore b.
Proof.
  intros Hab Hb.
  assert (Hscore : forall x, 0 <= x < 2 ^ 32 * 1000000 ->
                             amountToScore x = x / 1000000).
  { intros x Hx. unfold amountToScore, Amount_scale, Amount_div, to_u32, COIN.
    rewrite wrap_i64_id by (unfold in_i64, INT64_MIN, INT64_MAX; lia).
    rewrite Z.quot_div_nonneg by lia.
    change 100000000 with (100 * 1000000).
    rewrite Z.div_mul_cancel_l by lia.
    apply Z.mod_small. split; [apply Z.div_pos; lia|].
    apply Z.div_lt_upper_bound; lia. }
  rewrite !Hscore by lia. split; [reflexivity|split].
  - intros Hsmall. apply Z.div_small. lia.
  - apply Z.div_le_mono; lia.
Qed.

(** X14. The staked amount and the score do not depend on the order of the
    stakes, for stakes that are not negative whose total, multiplied by 100,
    stays within 64 bits. *)
Theorem score_ignores_stake_order (p1 p2 : Proof) :
  stakes p1 ≡ₚ stakes p2 ->
  Forall (fun s => 0 <= amount (stake s)) (stakes p1) ->
  100 * total_amount p1 <= INT64_MAX ->
  getStakedAmount p1 = getStakedAmount p2 /\ getScore p1 = getScore p2.
Proof.
  intros Hperm Hpos Hsum.
  assert (Hpos2 : Forall (fun s => 0 <= amount (stake s)) (stakes p2)).
  { rewrite Forall_forall in *. intros s Hs. apply Hpos. now rewrite Hperm. }
  assert (Htot : total_amount p2 = total_amount p1).
  { unfold total_amount. symmetry. now apply total_amount_permutation. }
  assert (H0 : 0 <= total_amount p1).
  { unfold total_amount. clear -Hpos. induction Hpos; simpl; lia. }
  assert (Hstaked : getStakedAmount p1 = getStakedAmount p2).
  { rewrite !getStakedAmount_total; try assumption; lia. }
  split; [exact Hstaked|]. unfold getScore, computeScore.
  change (amountToScore (getStakedAmount p1) = amountToScore (getStakedAmount p2)).
  now rewrite Hstaked.
Qed.

Section StakedAmount.

Context {collab : Collaborators}.
Variable gArgs : ArgsManager.

(** X15. A structurally valid proof stakes at least the dust threshold per
    stake: with a threshold that is not negative and a total within 64 bits,
    the staked amount is the sum of the stake amounts and is at least the
    threshold times the number of stakes, hence at least the threshold. *)
Theorem valid_proof_stakes_at_least_dust (dust : Amount) (p : Proof) :
  verify gArgs dust p = Valid ->
  0 <= dust ->
  total_amount p <= INT64_MAX ->
  getStakedAmount p = total_amount p
  /\ dust * Z.of_nat (length (stakes p)) <= getStakedAmount p
  /\ dust <= getStakedAmount p.
Proof.
  intros Hok Hdust Hsum.
  apply verify_valid_inv in Hok as (Hne & _ & _ & Hd & _).
  assert (Hpos : Forall (fun s => 0 <= amount (stake s)) (stakes p)).
  { eapply Forall_impl; [exact Hd|]. intros s Hs. simpl in *. lia. }
  rewrite (getStakedAmount_total p Hpos Hsum). unfold total_amount.
  assert (Hlow : dust * Z.of_nat (length (stakes p))
                 <= foldr (fun s t => amount (stake s) + t) 0 (stakes p)).
  { clear -Hd. induction Hd as [|s l Hs _ IH]; simpl length; simpl foldr; [lia|].
    rewrite Nat2Z.inj_succ. lia. }
  split; [reflexivity|split; [exact Hlow|]].
  destruct (stakes p) as [|s l]; [contradiction|].
  simpl length in Hlow. rewrite Nat2Z.inj_succ in Hlow. nia.
Qed.

End StakedAmount.

Section HexTrailing.

Context {collab : Collaborators}.
Variable gArgs : ArgsManager.
Variable MAX_SIZE : Z.

(** X16. [FromHex] does not look at what follows the proof in the stream:
    the hex form of the encoding of a well-formed proof followed by any
    bytes reads back as that proof. *)
Theorem FromHex_ignores_trailing_bytes (p : Proof) (trailing : bytes) :
  MAX_SIZE < 2 ^ 64 ->
  wf_proof gArgs MAX_SIZE p ->
  FromHex gArgs MAX_SIZE (HexStr (ser_proof gArgs p ++ trailing)) = inl p.
Proof.
  intros Hmax Hwf. unfold FromHex.
  rewrite IsHex_HexStr, ParseHex_HexStr. cbn [negb].
  now rewrite (reads_proof gArgs MAX_SIZE Hmax p Hwf trailing).
Qed.

End HexTrailing.

(* ===================================================================== *)
(** ** [bench/chained_tx.cpp]: what the builders return *)
(* ===================================================================== *)

Module ChainedTxFacts.

Import ChainedTx.

Section Facts.

Context {env : Environment}.

Lemma chain_loop_unfold (fuel chainLength : nat) (chain : list CTransaction) :
  chain_loop fuel chainLength chain
  = if (length chain <? chainLength)%nat then
      match fuel with
      | O => OutOfFuel
      | S fuel' =>
        match last chain with
        | None => Undefined
        | Some back =>
          match head (vout back) with
          | None => Undefined
          | Some out0 =>
            chain_loop fuel' chainLength
                       (chain ++ [spend_one back (nValue out0)])
          end
        end
      end
    else Returned chain.
Proof. destruct fuel; reflexivity. Qed.

(** Every transaction of the chain has exactly one output, to
    [SCRIPT_PUB_KEY]. *)
Lemma vout_nth_chained (utxo : CTxIn) (k : nat) :
  vout (nth_chained utxo k)
  = [mkTxOut (value0 (nth_chained utxo k)) SCRIPT_PUB_KEY].
Proof. destruct k; reflexivity. Qed.

Lemma chained_snoc (utxo : CTxIn) (m : nat) :
  map (nth_chained utxo) (seq 0 (S m))
  = map (nth_chained utxo) (seq 0 m) ++ [nth_chained utxo m].
Proof. now rewrite seq_S, map_app. Qed.

(** The loop, started on the first [m] transactions of the chain, returns
    the first [max m chainLength] when it has the fuel for the missing ones. *)
Lemma chain_loop_spec (utxo : CTxIn) (chainLength fuel : nat) :
  forall m : nat,
  (1 <= m)%nat ->
  chain_loop fuel chainLength (map (nth_chained utxo) (seq 0 m))
  = if (chainLength - m <=? fuel)%nat
    then Returned (map (nth_chained utxo) (seq 0 (Nat.max m chainLength)))
    else OutOfFuel.
Proof.
  induction fuel as [|fuel IH]; intros m Hm; rewrite chain_loop_unfold;
    rewrite length_map, length_seq.
  - destruct (m <? chainLength)%nat eqn:Hlt.
    + apply Nat.ltb_lt in Hlt.
      replace (chainLength - m <=? 0)%nat with false
        by (symmetry; apply Nat.leb_gt; lia).
      reflexivity.
    + apply Nat.ltb_ge in Hlt.
      replace (chainLength - m <=? 0)%nat with true
        by (symmetry; apply Nat.leb_le; lia).
      now rewrite Nat.max_l by lia.
  - destruct (m <? chainLength)%nat eqn:Hlt.
    + apply Nat.ltb_lt in Hlt. destruct m as [|m]; [lia|].
      assert (Hlast : last (map (nth_chained utxo) (seq 0 (S m)))
                      = Some (nth_chained utxo m))
        by (rewrite chained_snoc; apply last_snoc).
      rewrite Hlast, vout_nth_chained. cbn [head nValue].
      change (spend_one (nth_chained utxo m) (value0 (nth_chained utxo m)))
        with (nth_chained utxo (S m)).
      rewrite <- (chained_snoc utxo (S m)), IH by lia.
      replace (Nat.max (S (S m)) chainLength) with (Nat.max (S m) chainLength)
        by lia.
      destruct (chainLength - S (S m) <=? fuel)%nat eqn:Hf.
      * apply Nat.leb_le in Hf.
        replace (chainLength - S m <=? S fuel)%nat with true
          by (symmetry; apply Nat.leb_le; lia).
        reflexivity.
      * apply Nat.leb_gt in Hf.
        replace (chainLength - S m <=? S fuel)%nat with false
          by (symmetry; apply Nat.leb_gt; lia).
        reflexivity.
    + apply Nat.ltb_ge in Hlt.
      replace (chainLength - m <=? S fuel)%nat with true
        by (symmetry; apply Nat.leb_le; lia).
      now rewrite Nat.max_l by lia.
Qed.

(** [oneInOneOutChain], in closed form. *)
Lemma oneInOneOutChain_spec (fuel : nat) (utxo : CTxIn) (chainLength : nat) :
  oneInOneOutChain fuel utxo chainLength
  = if (chainLength - 1 <=? fuel)%nat then
      if (chainLength =? 0)%nat then AssertionFailed
      else Returned (map (nth_chained utxo) (seq 0 chainLength))
    else OutOfFuel.
Proof.
  unfold oneInOneOutChain.
  change [toTx utxo] with (map (nth_chained utxo) (seq 0 1)).
  rewrite chain_loop_spec by lia.
  destruct (chainLength - 1 <=? fuel)%nat; [|reflexivity].
  rewrite length_map, length_seq.
  destruct chainLength as [|n]; [reflexivity|].
  replace (Nat.max 1 (S n)) with (S n) by lia.
  now rewrite Nat.eqb_refl.
Qed.

(** X17. [oneInOneOutChain] asked for a chain of at least one transaction
    returns, once the loop has fuel for its [chainLength - 1] turns, exactly
    [chainLength] transactions, so that its closing [assert] holds; asked for
    an empty chain it builds one transaction all the same and the [assert]
    fails. *)
Theorem oneInOneOutChain_returns_chainLength (fuel : nat) (utxo : CTxIn)
    (chainLength : nat) :
  oneInOneOutChain fuel utxo 0 = AssertionFailed
  /\ ((1 <= chainLength)%nat ->
      (chainLength - 1 <= fuel)%nat ->
      exists chain,
        oneInOneOutChain fuel utxo chainLength = Returned chain
        /\ length chain = chainLength
        /\ chain !! 0%nat = Some (toTx utxo))
  /\ ((fuel < chainLength - 1)%nat ->
      oneInOneOutChain fuel utxo chainLength = OutOfFuel).
Proof.
  split; [|split].
  - now rewrite oneInOneOutChain_spec.
  - intros Hn Hfuel. rewrite oneInOneOutChain_spec.
    replace (chainLength - 1 <=? fuel)%nat with true
      by (symmetry; apply Nat.leb_le; lia).
    replace (chainLength =? 0)%nat with false
      by (symmetry; apply Nat.eqb_neq; lia).
    eexists. split; [reflexivity|]. rewrite length_map, length_seq.
    split; [reflexivity|]. destruct chainLength; [lia|reflexivity].
  - intros Hfuel. rewrite oneInOneOutChain_spec.
    replace (chainLength - 1 <=? fuel)%nat with false
      by (symmetry; apply Nat.leb_gt; lia).
    reflexivity.
Qed.

Lemma lookup_chained (utxo : CTxIn) (n k : nat) (tx : CTransaction) :
  map (nth_chained utxo) (seq 0 n) !! k = Some tx ->
  (k < n)%nat /\ tx = nth_chained utxo k.
Proof.
  intros Hk.
  assert (Hlt : (k < n)%nat).
  { apply lookup_lt_Some in Hk. now rewrite length_map, length_seq in Hk. }
  split; [exact Hlt|].
  change (map (nth_chained utxo) (seq 0 n)) with (nth_chained utxo <$> seq 0 n)
    in Hk.
  rewrite list_lookup_fmap, lookup_seq_lt in Hk by exact Hlt.
  simpl in Hk. congruence.
Qed.

Lemma returned_chain (fuel : nat) (utxo : CTxIn) (chainLength : nat)
    (chain : list CTransaction) :
  oneInOneOutChain fuel utxo chainLength = Returned chain ->
  chain = map (nth_chained utxo) (seq 0 chainLength).
Proof.
  rewrite oneInOneOutChain_spec.
  destruct (_ <=? _)%nat; [|discriminate].
  destruct (_ =? _)%nat; [discriminate|]. congruence.
Qed.

(** X18. In the chain [oneInOneOutChain] returns every transaction has one
    input, signed with [SCRIPT_SIG], and one output, to [SCRIPT_PUB_KEY]; the
    first spends the outpoint it was given and each following one spends
    output 0 of the transaction just before it. *)
Theorem oneInOneOutChain_links_each_transaction_to_the_previous (fuel : nat)
    (utxo : CTxIn) (chainLength : nat) (chain : list CTransaction)
    (k : nat) (tx : CTransaction) :
  oneInOneOutChain fuel utxo chainLength = Returned chain ->
  chain !! k = Some tx ->
  length (vin tx) = 1%nat
  /\ Forall (fun i => scriptSig i = SCRIPT_SIG) (vin tx)
  /\ (exists v, vout tx = [mkTxOut v SCRIPT_PUB_KEY])
  /\ (k = 0%nat -> map prevout (vin tx) = [prevout utxo])
  /\ (forall parent, chain !! (k - 1)%nat = Some parent -> (1 <= k)%nat ->
      map prevout (vin tx) = [mkOutPoint (GetId parent) 0]).
Proof.
  intros Hret Hk. apply returned_chain in Hret. subst chain.
  apply lookup_chained in Hk as [Hlt ->].
  split; [|split; [|split; [|split]]].
  - now destruct k.
  - destruct k; repeat constructor.
  - eexists. apply vout_nth_chained.
  - now intros ->.
  - intros parent Hp Hk1. apply lookup_chained in Hp as [_ ->].
    destruct k as [|k]; [lia|]. simpl. now rewrite Nat.sub_0_r.
Qed.

Lemma value0_nth_chained (utxo : CTxIn) (k : nat) :
  Z.of_nat k < 2 ^ 52 ->
  value0 (nth_chained utxo k) = 2500000000 - 1337 * (Z.of_nat k + 1).
Proof.
  induction k as [|k IH]; intros Hk; [reflexivity|].
  cbn [nth_chained]. unfold spend_one, value0 at 1. cbn.
  rewrite IH by lia. unfold Amount_sub, Amount_scale, SATOSHI.
  change (wrap_i64 (1337 * 1)) with 1337.
  rewrite wrap_i64_id by (unfold in_i64, INT64_MIN, INT64_MAX; lia). lia.
Qed.

(** X19. Each transaction of the chain pays 1337 units less than the one
    before it: the output at position [k] is worth
    [25 * COIN - 1337 * (k + 1)], which is positive exactly for the first
    1_869_857 positions. *)
Theorem oneInOneOutChain_output_values (fuel : nat) (utxo : CTxIn)
    (chainLength : nat) (chain : list CTransaction) (k : nat)
    (tx : CTransaction) :
  oneInOneOutChain fuel utxo chainLength = Returned chain ->
  chain !! k = Some tx ->
  Z.of_nat k < 2 ^ 52 ->
  value0 tx = 25 * COIN - 1337 * (Z.of_nat k + 1)
  /\ (0 < value0 tx <-> Z.of_nat k < 1869857).
Proof.
  intros Hret Hk Hsmall. apply returned_chain in Hret. subst chain.
  apply lookup_chained in Hk as [_ ->].
  rewrite value0_nth_chained by exact Hsmall. unfold COIN. split; lia.
Qed.

(** *** The tree *)

Lemma length_mine_blocks (n : nat) (node : Node) :
  length (fst (mine_blocks n node)) = n.
Proof.
  revert node. induction n as [|n IH]; intros node; [reflexivity|].
  cbn [mine_blocks]. destruct (MineBlock node) as [txin node1].
  specialize (IH node1). destruct (mine_blocks n node1) as [utxos node2].
  simpl in *. now rewrite IH.
Qed.

Lemma length_createUTXOs (n : nat) (node : Node) :
  length (fst (createUTXOs n node)) = n.
Proof.
  pose proof (length_mine_blocks n node) as Hlen. unfold createUTXOs.
  destruct (mine_blocks n node) as [utxos node1].
  now destruct (mine_blocks (COINBASE_MATURITY + 1) node1).
Qed.

(** [n] calls of [MineBlock] in a row: call number [i] is made on the node
    the [i] calls before it have left. *)
Lemma mine_blocks_calls (n : nat) (node : Node) :
  mine_blocks n node
  = (map (fun i =>
            fst (MineBlock (Nat.iter i (fun nd => snd (MineBlock nd)) node)))
         (seq 0 n),
     Nat.iter n (fun nd => snd (MineBlock nd)) node).
Proof.
  revert node. induction n as [|n IH]; intros node; [reflexivity|].
  cbn [mine_blocks]. destruct (MineBlock node) as [txin node1] eqn:Hmine.
  rewrite (IH node1). cbn [seq map].
  change (Nat.iter 0 (fun nd => snd (MineBlock nd)) node) with node.
  rewrite Hmine. cbn [fst]. rewrite <- seq_shift, map_map.
  assert (Hnode : node1 = snd (MineBlock node)) by now rewrite Hmine.
  f_equal.
  - f_equal. apply map_ext. intros i. now rewrite Nat.iter_succ_r, Hnode.
  - now rewrite Nat.iter_succ_r, Hnode.
Qed.

(** X20. [createUTXOs] calls [MineBlock] [n + COINBASE_MATURITY + 1] times
    in a row, each call on the node the call before has left: it returns the
    inputs of the first [n] calls, in the order of the calls, and leaves the
    node as the last call has left it. *)
Theorem createUTXOs_mines_maturity_blocks_on_top (n : nat) (node : Node) :
  let after := fun k : nat =>
    Nat.iter k (fun nd => snd (MineBlock nd)) node in
  createUTXOs n node
  = (map (fun i => fst (MineBlock (after i))) (seq 0 n),
     after (n + (COINBASE_MATURITY + 1))%nat).
Proof.
  intros after. unfold createUTXOs, after.
  rewrite !mine_blocks_calls.
  now rewrite (Nat.add_comm n), (Nat.iter_add (COINBASE_MATURITY + 1) n).
Qed.

Lemma tree_txs_closed (d : nat) : tree_txs d = (2 ^ S d - 1)%nat.
Proof.
  induction d as [|d IH]; [reflexivity|].
  cbn [tree_txs]. rewrite IH.
  assert (1 <= 2 ^ S d)%nat by (apply Nat.neq_0_lt_0, Nat.pow_nonzero; lia).
  rewrite (Nat.pow_succ_r' 2 (S d)). lia.
Qed.

Lemma value0_head (tx : CTransaction) :
  vout tx <> [] -> exists o, head (vout tx) = Some o /\ nValue o = value0 tx.
Proof.
  unfold value0. destruct (vout tx) as [|o l]; [contradiction|].
  intros _. now exists o.
Qed.

(** The loop on a queue of at least two transactions that is the tail of
    the vector: it returns the vector with one transaction more per pair, the
    transaction number [i] spending the entries [2 i] and [2 i + 1] counted
    from the head of the queue. *)
Lemma tree_loop_spec (fuel : nat) :
  forall (queue chain done : list CTransaction),
  chain = done ++ queue ->
  (2 <= length queue)%nat ->
  (length queue - 1 <= fuel)%nat ->
  Forall (fun tx => vout tx <> []) queue ->
  exists chain',
    tree_loop fuel queue chain = Returned chain'
    /\ length chain' = (length chain + length queue - 1)%nat
    /\ chain `prefix_of` chain'
    /\ forall i : nat,
         (i < length queue - 1)%nat ->
         exists t1 t2,
           chain' !! (length done + 2 * i)%nat = Some t1
           /\ chain' !! (length done + 2 * i + 1)%nat = Some t2
           /\ chain' !! (length chain + i)%nat
              = Some (spend_two t1 t2 (value0 t1) (value0 t2)).
Proof.
  induction fuel as [|fuel IH]; intros queue chain done Hchain Hlen Hfuel Hout;
    [lia|].
  destruct queue as [|t1 [|t2 q2]]; cbn [length] in *; try lia.
  apply Forall_cons in Hout as [Ho1 Hout].
  apply Forall_cons in Hout as [Ho2 Hout].
  destruct (value0_head t1 Ho1) as (o1 & Hh1 & Hv1).
  destruct (value0_head t2 Ho2) as (o2 & Hh2 & Hv2).
  cbn [tree_loop]. rewrite Hh1, Hh2, Hv1, Hv2.
  set (txref := spend_two t1 t2 (value0 t1) (value0 t2)).
  assert (L1 : (chain ++ [txref]) !! length done = Some t1).
  { rewrite Hchain, <- app_assoc. now apply list_lookup_middle. }
  assert (L2 : (chain ++ [txref]) !! (length done + 1)%nat = Some t2).
  { rewrite Hchain, <- app_assoc.
    change (done ++ (t1 :: t2 :: q2) ++ [txref])
      with (done ++ [t1] ++ t2 :: q2 ++ [txref]).
    rewrite app_assoc. apply list_lookup_middle.
    rewrite length_app. simpl. lia. }
  assert (L3 : (chain ++ [txref]) !! length chain = Some txref)
    by now apply list_lookup_middle.
  destruct q2 as [|t3 q3].
  - exists (chain ++ [txref]). split; [reflexivity|].
    split; [rewrite length_app; simpl; lia|].
    split; [now apply prefix_app_r|].
    intros i Hi. assert (i = 0)%nat as -> by (simpl in Hi; lia).
    exists t1, t2. rewrite !Nat.add_0_r. now repeat split.
  - destruct (IH ((t3 :: q3) ++ [txref]) (chain ++ [txref])
                (done ++ [t1; t2])) as (chain' & Hrun & Hlen' & Hpre & Hidx).
    + rewrite Hchain, <- !app_assoc. reflexivity.
    + rewrite length_app. simpl. lia.
    + rewrite length_app. simpl in *. lia.
    + apply Forall_app. split; [exact Hout|]. repeat constructor. discriminate.
    + exists chain'. split; [exact Hrun|].
      rewrite !length_app in *. cbn [length] in *.
      split; [lia|]. split.
      * etransitivity; [|exact Hpre]. now apply prefix_app_r.
      * intros [|j] Hi.
        -- exists t1, t2. rewrite !Nat.add_0_r.
           repeat split; eapply prefix_lookup_Some; eauto.
        -- destruct (Hidx j ltac:(lia)) as (u1 & u2 & H1 & H2 & H3).
           exists u1, u2.
           replace (length done + 2 * S j)%nat
             with (length done + 2 + 2 * j)%nat by lia.
           replace (length chain + S j)%nat with (length chain + 1 + j)%nat
             by lia.
           now repeat split.
Qed.

Lemma toTx_has_output (l : list CTxIn) :
  Forall (fun tx => vout tx <> []) (map toTx l).
Proof. induction l; constructor; [discriminate|assumption]. Qed.

(** X21. [twoInOneOutTree] asked for a depth of 1 to 51 returns, once its
    loop has fuel for its [2^depth - 1] turns, [2^(depth+1) - 1]
    transactions, the number it announces, so that its closing [assert]
    holds; the first [2^depth] are the leaves, one per mined coinbase.
    Asked for depth 0 it calls [front()] on an empty queue. *)
Theorem twoInOneOutTree_returns_all_nodes (fuel : nat) (node : Node)
    (treeDepth : nat) :
  ((1 <= fuel)%nat -> fst (twoInOneOutTree fuel node 0) = Undefined)
  /\ ((1 <= treeDepth <= 51)%nat ->
      (2 ^ treeDepth - 1 <= fuel)%nat ->
      exists chain,
        twoInOneOutTree fuel node treeDepth
        = (Returned chain, snd (createUTXOs (2 ^ treeDepth) node))
        /\ length chain = (2 ^ S treeDepth - 1)%nat
        /\ take (2 ^ treeDepth) chain
           = map toTx (fst (createUTXOs (2 ^ treeDepth) node))).
Proof.
  split.
  - intros Hfuel. unfold twoInOneOutTree.
    pose proof (length_createUTXOs (2 ^ 0) node) as Hlen.
    destruct (createUTXOs (2 ^ 0) node) as [utxos node1]. cbn [fst] in Hlen.
    destruct utxos as [|u [|u2 l]]; try discriminate Hlen.
    destruct fuel; [lia|]. reflexivity.
  - intros Hd Hfuel. unfold twoInOneOutTree.
    pose proof (length_createUTXOs (2 ^ treeDepth) node) as Hlen.
    destruct (createUTXOs (2 ^ treeDepth) node) as [utxos node1].
    cbn [fst snd] in *.
    assert (Hleafs : (2 <= 2 ^ treeDepth)%nat).
    { destruct treeDepth as [|d]; [lia|]. rewrite Nat.pow_succ_r'.
      assert (1 <= 2 ^ d)%nat by (apply Nat.neq_0_lt_0, Nat.pow_nonzero; lia).
      lia. }
    destruct (tree_loop_spec fuel (map toTx utxos) (map toTx utxos) [])
      as (chain' & Hrun & Hlen' & Hpre & _).
    + reflexivity.
    + rewrite length_map. lia.
    + rewrite length_map. lia.
    + apply toTx_has_output.
    + rewrite Hrun. rewrite length_map, Hlen in Hlen'.
      assert (Hsize : length chain' = (2 ^ S treeDepth - 1)%nat)
        by (rewrite Nat.pow_succ_r'; lia).
      rewrite tree_txs_closed, Hsize, Nat.eqb_refl.
      exists chain'. split; [reflexivity|]. split; [exact Hsize|].
      destruct Hpre as [rest ->].
      rewrite <- Hlen, <- (length_map toTx utxos). apply take_app_length.
Qed.

(** With the fuel for its turns the loop of the tree returns. *)
Lemma twoInOneOutTree_returns_all_nodes_aux (fuel : nat) (node : Node)
    (treeDepth : nat) :
  (1 <= treeDepth)%nat ->
  (2 ^ treeDepth - 1 <= fuel)%nat ->
  exists chain,
    tree_loop fuel (map toTx (fst (createUTXOs (2 ^ treeDepth) node)))
              (map toTx (fst (createUTXOs (2 ^ treeDepth) node)))
    = Returned chain
    /\ length (fst (createUTXOs (2 ^ treeDepth) node)) = (2 ^ treeDepth)%nat.
Proof.
  intros Hd Hfuel.
  pose proof (length_createUTXOs (2 ^ treeDepth) node) as Hlen.
  destruct (tree_loop_spec fuel
              (map toTx (fst (createUTXOs (2 ^ treeDepth) node)))
              (map toTx (fst (createUTXOs (2 ^ treeDepth) node))) [])
    as (chain' & Hrun & _).
  - reflexivity.
  - rewrite length_map, Hlen.
    destruct treeDepth as [|d]; [lia|]. rewrite Nat.pow_succ_r'.
    assert (1 <= 2 ^ d)%nat by (apply Nat.neq_0_lt_0, Nat.pow_nonzero; lia).
    lia.
  - rewrite length_map, Hlen. exact Hfuel.
  - apply toTx_has_output.
  - exists chain'. split; [exact Hrun|exact Hlen].
Qed.

Local Abbreviation sumv q :=
  (foldr (fun (tx : CTransaction) (s : Z) => value0 tx + s) 0 q).

Lemma sumv_app (q1 q2 : list CTransaction) : sumv (q1 ++ q2) = sumv q1 + sumv q2.
Proof. induction q1 as [|tx q1 IH]; simpl; [|rewrite IH]; lia. Qed.

Lemma sumv_lower (q : list CTransaction) :
  Forall (fun tx => vout tx <> [] /\ 1337 <= value0 tx) q ->
  1337 * Z.of_nat (length q) <= sumv q.
Proof.
  induction 1 as [|tx q [_ Hv] _ IH]; [simpl; lia|].
  cbn [length foldr]. rewrite Nat2Z.inj_succ. lia.
Qed.

(** The transaction the loop ends on holds the values of the queue less
    1337 units per transaction made. *)
Lemma tree_loop_value (fuel : nat) :
  forall (queue chain chain' : list CTransaction),
  tree_loop fuel queue chain = Returned chain' ->
  Forall (fun tx => vout tx <> [] /\ 1337 <= value0 tx) queue ->
  sumv queue <= INT64_MAX ->
  exists top,
    last chain' = Some top
    /\ value0 top = sumv queue - 1337 * (Z.of_nat (length queue) - 1).
Proof.
  induction fuel as [|fuel IH]; intros queue chain chain' Hrun Hq Hsum;
    [discriminate|].
  destruct queue as [|t1 [|t2 q2]]; try discriminate.
  pose proof Hq as Hall.
  apply Forall_cons in Hq as [[Ho1 Hv1] Hq].
  apply Forall_cons in Hq as [[Ho2 Hv2] Hq].
  destruct (value0_head t1 Ho1) as (o1 & Hh1 & He1).
  destruct (value0_head t2 Ho2) as (o2 & Hh2 & He2).
  cbn [tree_loop] in Hrun. rewrite Hh1, Hh2, He1, He2 in Hrun.
  pose proof (sumv_lower q2 Hq) as Hlow. cbn [foldr length] in Hsum |- *.
  assert (Hval : value0 (spend_two t1 t2 (value0 t1) (value0 t2))
                 = value0 t1 + value0 t2 - 1337).
  { unfold spend_two, value0 at 1. cbn.
    unfold Amount_sub, Amount_scale, SATOSHI.
    change (wrap_i64 (1337 * 1)) with 1337.
    rewrite Amount_add_exact
      by (unfold in_i64, INT64_MIN, INT64_MAX in *; lia).
    apply wrap_i64_id. unfold in_i64, INT64_MIN, INT64_MAX in *. lia. }
  destruct q2 as [|t3 q3].
  - injection Hrun as <-. eexists. split; [apply last_snoc|].
    rewrite Hval. simpl. lia.
  - apply IH in Hrun as (top & Hlast & Htop).
    + exists top. split; [exact Hlast|]. rewrite Htop, sumv_app.
      rewrite length_app. cbn [foldr length]. rewrite Hval.
      rewrite Nat2Z.inj_add, !Nat2Z.inj_succ. simpl Z.of_nat. lia.
    + apply Forall_app. split; [exact Hq|]. constructor; [|constructor].
      split; [discriminate|]. rewrite Hval. lia.
    + rewrite sumv_app. cbn [foldr]. rewrite Hval.
      cbn [foldr length] in *. lia.
Qed.

Lemma sumv_leaves (l : list CTxIn) :
  sumv (map toTx l) = 2499998663 * Z.of_nat (length l).
Proof.
  induction l as [|u l IH]; [reflexivity|].
  cbn [map foldr length]. rewrite IH, Nat2Z.inj_succ.
  change (value0 (toTx u)) with 2499998663. lia.
Qed.

(** The transaction the loop makes of two entries, written out. *)
Lemma spend_two_written_out (t1 t2 : CTransaction) :
  1337 <= value0 t1 -> 1337 <= value0 t2 ->
  value0 t1 + value0 t2 <= INT64_MAX ->
  spend_two t1 t2 (value0 t1) (value0 t2)
  = mkTx CURRENT_VERSION
         [mkTxIn (mkOutPoint (GetId t1) 0) SCRIPT_SIG SEQUENCE_FINAL;
          mkTxIn (mkOutPoint (GetId t2) 0) SCRIPT_SIG SEQUENCE_FINAL]
         [mkTxOut (value0 t1 + value0 t2 - 1337) SCRIPT_PUB_KEY] 0.
Proof.
  intros H1 H2 Hsum.
  assert (Hval : Amount_sub (Amount_add (value0 t1) (value0 t2))
                            (Amount_scale 1337 SATOSHI)
                 = value0 t1 + value0 t2 - 1337).
  { unfold Amount_sub, Amount_scale, SATOSHI.
    change (wrap_i64 (1337 * 1)) with 1337.
    rewrite Amount_add_exact
      by (unfold in_i64, INT64_MIN, INT64_MAX in *; lia).
    apply wrap_i64_id. unfold in_i64, INT64_MIN, INT64_MAX in *. lia. }
  unfold spend_two, MakeTransactionRef, CTxIn_new. now rewrite Hval.
Qed.

(** The loop on a queue that is the tail of the vector, of entries worth
    1337 units or more and together within 64 bits: the transaction number
    [i] it adds has for inputs output 0 of the entries [2 i] and [2 i + 1]
    counted from the head of the queue, and pays their values less 1337
    units. *)
Lemma tree_loop_pairs (fuel : nat) :
  forall (queue chain done : list CTransaction),
  chain = done ++ queue ->
  (2 <= length queue)%nat ->
  (length queue - 1 <= fuel)%nat ->
  Forall (fun tx => vout tx <> [] /\ 1337 <= value0 tx) queue ->
  sumv queue <= INT64_MAX ->
  exists chain',
    tree_loop fuel queue chain = Returned chain'
    /\ chain `prefix_of` chain'
    /\ forall i : nat,
         (i < length queue - 1)%nat ->
         exists t1 t2,
           chain' !! (length done + 2 * i)%nat = Some t1
           /\ chain' !! (length done + 2 * i + 1)%nat = Some t2
           /\ chain' !! (length chain + i)%nat
              = Some (mkTx CURRENT_VERSION
                        [mkTxIn (mkOutPoint (GetId t1) 0) SCRIPT_SIG
                                SEQUENCE_FINAL;
                         mkTxIn (mkOutPoint (GetId t2) 0) SCRIPT_SIG
                                SEQUENCE_FINAL]
                        [mkTxOut (value0 t1 + value0 t2 - 1337)
                                 SCRIPT_PUB_KEY] 0).
Proof.
  induction fuel as [|fuel IH];
    intros queue chain done Hchain Hlen Hfuel Hq Hsum; [lia|].
  destruct queue as [|t1 [|t2 q2]]; cbn [length] in *; try lia.
  apply Forall_cons in Hq as [[Ho1 Hv1] Hq].
  apply Forall_cons in Hq as [[Ho2 Hv2] Hq].
  destruct (value0_head t1 Ho1) as (o1 & Hh1 & He1).
  destruct (value0_head t2 Ho2) as (o2 & Hh2 & He2).
  cbn [tree_loop]. rewrite Hh1, Hh2, He1, He2.
  pose proof (sumv_lower q2 Hq) as Hlow. cbn [foldr] in Hsum.
  assert (Hpair : value0 t1 + value0 t2 <= INT64_MAX) by lia.
  rewrite (spend_two_written_out t1 t2 Hv1 Hv2 Hpair).
  set (txref := mkTx CURRENT_VERSION _ _ 0).
  assert (Hval : value0 txref = value0 t1 + value0 t2 - 1337) by reflexivity.
  assert (L1 : (chain ++ [txref]) !! length done = Some t1).
  { rewrite Hchain, <- app_assoc. now apply list_lookup_middle. }
  assert (L2 : (chain ++ [txref]) !! (length done + 1)%nat = Some t2).
  { rewrite Hchain, <- app_assoc.
    change (done ++ (t1 :: t2 :: q2) ++ [txref])
      with (done ++ [t1] ++ t2 :: q2 ++ [txref]).
    rewrite app_assoc. apply list_lookup_middle.
    rewrite length_app. simpl. lia. }
  assert (L3 : (chain ++ [txref]) !! length chain = Some txref)
    by now apply list_lookup_middle.
  destruct q2 as [|t3 q3].
  - exists (chain ++ [txref]). split; [reflexivity|].
    split; [now apply prefix_app_r|].
    intros i Hi. assert (i = 0)%nat as -> by (simpl in Hi; lia).
    exists t1, t2. rewrite !Nat.add_0_r. now repeat split.
  - destruct (IH ((t3 :: q3) ++ [txref]) (chain ++ [txref])
                (done ++ [t1; t2])) as (chain' & Hrun & Hpre & Hidx).
    + rewrite Hchain, <- !app_assoc. reflexivity.
    + rewrite length_app. simpl. lia.
    + rewrite length_app. simpl in *. lia.
    + apply Forall_app. split; [exact Hq|]. constructor; [|constructor].
      split; [discriminate|]. rewrite Hval. lia.
    + rewrite sumv_app. cbn [foldr] in *. rewrite Hval. lia.
    + exists chain'. split; [exact Hrun|].
      rewrite !length_app in *. cbn [length] in *. split.
      * etransitivity; [|exact Hpre]. now apply prefix_app_r.
      * intros [|j] Hi.
        -- exists t1, t2. rewrite !Nat.add_0_r.
           repeat split; eapply prefix_lookup_Some; eauto.
        -- destruct (Hidx j ltac:(lia)) as (u1 & u2 & H1 & H2 & H3).
           exists u1, u2.
           replace (length done + 2 * S j)%nat
             with (length done + 2 + 2 * j)%nat by lia.
           replace (length chain + S j)%nat with (length chain + 1 + j)%nat
             by lia.
           now repeat split.
Qed.

(** X22. The tree is laid out like a binary heap read backwards: for a depth
    of 1 to 31, with [n = 2^depth] leaves at the positions [0] to [n - 1] of
    the returned vector, the transaction at position [n + i] has two inputs,
    output 0 of the entry at position [2 i] and output 0 of the entry at
    position [2 i + 1], each with [SCRIPT_SIG], and one output, to
    [SCRIPT_PUB_KEY], of their two values less 1337 units. Every entry [j]
    but the last is thus an input of the entry at position [n + j / 2]. *)
Theorem twoInOneOutTree_spends_entries_in_pairs (fuel : nat) (node : Node)
    (treeDepth : nat) :
  (1 <= treeDepth <= 31)%nat ->
  (2 ^ treeDepth - 1 <= fuel)%nat ->
  exists chain,
    fst (twoInOneOutTree fuel node treeDepth) = Returned chain
    /\ (forall i : nat,
          (i < 2 ^ treeDepth - 1)%nat ->
          exists t1 t2,
            chain !! (2 * i)%nat = Some t1
            /\ chain !! (2 * i + 1)%nat = Some t2
            /\ chain !! (2 ^ treeDepth + i)%nat
               = Some (mkTx CURRENT_VERSION
                         [mkTxIn (mkOutPoint (GetId t1) 0) SCRIPT_SIG
                                 SEQUENCE_FINAL;
                          mkTxIn (mkOutPoint (GetId t2) 0) SCRIPT_SIG
                                 SEQUENCE_FINAL]
                         [mkTxOut (value0 t1 + value0 t2 - 1337)
                                  SCRIPT_PUB_KEY] 0))
    /\ (forall (j : nat) (tj : CTransaction),
          (j < 2 ^ S treeDepth - 2)%nat ->
          chain !! j = Some tj ->
          exists t,
            chain !! (2 ^ treeDepth + j / 2)%nat = Some t
            /\ vin t !! (j mod 2)%nat
               = Some (mkTxIn (mkOutPoint (GetId tj) 0) SCRIPT_SIG
                              SEQUENCE_FINAL)).
Proof.
  intros Hd Hfuel. unfold twoInOneOutTree.
  pose proof (length_createUTXOs (2 ^ treeDepth) node) as Hlen.
  destruct (createUTXOs (2 ^ treeDepth) node) as [utxos node1].
  cbn [fst snd] in *.
  assert (Hleafs : (2 <= 2 ^ treeDepth)%nat).
  { destruct treeDepth as [|d]; [lia|]. rewrite Nat.pow_succ_r'.
    assert (1 <= 2 ^ d)%nat by (apply Nat.neq_0_lt_0, Nat.pow_nonzero; lia).
    lia. }
  assert (Hpow : Z.of_nat (2 ^ treeDepth) = 2 ^ Z.of_nat treeDepth).
  { rewrite Nat2Z.inj_pow. reflexivity. }
  assert (Hbound : 2 ^ Z.of_nat treeDepth <= 2 ^ 31)
    by (apply Z.pow_le_mono_r; lia).
  destruct (tree_loop_spec fuel (map toTx utxos) (map toTx utxos) [])
    as (chain' & Hrun & Hlen' & _).
  { reflexivity. }
  { rewrite length_map. lia. }
  { rewrite length_map. lia. }
  { apply toTx_has_output. }
  destruct (tree_loop_pairs fuel (map toTx utxos) (map toTx utxos) [])
    as (chain'' & Hrun' & _ & Hidx).
  { reflexivity. }
  { rewrite length_map. lia. }
  { rewrite length_map. lia. }
  { clear. induction utxos as [|u l IH]; constructor; [|exact IH].
    split; [discriminate|]. change (value0 (toTx u)) with 2499998663. lia. }
  { rewrite sumv_leaves, Hlen, Hpow. unfold INT64_MAX. lia. }
  rewrite Hrun in Hrun'. injection Hrun' as <-.
  rewrite Hrun. rewrite length_map, Hlen in Hlen', Hidx.
  assert (Hsize : length chain' = (2 ^ S treeDepth - 1)%nat)
    by (rewrite Nat.pow_succ_r'; lia).
  rewrite tree_txs_closed, Hsize, Nat.eqb_refl.
  exists chain'. split; [reflexivity|].
  assert (Hpairs : forall i : nat,
            (i < 2 ^ treeDepth - 1)%nat ->
            exists t1 t2,
              chain' !! (2 * i)%nat = Some t1
              /\ chain' !! (2 * i + 1)%nat = Some t2
              /\ chain' !! (2 ^ treeDepth + i)%nat
                 = Some (mkTx CURRENT_VERSION
                           [mkTxIn (mkOutPoint (GetId t1) 0) SCRIPT_SIG
                                   SEQUENCE_FINAL;
                            mkTxIn (mkOutPoint (GetId t2) 0) SCRIPT_SIG
                                   SEQUENCE_FINAL]
                           [mkTxOut (value0 t1 + value0 t2 - 1337)
                                    SCRIPT_PUB_KEY] 0)).
  { intros i Hi. destruct (Hidx i Hi) as (t1 & t2 & H1 & H2 & H3).
    exists t1, t2. now repeat split. }
  split; [exact Hpairs|].
  intros j tj Hj Hlook.
  pose proof (Nat.div_mod_eq j 2) as Hdm.
  pose proof (Nat.mod_upper_bound j 2 ltac:(lia)) as Hmod.
  rewrite Nat.pow_succ_r' in Hj.
  destruct (Hpairs (j / 2)%nat ltac:(lia)) as (t1 & t2 & H1 & H2 & H3).
  eexists. split; [exact H3|].
  destruct (j mod 2)%nat as [|[|r]] eqn:Hr; [| |lia].
  - rewrite Nat.add_0_r in Hdm. rewrite <- Hdm, Hlook in H1.
    injection H1 as ->. reflexivity.
  - rewrite <- Hdm, Hlook in H2. injection H2 as ->. reflexivity.
Qed.

(** X23. Nothing is lost but the fees: for a depth of 1 to 31 the last
    transaction of the returned vector, the top of the tree, is worth the
    [2^depth] leaves of [25 * COIN - 1337] units each less 1337 units for each
    of the [2^depth - 1] transactions above them. *)
Theorem twoInOneOutTree_top_holds_all_value (fuel : nat) (node : Node)
    (treeDepth : nat) :
  (1 <= treeDepth <= 31)%nat ->
  (2 ^ treeDepth - 1 <= fuel)%nat ->
  exists chain top,
    fst (twoInOneOutTree fuel node treeDepth) = Returned chain
    /\ last chain = Some top
    /\ value0 top
       = 2 ^ Z.of_nat treeDepth * (25 * COIN - 1337)
         - 1337 * (2 ^ Z.of_nat treeDepth - 1).
Proof.
  intros Hd Hfuel.
  destruct (twoInOneOutTree_returns_all_nodes_aux fuel node treeDepth)
    as (chain & Hrun & Hlen); [lia|exact Hfuel|].
  exists chain.
  assert (Hpow : Z.of_nat (2 ^ treeDepth) = 2 ^ Z.of_nat treeDepth).
  { rewrite Nat2Z.inj_pow. reflexivity. }
  assert (Hbound : 2 ^ Z.of_nat treeDepth <= 2 ^ 31)
    by (apply Z.pow_le_mono_r; lia).
  assert (Hpos : 0 < 2 ^ Z.of_nat treeDepth) by (apply Z.pow_pos_nonneg; lia).
  destruct (tree_loop_value fuel _ _ chain Hrun) as (top & Hlast & Htop).
  - clear. induction (fst (createUTXOs (2 ^ treeDepth) node)) as [|u l IH];
      constructor; [|exact IH].
    split; [discriminate|]. change (value0 (toTx u)) with 2499998663. lia.
  - rewrite sumv_leaves, Hlen, Hpow. unfold INT64_MAX. lia.
  - exists top. split; [|split; [exact Hlast|]].
    + unfold twoInOneOutTree.
      destruct (createUTXOs (2 ^ treeDepth) node) as [utxos node1].
      cbn [fst] in *. rewrite Hrun.
      destruct (_ =? _)%nat eqn:Hassert; [reflexivity|].
      exfalso. apply Nat.eqb_neq in Hassert. apply Hassert.
      destruct (tree_loop_spec fuel (map toTx utxos) (map toTx utxos) [])
        as (chain' & Hrun' & Hlen' & _).
      * reflexivity.
      * rewrite length_map, Hlen.
        destruct treeDepth as [|d]; [lia|]. rewrite Nat.pow_succ_r'.
        assert (1 <= 2 ^ d)%nat
          by (apply Nat.neq_0_lt_0, Nat.pow_nonzero; lia). lia.
      * rewrite length_map, Hlen. exact Hfuel.
      * apply toTx_has_output.
      * rewrite Hrun in Hrun'. injection Hrun' as <-.
        rewrite tree_txs_closed, Hlen', length_map, Hlen, Nat.pow_succ_r'. lia.
    + rewrite Htop, sumv_leaves, length_map, Hlen, Hpow. unfold COIN. lia.
Qed.

End Facts.

End ChainedTxFacts.

(* ===================================================================== *)
(** ** The further theorems applied *)
(* ===================================================================== *)

Ltac computed :=
  vm_compute; first [reflexivity | discriminate].

Ltac fits_computed :=
  repeat match goal with
         | |- Forall _ _ => constructor
         | |- maturity_sum_fits _ _ => split
         | |- in_i64 _ => apply in_i64b_spec; vm_compute; reflexivity
         end.

Lemma dust_threshold_witness :
  verify (collab := sample) current_args 1 proof1 = Valid.
Proof.
  apply (verify_dust_threshold_antitone (collab := sample) current_args
                                        COIN 1 proof1); computed.
Defined.

Lemma chain_accepts_witness :
  verify (collab := sample) current_args COIN proof1 = Valid
  /\ ~ expired chain proof1
  /\ Forall (stake_matches_coin (collab := sample) current_args chain)
            (stakes proof1).
Proof.
  apply (verify_chain_accepts_iff (collab := sample) current_args COIN chain
                                  proof1).
  - fits_computed.
  - computed.
Defined.

Lemma frame_witness :
  verify_chain (collab := sample) current_args COIN chain proof1
  = verify_chain (collab := sample) current_args COIN chain_with_more_coins
                 proof1.
Proof.
  apply (verify_chain_reads_only_staked_coins (collab := sample) current_args
           COIN chain chain_with_more_coins proof1).
  - computed.
  - computed.
  - constructor; [computed|constructor].
Defined.

Lemma chain_grows_witness :
  verify_chain (collab := sample) current_args COIN chain_later proof1 = Valid.
Proof.
  apply (verify_chain_stable_as_chain_grows (collab := sample) current_args
           COIN chain chain_later proof1).
  - fits_computed.
  - computed.
  - reflexivity.
  - computed.
  - intros [Hexp _]. vm_compute in Hexp. discriminate Hexp.
Defined.

Lemma never_expired_witness :
  GetResult (verify_chain (collab := sample) current_args COIN chain proof1)
  <> EXPIRED.
Proof.
  apply (never_expired_without_deadline_or_tip (collab := sample) current_args
           COIN chain proof1).
  left. computed.
Defined.

Lemma empty_utxo_set_witness :
  verify_chain (collab := sample) current_args COIN chain_without_coins proof1
  = Invalid MISSING_UTXO "utxo-missing-or-spent".
Proof.
  apply (empty_utxo_set_rejects_every_proof (collab := sample) current_args
           COIN chain_without_coins proof1).
  - computed.
  - intros [Hexp _]. vm_compute in Hexp. discriminate Hexp.
  - reflexivity.
Defined.

Lemma spent_stake_witness :
  verify_chain (collab := sample) current_args COIN
    (mkChainman (ActiveTip chain) (ActiveHeight chain)
                (delete (utxo (stake (first_stake proof1))) (CoinsTip chain)))
    proof1
  = Invalid MISSING_UTXO "utxo-missing-or-spent".
Proof.
  apply (spent_stake_is_reported_missing (collab := sample) current_args
           COIN chain proof1 (first_stake proof1)).
  - computed.
  - apply list_elem_of_In. vm_compute. left. reflexivity.
Defined.

Lemma identity_witness :
  getLimitedId (collab := sample) current_args proof1
  = getLimitedId (collab := sample) current_args proof1_unsigned.
Proof.
  destruct (identity_ignores_signatures (collab := sample) current_args
              proof1 proof1_unsigned) as [Hlim _]; [computed ..|].
  exact Hlim.
Defined.

Lemma amountToScore_witness :
  amountToScore 1999999 = 1999999 / 1000000
  /\ (1999999 < 1000000 -> amountToScore 1999999 = 0)
  /\ amountToScore 1999999 <= amountToScore (10 * COIN).
Proof.
  apply (amountToScore_counts_hundredths 1999999 (10 * COIN));
    unfold COIN; lia.
Defined.

Lemma stake_order_witness :
  getStakedAmount proof12 = getStakedAmount proof21
  /\ getScore proof12 = getScore proof21.
Proof.
  apply (score_ignores_stake_order proof12 proof21).
  - vm_compute. apply perm_swap.
  - constructor; [computed|constructor; [computed|constructor]].
  - computed.
Defined.

Lemma staked_amount_witness :
  getStakedAmount proof12 = total_amount proof12
  /\ COIN * Z.of_nat (length (stakes proof12)) <= getStakedAmount proof12
  /\ COIN <= getStakedAmount proof12.
Proof.
  apply (valid_proof_stakes_at_least_dust (collab := sample) current_args
                                          COIN proof12); computed.
Defined.

Lemma trailing_bytes_witness :
  FromHex (collab := sample) current_args max_size
          (HexStr (ser_proof (collab := sample) current_args proof1
                   ++ [x00; xff]))
  = inl proof1.
Proof.
  apply (FromHex_ignores_trailing_bytes (collab := sample) current_args
                                        max_size proof1 [x00; xff]).
  - computed.
  - unfold wf_proof, in_i64, wf_var_bytes.
    repeat match goal with
           | |- _ /\ _ => split
           | |- Forall _ _ => constructor
           | |- if _ then _ else _ => vm_compute
           | |- wf_signed_stake _ _ => unfold wf_signed_stake, wf_stake, in_i64,
                                        wf_var_bytes
           | |- _ => vm_compute; (discriminate || reflexivity)
           end.
Defined.

Lemma chain_links_witness :
  map ChainedTx.prevout
      (ChainedTx.vin (ChainedTx.nth_chained (env := bench_env) bench_utxo 1))
  = [mkOutPoint
       (@ChainedTx.GetId bench_env
          (ChainedTx.nth_chained (env := bench_env) bench_utxo 0))
       0].
Proof.
  destruct (ChainedTxFacts.oneInOneOutChain_links_each_transaction_to_the_previous
              (env := bench_env) 5 bench_utxo 3
              (map (ChainedTx.nth_chained (env := bench_env) bench_utxo)
                   (seq 0 3))
              1 (ChainedTx.nth_chained (env := bench_env) bench_utxo 1))
    as (_ & _ & _ & _ & Hparent); [computed ..|].
  apply Hparent; [reflexivity|lia].
Defined.

Lemma chain_values_witness :
  ChainedTx.value0 (ChainedTx.nth_chained (env := bench_env) bench_utxo 2)
  = 25 * COIN - 1337 * (Z.of_nat 2 + 1).
Proof.
  destruct (ChainedTxFacts.oneInOneOutChain_output_values
              (env := bench_env) 5 bench_utxo 3
              (map (ChainedTx.nth_chained (env := bench_env) bench_utxo)
                   (seq 0 3))
              2 (ChainedTx.nth_chained (env := bench_env) bench_utxo 2))
    as (Hvalue & _); [computed ..|].
  exact Hvalue.
Defined.

Lemma tree_pairs_witness :
  exists chain,
    fst (ChainedTx.twoInOneOutTree (env := bench_env) 31 0%nat 5)
    = ChainedTx.Returned chain
    /\ (forall i : nat,
          (i < 2 ^ 5 - 1)%nat ->
          exists t1 t2,
            chain !! (2 * i)%nat = Some t1
            /\ chain !! (2 * i + 1)%nat = Some t2
            /\ chain !! (2 ^ 5 + i)%nat
               = Some (ChainedTx.mkTx 2
                         [ChainedTx.mkTxIn
                            (mkOutPoint (@ChainedTx.GetId bench_env t1) 0)
                            [x51] 0xffffffff;
                          ChainedTx.mkTxIn
                            (mkOutPoint (@ChainedTx.GetId bench_env t2) 0)
                            [x51] 0xffffffff]
                         [ChainedTx.mkTxOut
                            (ChainedTx.value0 t1 + ChainedTx.value0 t2 - 1337)
                            (p2sh 7)] 0))
    /\ (forall (j : nat) (tj : ChainedTx.CTransaction),
          (j < 2 ^ 6 - 2)%nat ->
          chain !! j = Some tj ->
          exists t,
            chain !! (2 ^ 5 + j / 2)%nat = Some t
            /\ ChainedTx.vin t !! (j mod 2)%nat
               = Some (ChainedTx.mkTxIn
                         (mkOutPoint (@ChainedTx.GetId bench_env tj) 0)
                         [x51] 0xffffffff)).
Proof.
  apply (ChainedTxFacts.twoInOneOutTree_spends_entries_in_pairs
           (env := bench_env) 31 0%nat 5); cbn; lia.
Defined.

Lemma tree_top_witness :
  exists chain top,
    fst (ChainedTx.twoInOneOutTree (env := bench_env) 31 0%nat 5)
    = ChainedTx.Returned chain
    /\ last chain = Some top
    /\ ChainedTx.value0 top
       = 2 ^ Z.of_nat 5 * (25 * COIN - 1337) - 1337 * (2 ^ Z.of_nat 5 - 1).
Proof.
  apply (ChainedTxFacts.twoInOneOutTree_top_holds_all_value
           (env := bench_env) 31 0%nat 5); cbn; lia.
Defined.

(** The two trees the benchmarks build have the sizes they assert. *)
Example tree_sizes_of_the_benchmarks :
  (ChainedTx.tree_txs 5 = 63 /\ ChainedTx.tree_txs 8 = 511)%nat
  /\ (exists chain,
        fst (ChainedTx.twoInOneOutTree (env := bench_env) 31 0%nat 5)
        = ChainedTx.Returned chain /\ length chain = 63%nat).
Proof.
  split; [split; reflexivity|].
  eexists. split; [vm_compute; reflexivity|reflexivity].
Qed.
